(** * musicxml-note-pattern: the pattern matcher of [src/index.js]

    A shallow embedding of [findPattern] (the snapshot of [src/index.js]
    that classifies with [arrayIncludesCount]) and of the helpers it calls,
    followed by the properties of the matcher.

    Modelling conventions.
    - A JavaScript number that the program obtains from [parseInt] is either
      [NaN] or an integer, kept exactly as a [Z] (the source's doubles agree
      with it up to 2^53); [undefined] is [None].  The staff that
      [findPattern] stamps on a note is a sum of numbers read from the
      document: it is rounded as a sum of doubles is ([toDouble]), and the
      properties of that sum are stated for the integers up to 2^53.
    - The DOM is a tree of nodes.  A reference carries the path from the
      document to the node, which is its identity, and its parent element;
      the document element has no parent element.
    - [innerHTML] is a field of the element: the program reads it only from
      the text leaves [step], [alter], [octave], [staff], [voice], [staves].
      Strings are sequences of 8-bit characters, and white space is the
      ASCII white space.
    - The module-level array [staffVoicesNumbers] is threaded as state, and a
      thrown [TypeError] is a completion of its own. *)

From Stdlib Require Import List ZArith String Ascii Bool Lia QArith DecimalString Sorted.
Import ListNotations.

Set Warnings "-register-all".

Local Open Scope Z_scope.
Local Open Scope list_scope.

(** ** JavaScript values *)

Inductive JsNumber : Type :=
| NaN
| Num (z : Z).

(** [a === b] on numbers: [NaN] differs from everything, itself included. *)
Definition numStrictEq (a b : JsNumber) : bool :=
  match a, b with
  | Num x, Num y => x =? y
  | _, _ => false
  end.

(** [a === b] on number-or-undefined. *)
Definition strictEq (a b : option JsNumber) : bool :=
  match a, b with
  | None, None => true
  | Some x, Some y => numStrictEq x y
  | _, _ => false
  end.

(** [a === b] on string-or-undefined. *)
Definition strEq (a b : option string) : bool :=
  match a, b with
  | None, None => true
  | Some x, Some y => String.eqb x y
  | _, _ => false
  end.

(** [v - 1], with [undefined] converted to [NaN]. *)
Definition minus1 (v : option JsNumber) : JsNumber :=
  match v with
  | Some (Num z) => Num (z - 1)
  | _ => NaN
  end.

(** The double nearest to an integer, ties going to the even significand
    of 53 bits; integers up to 2^53 in magnitude are doubles themselves.
    (Finite doubles only: the magnitudes that overflow a double are not
    modelled.) *)
Definition toDouble (z : Z) : Z :=
  let a := Z.abs z in
  if a <=? 2 ^ 53 then z
  else
    let e := Z.log2 a - 52 in
    let q := Z.shiftr a e in
    let r := a - Z.shiftl q e in
    let half := Z.shiftl 1 (e - 1) in
    let q' :=
      if r <? half then q
      else if half <? r then q + 1
      else if Z.even q then q else q + 1 in
    Z.sgn z * Z.shiftl q' e.

(** [a + b] and [a - b] on integers that are doubles. *)
Definition doubleAdd (a b : Z) : Z := toDouble (a + b).
Definition doubleSub (a b : Z) : Z := toDouble (a - b).

(** *** parseInt *)

Definition isWhiteSpace (c : ascii) : bool :=
  match nat_of_ascii c with
  | 9%nat | 10%nat | 11%nat | 12%nat | 13%nat | 32%nat => true
  | _ => false
  end.

Fixpoint trimStart (s : string) : string :=
  match s with
  | String c s' => if isWhiteSpace c then trimStart s' else s
  | EmptyString => EmptyString
  end.

Definition digitValue (radix : Z) (c : ascii) : option Z :=
  let n := Z.of_nat (nat_of_ascii c) in
  let d :=
    if (48 <=? n) && (n <=? 57) then Some (n - 48)
    else if (97 <=? n) && (n <=? 122) then Some (n - 87)
    else if (65 <=? n) && (n <=? 90) then Some (n - 55)
    else None in
  match d with
  | Some v => if v <? radix then Some v else None
  | None => None
  end.

(** The longest prefix of digits, read in the given radix. *)
Fixpoint parseDigits (radix : Z) (s : string) (acc : option Z) : option Z :=
  match s with
  | String c s' =>
      match digitValue radix c with
      | Some d =>
          parseDigits radix s' (Some (match acc with Some a => a * radix + d | None => d end))
      | None => acc
      end
  | EmptyString => acc
  end.

Definition stripHexPrefix (s : string) : option string :=
  match s with
  | String "0" (String "x" s') => Some s'
  | String "0" (String "X" s') => Some s'
  | _ => None
  end.

(** [parseInt(s)] without a radix argument. *)
Definition parseInt (s : string) : JsNumber :=
  let s := trimStart s in
  let '(sign, s) :=
    match s with
    | String "-" s' => (-1, s')
    | String "+" s' => (1, s')
    | _ => (1, s)
    end in
  let digits :=
    match stripHexPrefix s with
    | Some s' => parseDigits 16 s' None
    | None => parseDigits 10 s None
    end in
  match digits with
  | Some v => Num (sign * v)
  | None => NaN
  end.

(** [n.toString()] of an integer. *)
Definition toString (z : Z) : string := NilZero.string_of_int (Z.to_int z).

(** ** JavaScript arrays used with computed keys

    [staffVoicesNumbers], [staveNotes] and the per-staff arrays are indexed by
    [staff - 1] and [voice - 1].  A key that is an array index lands in a
    slot (a write past the end leaves holes); any other key ([NaN], a
    negative number) is an ordinary property, which [forEach] does not visit. *)

Record JsArray (A : Type) : Type := mkArray {
  slots : list (option A);
  props : list (JsNumber * A)
}.
Arguments mkArray {A}.
Arguments slots {A}.
Arguments props {A}.

Definition emptyArray {A : Type} : JsArray A := mkArray [] [].

Definition isArrayIndex (z : Z) : bool := (0 <=? z) && (z <? 2 ^ 32 - 1).

Definition keyEq (a b : JsNumber) : bool :=
  match a, b with
  | NaN, NaN => true
  | Num x, Num y => x =? y
  | _, _ => false
  end.

Fixpoint propGet {A : Type} (k : JsNumber) (l : list (JsNumber * A)) : option A :=
  match l with
  | [] => None
  | (k', v) :: l' => if keyEq k k' then Some v else propGet k l'
  end.

Fixpoint propSet {A : Type} (k : JsNumber) (v : A) (l : list (JsNumber * A))
  : list (JsNumber * A) :=
  match l with
  | [] => [(k, v)]
  | (k', v') :: l' => if keyEq k k' then (k, v) :: l' else (k', v') :: propSet k v l'
  end.

Fixpoint slotSet {A : Type} (n : nat) (v : A) (l : list (option A)) : list (option A) :=
  match n, l with
  | O, [] => [Some v]
  | O, _ :: l' => Some v :: l'
  | S n', [] => None :: slotSet n' v []
  | S n', x :: l' => x :: slotSet n' v l'
  end.

Definition slotGet {A : Type} (n : nat) (l : list (option A)) : option A :=
  match nth_error l n with
  | Some (Some v) => Some v
  | _ => None
  end.

(** [a[k]]: [None] is [undefined]. *)
Definition arrGet {A : Type} (a : JsArray A) (k : JsNumber) : option A :=
  match k with
  | Num z => if isArrayIndex z then slotGet (Z.to_nat z) (slots a) else propGet k (props a)
  | NaN => propGet k (props a)
  end.

(** [a[k] = v]. *)
Definition arrSet {A : Type} (a : JsArray A) (k : JsNumber) (v : A) : JsArray A :=
  match k with
  | Num z =>
      if isArrayIndex z then mkArray (slotSet (Z.to_nat z) v (slots a)) (props a)
      else mkArray (slots a) (propSet k v (props a))
  | NaN => mkArray (slots a) (propSet k v (props a))
  end.

(** The elements [a.forEach] visits: the filled slots, in index order. *)
Fixpoint filled {A : Type} (l : list (option A)) : list A :=
  match l with
  | [] => []
  | Some v :: l' => v :: filled l'
  | None :: l' => filled l'
  end.

Definition arrValues {A : Type} (a : JsArray A) : list A := filled (slots a).

(** [a.indexOf(v)], by strict equality. *)
Fixpoint indexOfFrom {A : Type} (eqb : A -> A -> bool) (v : A) (l : list A) (i : Z) : Z :=
  match l with
  | [] => -1
  | x :: l' => if eqb x v then i else indexOfFrom eqb v l' (i + 1)
  end.

Definition indexOf {A : Type} (eqb : A -> A -> bool) (v : A) (l : list A) : Z :=
  indexOfFrom eqb v l 0.

(** [voices.sort((a, b) => a - b)]: [undefined] entries go last without being
    compared; a comparison that yields [NaN] counts as equal.  Modelled as a
    stable insertion sort; with a [NaN] entry the comparator is inconsistent
    and the engine's order is implementation-defined. *)
Definition sortsBefore (a b : JsNumber) : bool :=
  match a, b with
  | Num x, Num y => x <? y
  | _, _ => false
  end.

Fixpoint insertSorted (x : JsNumber) (l : list JsNumber) : list JsNumber :=
  match l with
  | [] => [x]
  | y :: l' => if sortsBefore x y then x :: l else y :: insertSorted x l'
  end.

Definition sortVoices (voices : list (option JsNumber)) : list (option JsNumber) :=
  let defined := filled voices in
  let undefineds := filter (fun v => match v with None => true | Some _ => false end) voices in
  map Some (fold_left (fun acc x => insertSorted x acc) defined []) ++ undefineds.


(** ** The document tree *)

Inductive Element : Type :=
| Elem (tagName : string) (attributes : list (string * string))
       (innerHTML : string) (children : list Element).

Definition tagName (e : Element) : string :=
  match e with Elem t _ _ _ => t end.
Definition attributes (e : Element) : list (string * string) :=
  match e with Elem _ a _ _ => a end.
Definition innerHTML (e : Element) : string :=
  match e with Elem _ _ h _ => h end.
Definition children (e : Element) : list Element :=
  match e with Elem _ _ _ c => c end.

(** A reference to a node of a document: [path] lists the child indices
    from the node up to the document and identifies the node; the
    [Document] itself has the empty path.  [parentElement] is the element
    the node is a child of; the document element has none, its parent node
    being the [Document], which is not an element. *)
Inductive Ref : Type :=
| MkRef (path : list nat) (node : Element) (parentElement : option Ref).

Definition path (r : Ref) : list nat :=
  match r with MkRef p _ _ => p end.
Definition node (r : Ref) : Element :=
  match r with MkRef _ e _ => e end.
Definition parentElement (r : Ref) : option Ref :=
  match r with MkRef _ _ p => p end.

(** Identity of elements ([===] on objects, as [indexOf] uses it). *)
Definition sameElement (a b : Ref) : bool :=
  if list_eq_dec Nat.eq_dec (path a) (path b) then true else false.

(** [parentElement] of the children of [self]: [self] when it is an
    element, [null] when it is the [Document]. *)
Definition asParentElement (self : Ref) : option Ref :=
  match path self with
  | [] => None
  | _ :: _ => Some self
  end.

(** All descendants of [e] in document order, [self] being the reference
    of [e]. *)
Fixpoint descendants (self : Ref) (e : Element) {struct e} : list Ref :=
  match e with
  | Elem _ _ _ kids =>
      (fix walk (i : nat) (ks : list Element) {struct ks} : list Ref :=
         match ks with
         | [] => []
         | k :: ks' =>
             let r := MkRef (i :: path self) k (asParentElement self) in
             r :: descendants r k ++ walk (S i) ks'
         end) 0%nat kids
  end.

Definition getElementsByTagName (r : Ref) (name : string) : list Ref :=
  filter (fun d => String.eqb (tagName (node d)) name) (descendants r (node r)).

Definition getAttribute (r : Ref) (name : string) : option string :=
  match find (fun kv => String.eqb (fst kv) name) (attributes (node r)) with
  | Some kv => Some (snd kv)
  | None => None
  end.

(** The [Document] whose document element is [root]. *)
Definition document (root : Element) : Ref :=
  MkRef [] (Elem "#document" [] "" [root]) None.

(** ** Completions and the state of the module *)

Inductive Exn : Type :=
| TypeError.

Inductive Completion (A : Type) : Type :=
| Returned (a : A)
| Threw (e : Exn).
Arguments Returned {A}.
Arguments Threw {A}.

(** The module-level [let staffVoicesNumbers = []]. *)
Definition Table : Type := JsArray (list (option JsNumber)).

Definition M (A : Type) : Type := Table -> Completion A * Table.

Definition ret {A : Type} (a : A) : M A := fun t => (Returned a, t).

Definition bind {A B : Type} (m : M A) (f : A -> M B) : M B :=
  fun t =>
    match m t with
    | (Returned a, t') => f a t'
    | (Threw e, t') => (Threw e, t')
    end.

Notation "x <- m ;; k" := (bind m (fun x => k))
  (at level 61, m at next level, right associativity).

(** [xs.forEach(x => body)], the loop state passed along. *)
Fixpoint forEach {A S : Type} (body : A -> S -> M S) (xs : list A) (s : S) : M S :=
  match xs with
  | [] => ret s
  | x :: xs' => s' <- body x s ;; forEach body xs' s'
  end.

(** ** The helpers of [src/index.js] *)

Definition getUniqueElement (html : list Ref) : option Ref :=
  match html with
  | [e] => Some e
  | _ => None
  end.

(** An element is truthy, so the unique element's [innerHTML] is returned
    whatever it is, the empty string included. *)
Definition getUniqueString (html : list Ref) : option string :=
  match getUniqueElement html with
  | Some e => Some (innerHTML (node e))
  | None => None
  end.

(** The empty string is falsy and gives [undefined]. *)
Definition getUniqueInteger (html : list Ref) : option JsNumber :=
  match getUniqueString html with
  | Some s => if String.eqb s "" then None else Some (parseInt s)
  | None => None
  end.

Module Note.
Record t : Type := mk {
  step : option string;
  octave : option JsNumber;
  alter : option JsNumber;
  staff : Z;
  voice : Z;
  staffVoice : Z
}.
End Note.

(** [staff ? staff : 1]. *)
Definition orOne (v : option JsNumber) : Z :=
  match v with
  | Some (Num z) => if z =? 0 then 1 else z
  | _ => 1
  end.

Definition sortTable (t : Table) : Table :=
  mkArray (map (option_map sortVoices) (slots t)) (props t).

Definition getNote (noteElement : Ref) : M Note.t :=
  fun staffVoicesNumbers =>
    let pitch := getUniqueElement (getElementsByTagName noteElement "pitch") in
    let staff := getUniqueInteger (getElementsByTagName noteElement "staff") in
    let voice := getUniqueInteger (getElementsByTagName noteElement "voice") in
    let t1 :=
      match arrGet staffVoicesNumbers (minus1 staff) with
      | Some staffVoiceNumbers =>
          if (0 <? Z.of_nat (List.length staffVoiceNumbers))
             && (indexOf strictEq voice staffVoiceNumbers =? -1)
          then arrSet staffVoicesNumbers (minus1 staff) (staffVoiceNumbers ++ [voice])
          else staffVoicesNumbers
      | None => arrSet staffVoicesNumbers (minus1 staff) [voice]
      end in
    let t2 := sortTable t1 in
    match pitch with
    | None => (Threw TypeError, t2)
    | Some pitch =>
        match arrGet t2 (minus1 staff) with
        | None => (Threw TypeError, t2)
        | Some voices =>
            (Returned
               (Note.mk
                  (getUniqueString (getElementsByTagName pitch "step"))
                  (getUniqueInteger (getElementsByTagName pitch "octave"))
                  (getUniqueInteger (getElementsByTagName pitch "alter"))
                  (orOne staff)
                  (orOne voice)
                  (indexOf strictEq voice voices + 1)),
             t2)
        end
    end.

(** [note1 && note2 && note1.step === note2.step && note1.alter === note2.alter],
    as the boolean its callers test; an [undefined] argument gives a falsy
    result. *)
Definition noteIsEqual (note1 note2 : option Note.t) : bool :=
  match note1, note2 with
  | Some n1, Some n2 =>
      strEq (Note.step n1) (Note.step n2) && strictEq (Note.alter n1) (Note.alter n2)
  | _, _ => false
  end.

Definition staffVoiceIsEqual (note1 note2 : option Note.t) : bool :=
  match note1, note2 with
  | Some n1, Some n2 =>
      (Note.staff n1 =? Note.staff n2) && (Note.voice n1 =? Note.voice n2)
  | _, _ => false
  end.

(** [Array.from(element.parentElement.getElementsByTagName(tagName))
      .filter(sibling => ...).indexOf(element)]; [filterValue] is the number
    whose [toString()] the siblings' first [filterTagName] element is
    compared with. *)
Definition siblingMatches (filterTagName : string) (filterValue : Z) (sibling : Ref) : bool :=
  match getElementsByTagName sibling filterTagName with
  | first :: _ => String.eqb (innerHTML (node first)) (toString filterValue)
  | [] => false
  end.

Definition getElementIndex (element : Ref) (tagName filterTagName : string)
    (filterValue : Z) : Completion Z :=
  match parentElement element with
  | None => Threw TypeError
  | Some parent =>
      Returned
        (indexOf (fun sibling e => sameElement sibling e) element
           (filter (siblingMatches filterTagName filterValue)
              (getElementsByTagName parent tagName)))
  end.

Definition isNotRest (noteElement : Ref) : bool :=
  (List.length (getElementsByTagName noteElement "rest") =? 0)%nat.

(** [target.every(v => { if (array.some(s => compareCallback(v, s))) { count++;
    return true; } return false; })]: [every] stops at the first target
    element for which the callback returns false. *)
Fixpoint arrayIncludesCount {A B : Type} (array : list A) (target : list B)
    (compareCallback : B -> A -> bool) : Z :=
  match target with
  | [] => 0
  | v :: target' =>
      if existsb (fun s => compareCallback v s) array
      then 1 + arrayIncludesCount array target' compareCallback
      else 0
  end.

(** ** findPattern *)

Module NoteOccurrence.
Record t : Type := mk {
  staff : Z;
  measure : JsNumber;
  measureNoteNumber : Z;
  note : Note.t
}.
End NoteOccurrence.

Module PatternOccurrence.
Record t : Type := mk {
  notes : list NoteOccurrence.t;
  matchingCount : Z;
  occurenceNumber : Z
}.
End PatternOccurrence.

(** The [let] variables of [findPattern] that its loops update. *)
Module Scan.
Record t : Type := mk {
  exactPatternOccurrences : list PatternOccurrence.t;
  exactPatternOccurrenceCount : Z;
  approximatePatternOccurrences : list PatternOccurrence.t;
  approximatePatternOccurrenceCount : Z;
  staffCount : Z
}.
End Scan.

(** The object [findPattern] returns. *)
Module Found.
Record t : Type := mk {
  exactPatternOccurrences : list PatternOccurrence.t;
  approximatePatternOccurrences : list PatternOccurrence.t
}.
End Found.

Definition lift {A : Type} (c : Completion A) : M A := fun t => (c, t).

Fixpoint lastElement {A : Type} (l : list A) : option A :=
  match l with
  | [] => None
  | [x] => Some x
  | _ :: l' => lastElement l'
  end.

(** [parseInt(e.getAttribute(name))]; a missing attribute is [null]. *)
Definition parseIntAttribute (e : Ref) (name : string) : JsNumber :=
  match getAttribute e name with
  | Some s => parseInt s
  | None => parseInt "null"
  end.

(** The object pushed for an accepted candidate. *)
Definition noteOccurrence (staffCount : Z) (noteRef : Ref) (note : Note.t)
  : Completion NoteOccurrence.t :=
  match parentElement noteRef with
  | None => Threw TypeError
  | Some parent =>
      match getElementIndex noteRef "note" "voice" (Note.voice note) with
      | Threw e => Threw e
      | Returned index =>
          Returned
            (NoteOccurrence.mk
               (doubleSub (doubleAdd staffCount (Note.staff note)) 1)
               (parseIntAttribute parent "number")
               (index + 1)
               note)
      end
  end.

(** The acceptance test of a candidate. *)
Definition accepts (note patternNote : Note.t) (prevNote : option Note.t) : bool :=
  (noteIsEqual (Some note) (Some patternNote)
   && staffVoiceIsEqual (Some note)
        (Some (match prevNote with Some p => p | None => note end)))
  || noteIsEqual (Some note) prevNote.

(** The [for] loop over [patternIndex]; [pattern] is what is left of the
    pattern from [patternIndex] on. *)
Fixpoint align (staffCount : Z) (staffVoiceNotes : list Ref) (noteIndex : nat)
    (pattern : list Note.t) (patternIndex : nat)
    (patternOccurrence : list NoteOccurrence.t) : M (list NoteOccurrence.t) :=
  match pattern with
  | [] => ret patternOccurrence
  | patternNote :: pattern' =>
      let continue := align staffCount staffVoiceNotes noteIndex pattern' (S patternIndex) in
      match nth_error staffVoiceNotes (noteIndex + patternIndex) with
      | None => continue patternOccurrence
      | Some noteRef =>
          if negb (isNotRest noteRef) then continue patternOccurrence
          else
            note <- getNote noteRef ;;
            let prevAccumulator := lastElement patternOccurrence in
            let prevNote := option_map NoteOccurrence.note prevAccumulator in
            if accepts note patternNote prevNote
            then
              occ <- lift (noteOccurrence staffCount noteRef note) ;;
              continue (patternOccurrence ++ [occ])
            else continue patternOccurrence
      end
  end.

Definition patternLength (pattern : list Note.t) : Z := Z.of_nat (List.length pattern).

(** [matchingCount / pattern.length > 0.6].  The source divides doubles; for
    an array length (below 2^32) the rounded quotient exceeds the double
    nearest to 0.6 exactly when the rational quotient exceeds 6/10. *)
Definition ratioAbove (matchingCount : Z) (pattern : list Note.t) : bool :=
  negb (Qle_bool (inject_Z matchingCount / inject_Z (patternLength pattern)) 0.6).

(** [noteIsEqual] as the compare callback: [v] is a pattern entry, [n] the
    note of an accumulated occurrence. *)
Definition pitchEq (v n : Note.t) : bool := noteIsEqual (Some v) (Some n).

(** [arrayIncludesCount(patternOccurrence.map((occ) => occ.note), pattern,
    noteIsEqual)]. *)
Definition matchingCountOf (pattern : list Note.t)
    (patternOccurrence : list NoteOccurrence.t) : Z :=
  arrayIncludesCount (map NoteOccurrence.note patternOccurrence) pattern pitchEq.

(** What follows the [for] loop in a window: the count and the two pushes. *)
Definition classify (pattern : list Note.t) (patternOccurrence : list NoteOccurrence.t)
    (s : Scan.t) : Scan.t :=
  let matchingCount := matchingCountOf pattern patternOccurrence in
  if patternLength pattern - matchingCount =? 0 then
    Scan.mk
      (Scan.exactPatternOccurrences s
         ++ [PatternOccurrence.mk patternOccurrence matchingCount
               (Scan.exactPatternOccurrenceCount s + 1)])
      (Scan.exactPatternOccurrenceCount s + 1)
      (Scan.approximatePatternOccurrences s)
      (Scan.approximatePatternOccurrenceCount s)
      (Scan.staffCount s)
  else if ratioAbove matchingCount pattern then
    Scan.mk
      (Scan.exactPatternOccurrences s)
      (Scan.exactPatternOccurrenceCount s)
      (Scan.approximatePatternOccurrences s
         ++ [PatternOccurrence.mk patternOccurrence matchingCount
               (Scan.approximatePatternOccurrenceCount s + 1)])
      (Scan.approximatePatternOccurrenceCount s + 1)
      (Scan.staffCount s)
  else s.

(** The callback of the innermost [forEach]: one window start. *)
Definition window (pattern : list Note.t) (staffVoiceNotes : list Ref)
    (noteIndex : nat) (s : Scan.t) : M Scan.t :=
  patternOccurrence <- align (Scan.staffCount s) staffVoiceNotes noteIndex pattern 0 [] ;;
  ret (classify pattern patternOccurrence s).

(** [staveNotes]: note elements arranged in staves and staff voices. *)
Definition StaveNotes : Type := JsArray (JsArray (list Ref)).

(** The callback that files one non-rest note of a part with several staves. *)
Definition arrangeNote (staveNotes : StaveNotes) (noteElement : Ref) : StaveNotes :=
  let staff := getUniqueInteger (getElementsByTagName noteElement "staff") in
  let voice := getUniqueInteger (getElementsByTagName noteElement "voice") in
  match arrGet staveNotes (minus1 staff) with
  | Some staffNotes =>
      match arrGet staffNotes (minus1 voice) with
      | Some staffVoiceNotes =>
          arrSet staveNotes (minus1 staff)
            (arrSet staffNotes (minus1 voice) (staffVoiceNotes ++ [noteElement]))
      | None => staveNotes
      end
  | None =>
      arrSet staveNotes (minus1 staff) (arrSet emptyArray (minus1 voice) [noteElement])
  end.

Definition arrange (partStaffCount : Z) (notes : list Ref) : StaveNotes :=
  if 1 <? partStaffCount
  then fold_left arrangeNote (filter isNotRest notes) emptyArray
  else arrSet emptyArray (Num 0) (arrSet emptyArray (Num 0) notes).

(** The windows of one lane: the indices of its filtered copy. *)
Definition windowStarts (staffVoiceNotes : list Ref) : list nat :=
  seq 0 (List.length (filter isNotRest staffVoiceNotes)).

Definition scanLane (pattern : list Note.t) (staffVoiceNotes : list Ref) (s : Scan.t)
  : M Scan.t :=
  forEach (window pattern staffVoiceNotes) (windowStarts staffVoiceNotes) s.

Definition scanStaff (pattern : list Note.t) (staffVoices : JsArray (list Ref))
    (s : Scan.t) : M Scan.t :=
  forEach (scanLane pattern) (arrValues staffVoices) s.

(** The lanes of a part, in the order the two outer [forEach] visit them. *)
Definition lanesOf (partElement : Ref) : StaveNotes :=
  arrange (orOne (getUniqueInteger (getElementsByTagName partElement "staves")))
    (getElementsByTagName partElement "note").

(** The callback of [[...parts].forEach]. *)
Definition scanPart (pattern : list Note.t) (partElement : Ref) (s : Scan.t) : M Scan.t :=
  let s1 :=
    Scan.mk (Scan.exactPatternOccurrences s) (Scan.exactPatternOccurrenceCount s)
      (Scan.approximatePatternOccurrences s) (Scan.approximatePatternOccurrenceCount s)
      (Scan.staffCount s + 1) in
  forEach (scanStaff pattern) (arrValues (lanesOf partElement)) s1.

Definition scanStart : Scan.t := Scan.mk [] 0 [] 0 0.

Definition findPattern (xml : Ref) (pattern : list Note.t) : M Found.t :=
  s <- forEach (scanPart pattern) (getElementsByTagName xml "part") scanStart ;;
  ret (Found.mk (Scan.exactPatternOccurrences s) (Scan.approximatePatternOccurrences s)).

(** ** Building documents and patterns *)

Definition text (tag content : string) : Element := Elem tag [] content [].

Definition pitchOf (step : string) (alter : option Z) : Element :=
  Elem "pitch" [] ""
    (text "step" step
     :: match alter with Some a => [text "alter" (toString a)] | None => [] end).

(** A pattern entry [{ step, alter }]; the fields a pattern literal leaves
    out take the defaults of the [Note] typedef. *)
Definition pat (step : string) (alter : option Z) : Note.t :=
  Note.mk (Some step) None (option_map Num alter) 1 1 1.

Definition noteOf (kids : list Element) : Element := Elem "note" [] "" kids.

Definition restOf (kids : list Element) : Element :=
  Elem "note" [] "" (Elem "rest" [] "" [] :: kids).

Definition measureOf (number : string) (kids : list Element) : Element :=
  Elem "measure" [("number", number)%string] "" kids.

Definition partOf (id : string) (kids : list Element) : Element :=
  Elem "part" [("id", id)%string] "" kids.

Definition stavesOf (count : string) : Element :=
  Elem "attributes" [] "" [text "staves" count].

Definition scoreOf (parts : list Element) : Ref :=
  document (Elem "score-partwise" [] "" parts).

(** ** Notions the properties are stated with *)

(** The pitch of a note as [noteIsEqual] reads it. *)
Definition pitchKey (n : Note.t) : option string * option JsNumber :=
  (Note.step n, Note.alter n).

(** No two entries of the pattern are equal as pitches. *)
Definition pairwiseDistinct (pattern : list Note.t) : Prop :=
  ForallOrdPairs (fun a b => noteIsEqual (Some a) (Some b) = false) pattern.

(** How the window loop can extend an occurrence: each pattern entry either
    passes without a note or takes one that [accepts] admits, [prev] being
    the last note taken so far. *)
Inductive Aligned : option Note.t -> list Note.t -> list NoteOccurrence.t -> Prop :=
| Aligned_nil : forall prev, Aligned prev [] []
| Aligned_skip : forall prev p ps ns,
    Aligned prev ps ns -> Aligned prev (p :: ps) ns
| Aligned_take : forall prev p ps n ns,
    accepts (NoteOccurrence.note n) p prev = true ->
    Aligned (Some (NoteOccurrence.note n)) ps ns ->
    Aligned prev (p :: ps) (n :: ns).

(** The greedy one-to-one coverage count the specification describes: each
    accumulated note consumes the first unused pattern entry of its pitch. *)
Fixpoint consumeFirst (n : Note.t) (pattern : list Note.t) : option (list Note.t) :=
  match pattern with
  | [] => None
  | p :: pattern' =>
      if noteIsEqual (Some p) (Some n) then Some pattern'
      else option_map (cons p) (consumeFirst n pattern')
  end.

Fixpoint greedyCoverageCount (notes pattern : list Note.t) : Z :=
  match notes with
  | [] => 0
  | n :: notes' =>
      match consumeFirst n pattern with
      | Some pattern' => 1 + greedyCoverageCount notes' pattern'
      | None => greedyCoverageCount notes' pattern
      end
  end.

(** The elements of [l] that come before [r]. *)
Fixpoint before (r : Ref) (l : list Ref) : list Ref :=
  match l with
  | [] => []
  | x :: l' => if sameElement x r then [] else x :: before r l'
  end.



(** The note objects of the occurrences that scanning the part at index [p]
    appends to the two result arrays. *)
Definition notesOfPart (xml : Ref) (pattern : list Note.t) (t : Table) (p : nat)
  : list NoteOccurrence.t :=
  let parts := getElementsByTagName xml "part" in
  match forEach (scanPart pattern) (firstn p parts) scanStart t with
  | (Returned s, t1) =>
      match nth_error parts p with
      | Some partElement =>
          match scanPart pattern partElement s t1 with
          | (Returned s', _) =>
              flat_map PatternOccurrence.notes
                (skipn (List.length (Scan.exactPatternOccurrences s))
                   (Scan.exactPatternOccurrences s')
                 ++ skipn (List.length (Scan.approximatePatternOccurrences s))
                      (Scan.approximatePatternOccurrences s'))
          | (Threw _, _) => []
          end
      | None => []
      end
  | (Threw _, _) => []
  end.

(** Every lane [findPattern] scans in a part, in scanning order. *)
Definition scannedLanes (partElement : Ref) : list (list Ref) :=
  flat_map arrValues (arrValues (lanesOf partElement)).

(** Two calls of [findPattern] in a row, the second starting from the
    [staffVoicesNumbers] the first leaves. *)
Definition findPatternTwice (xml : Ref) (pattern : list Note.t) : M (Found.t * Found.t) :=
  first <- findPattern xml pattern ;;
  second <- findPattern xml pattern ;;
  ret (first, second).

(** Every non-rest note of every part contains exactly one [pitch]. *)
Definition pitchedNotes (xml : Ref) : Prop :=
  forall partElement noteElement,
    In partElement (getElementsByTagName xml "part") ->
    In noteElement (getElementsByTagName partElement "note") ->
    isNotRest noteElement = true ->
    exists pitch, getElementsByTagName noteElement "pitch" = [pitch].

(** ** Scores and patterns used as examples *)

Definition voiced (step : string) (alter : option Z) (voice : string) : Element :=
  noteOf [pitchOf step alter; text "voice" voice].

Definition placed (step : string) (alter : option Z) (staff voice : string) : Element :=
  noteOf [pitchOf step alter; text "voice" voice; text "staff" staff].

Definition onePart (notes : list Element) : Ref :=
  scoreOf [partOf "P1" [measureOf "1" notes]].

Definition bachPattern : list Note.t :=
  [pat "B" (Some (-1)); pat "A" None; pat "C" None; pat "B" (Some (-1))].

(** The notes B flat, A, C, B flat. *)
Definition scoreExact : Ref :=
  onePart [voiced "B" (Some (-1)) "1"; voiced "A" None "1"; voiced "C" None "1";
           voiced "B" (Some (-1)) "1"].

(** The notes B flat, A, C, B natural. *)
Definition scoreLastNatural : Ref :=
  onePart [voiced "B" (Some (-1)) "1"; voiced "A" None "1"; voiced "C" None "1";
           voiced "B" None "1"].

(** The notes A, B, B against the pattern A, B, A. *)
Definition scoreRepeat : Ref :=
  onePart [voiced "A" None "1"; voiced "B" None "1"; voiced "B" None "1"].
Definition patternABA : list Note.t := [pat "A" None; pat "B" None; pat "A" None].

(** The notes C, D, E, G against the pattern C, D, E, F. *)
Definition scoreNear : Ref :=
  onePart [voiced "C" None "1"; voiced "D" None "1"; voiced "E" None "1";
           voiced "G" None "1"].
Definition patternCDEF : list Note.t :=
  [pat "C" None; pat "D" None; pat "E" None; pat "F" None].

(** Two rests, then A and B, in a part of one staff. *)
Definition scoreRests : Ref :=
  onePart [restOf [text "voice" "1"]; restOf [text "voice" "1"];
           voiced "A" None "1"; voiced "B" None "1"].
Definition patternAB : list Note.t := [pat "A" None; pat "B" None].

(** A part of two staves whose first staff has two voices. *)
Definition scoreTwoVoices : Ref :=
  scoreOf [partOf "P1" [measureOf "1"
    [stavesOf "2"; placed "A" None "1" "1"; placed "B" None "1" "2"]]].
Definition patternB : list Note.t := [pat "B" None].

(** Voice 2 sounds before voice 1 on the same staff. *)
Definition scoreVoiceOrder : Ref :=
  onePart [placed "A" None "1" "2"; placed "A" None "1" "1"].
Definition patternA : list Note.t := [pat "A" None].

(** A part without notes, and a note whose pitch has no step. *)
Definition scoreEmptyPart : Ref := scoreOf [partOf "P1" [measureOf "1" []]].
Definition scoreNoStep : Ref :=
  onePart [noteOf [Elem "pitch" [] "" [text "octave" "4"]; text "voice" "1"]].

(** A part of two staves with a note on its second staff, then a part of
    one staff. *)
Definition scoreTwoParts : Ref :=
  scoreOf [partOf "P1" [measureOf "1" [stavesOf "2"; placed "A" None "2" "1"]];
           partOf "P2" [measureOf "1" [placed "A" None "1" "1"]]].

Definition firstNote (xml : Ref) : option Ref :=
  nth_error (getElementsByTagName xml "note") 0.

(** The notes C, D, E, F, the pattern C, D, E, F itself. *)
Definition scoreScale : Ref :=
  onePart [voiced "C" None "1"; voiced "D" None "1"; voiced "E" None "1";
           voiced "F" None "1"].

(** The notes A and B of [scoreRests] without the rests before them. *)
Definition scoreNoRests : Ref := onePart [voiced "A" None "1"; voiced "B" None "1"].

(** What [findPattern] returns from a fresh [staffVoicesNumbers]. *)
Definition runOf (xml : Ref) (pattern : list Note.t) : Found.t :=
  match fst (findPattern xml pattern emptyArray) with
  | Returned found => found
  | Threw _ => Found.mk [] []
  end.

Definition tableAfter (xml : Ref) (pattern : list Note.t) : Table :=
  snd (findPattern xml pattern emptyArray).

Definition firstOf (occurrences : list PatternOccurrence.t) : PatternOccurrence.t :=
  hd (PatternOccurrence.mk [] 0 0) occurrences.

Definition foundScale : Found.t := Eval vm_compute in runOf scoreScale patternCDEF.
Definition foundNear : Found.t := Eval vm_compute in runOf scoreNear patternCDEF.
Definition foundLastNatural : Found.t :=
  Eval vm_compute in runOf scoreLastNatural bachPattern.
Definition foundRepeat : Found.t := Eval vm_compute in runOf scoreRepeat patternABA.

(** The pattern entries that have a pitch-equal note among [notes], a note
    serving as many entries as it equals. *)
Definition coveredEntries (pattern : list Note.t) (notes : list NoteOccurrence.t) : Z :=
  Z.of_nat
    (List.length
       (filter (fun v => existsb (fun n => pitchEq v (NoteOccurrence.note n)) notes)
          pattern)).


(** The notes of an occurrence agree with the pattern, pitch by pitch. *)
Definition pitchEqualInOrder (occ : PatternOccurrence.t) (pattern : list Note.t) : Prop :=
  Forall2 (fun n p => noteIsEqual (Some (NoteOccurrence.note n)) (Some p) = true)
    (PatternOccurrence.notes occ) pattern.

(** The staffVoice numbers of the notes of the exact occurrences. *)
Definition staffVoicesOf (found : Found.t) : list (list Z) :=
  map (fun occ => map (fun n => Note.staffVoice (NoteOccurrence.note n))
                    (PatternOccurrence.notes occ))
    (Found.exactPatternOccurrences found).

Definition twiceVoiceOrder : Found.t * Found.t :=
  Eval vm_compute in
    match fst (findPatternTwice scoreVoiceOrder patternA emptyArray) with
    | Returned both => both
    | Threw _ => (Found.mk [] [], Found.mk [] [])
    end.



(** A part of two staves with a note on each staff, then a part of one
    staff; the note objects found in them for the pattern A. *)
Definition scoreStaves : Ref :=
  scoreOf [partOf "P1" [measureOf "1"
             [stavesOf "2"; placed "A" None "1" "1"; placed "A" None "2" "1"]];
           partOf "P2" [measureOf "1" [placed "A" None "1" "1"]]].

Definition stampedOnFirstStaff : NoteOccurrence.t :=
  Eval vm_compute in
    nth 0 (notesOfPart scoreStaves patternA emptyArray 0)
      (NoteOccurrence.mk 0 NaN 0 (pat "" None)).
Definition stampedOnSecondStaff : NoteOccurrence.t :=
  Eval vm_compute in
    nth 1 (notesOfPart scoreStaves patternA emptyArray 0)
      (NoteOccurrence.mk 0 NaN 0 (pat "" None)).
Definition stampedInNextPart : NoteOccurrence.t :=
  Eval vm_compute in
    nth 0 (notesOfPart scoreStaves patternA emptyArray 1)
      (NoteOccurrence.mk 0 NaN 0 (pat "" None)).

(** ** Helpers of the other snapshots of [src/index.js] *)

(** [getNodeIndex]:
    [Array.from(element.parentElement.getElementsByTagName(tagName)).indexOf(element)]. *)
Definition getNodeIndex (element : Ref) (tagName : string) : Completion Z :=
  match parentElement element with
  | None => Threw TypeError
  | Some parent =>
      Returned
        (indexOf (fun sibling e => sameElement sibling e) element
           (getElementsByTagName parent tagName))
  end.

(** ** Colouring the rendered score

    [colorOsmdNote] and [colorOsmdPatternOccurrences] of [src/index.js] write
    into the object the renderer builds.  Only the fields the two functions
    read are modelled: [osmd.graphic.measureList] is an array of arrays of
    measures, a measure has [staffEntries], a staff entry has
    [graphicalVoiceEntries], a voice entry has [notes], and a note has the
    [noteheadColor] of its source note.  Any entry of any of these arrays
    may be [undefined], and every note has a source note of its own. *)

Module Osmd.
Record GraphicalNote : Type := mkNote {
  noteheadColor : option string
}.

Record GraphicalVoiceEntry : Type := mkVoiceEntry {
  notes : list (option GraphicalNote)
}.

Record GraphicalStaffEntry : Type := mkStaffEntry {
  graphicalVoiceEntries : list (option GraphicalVoiceEntry)
}.

Record GraphicalMeasure : Type := mkMeasure {
  staffEntries : list (option GraphicalStaffEntry)
}.

Definition MeasureList : Type := list (option (list (option GraphicalMeasure))).
End Osmd.

(** [a[i]] on an array whose entries may be [undefined]. *)
Definition entryAt {A : Type} (a : list (option A)) (i : JsNumber) : option A :=
  match i with
  | Num z =>
      if z <? 0 then None
      else match nth_error a (Z.to_nat z) with
           | Some (Some v) => Some v
           | _ => None
           end
  | NaN => None
  end.

(** The array with its entry [n] replaced. *)
Fixpoint replaceAt {A : Type} (a : list (option A)) (n : nat) (v : A) : list (option A) :=
  match a, n with
  | [], _ => []
  | _ :: a', O => Some v :: a'
  | x :: a', S n' => x :: replaceAt a' n' v
  end.

(** [n - 1] on a number. *)
Definition pred1 (n : JsNumber) : JsNumber :=
  match n with
  | Num z => Num (z - 1)
  | NaN => NaN
  end.

(** [while (!graphicalVoiceEntriesRef[staffVoiceNum]) { if (staffVoiceNum <= 0)
    break; staffVoiceNum--; }]: the value of [staffVoiceNum] after the loop. *)
Fixpoint settleFrom (entries : list (option Osmd.GraphicalVoiceEntry)) (n : nat) : Z :=
  match n with
  | O => 0
  | S n' =>
      match entryAt entries (Num (Z.of_nat n)) with
      | Some _ => Z.of_nat n
      | None => settleFrom entries n'
      end
  end.

Definition settle (entries : list (option Osmd.GraphicalVoiceEntry)) (staffVoiceNum : Z) : Z :=
  if staffVoiceNum <=? 0 then staffVoiceNum else settleFrom entries (Z.to_nat staffVoiceNum).

(** [colorOsmdNote(osmd, { measure, staff, noteNumber, staffVoice, color })] on
    the measure list of [osmd].  The property chain before the [try] throws a
    [TypeError] when an entry is missing; a [TypeError] inside the [try] is
    caught and logged, and the measure list is left as it is. *)
Definition colorOsmdNote (measure : JsNumber) (staff noteNumber staffVoice : Z)
    (color : string) (measureList : Osmd.MeasureList) : Completion Osmd.MeasureList :=
  match entryAt measureList (pred1 measure) with
  | None => Threw TypeError
  | Some staves =>
      match entryAt staves (Num (staff - 1)) with
      | None => Threw TypeError
      | Some graphicalMeasure =>
          match entryAt (Osmd.staffEntries graphicalMeasure) (Num (noteNumber - 1)) with
          | None => Threw TypeError
          | Some staffEntry =>
              let graphicalVoiceEntriesRef := Osmd.graphicalVoiceEntries staffEntry in
              let staffVoiceNum := settle graphicalVoiceEntriesRef (staffVoice - 1) in
              match entryAt graphicalVoiceEntriesRef (Num staffVoiceNum) with
              | None => Returned measureList
              | Some voiceEntry =>
                  match entryAt (Osmd.notes voiceEntry) (Num 0) with
                  | None => Returned measureList
                  | Some _ =>
                      let voiceEntry' :=
                        Osmd.mkVoiceEntry
                          (replaceAt (Osmd.notes voiceEntry) 0 (Osmd.mkNote (Some color))) in
                      let staffEntry' :=
                        Osmd.mkStaffEntry
                          (replaceAt graphicalVoiceEntriesRef (Z.to_nat staffVoiceNum)
                             voiceEntry') in
                      let graphicalMeasure' :=
                        Osmd.mkMeasure
                          (replaceAt (Osmd.staffEntries graphicalMeasure)
                             (Z.to_nat (noteNumber - 1)) staffEntry') in
                      let staves' :=
                        replaceAt staves (Z.to_nat (staff - 1)) graphicalMeasure' in
                      Returned
                        (replaceAt measureList
                           (match pred1 measure with Num z => Z.to_nat z | NaN => O end)
                           staves')
                  end
              end
          end
      end
  end.

(** [colorsList[(occurenceNumber - 1) % colorsList.length]]: the remainder has
    the sign of the dividend, and is [NaN] for an empty list. *)
Definition pickColor (colorsList : list string) (occurenceNumber : Z) : option string :=
  let length := Z.of_nat (List.length colorsList) in
  if length =? 0 then None
  else
    let index := Z.rem (occurenceNumber - 1) length in
    if index <? 0 then None else nth_error colorsList (Z.to_nat index).

(** The [color] parameter defaults to ["#777"] when the list gives
    [undefined]. *)
Definition colorOrDefault (color : option string) : string :=
  match color with
  | Some c => c
  | None => "#777"%string
  end.

(** A [forEach] that a throw interrupts, on the measure list. *)
Fixpoint colorEach {A : Type} (body : A -> Osmd.MeasureList -> Completion Osmd.MeasureList)
    (xs : list A) (measureList : Osmd.MeasureList) : Completion Osmd.MeasureList :=
  match xs with
  | [] => Returned measureList
  | x :: xs' =>
      match body x measureList with
      | Returned measureList' => colorEach body xs' measureList'
      | Threw e => Threw e
      end
  end.

Definition colorOsmdPatternOccurrences (patternOccurrences : list PatternOccurrence.t)
    (colorsList : list string) (measureList : Osmd.MeasureList)
  : Completion Osmd.MeasureList :=
  colorEach
    (fun patternOccurrence =>
       colorEach
         (fun noteOccurrence =>
            colorOsmdNote
              (NoteOccurrence.measure noteOccurrence)
              (NoteOccurrence.staff noteOccurrence)
              (NoteOccurrence.measureNoteNumber noteOccurrence)
              (Note.staffVoice (NoteOccurrence.note noteOccurrence))
              (colorOrDefault
                 (pickColor colorsList
                    (PatternOccurrence.occurenceNumber patternOccurrence))))
         (PatternOccurrence.notes patternOccurrence))
    patternOccurrences measureList.

(** The list of Material Design colours. *)
Definition colors : list string :=
  ["#F44336"; "#E91E63"; "#9C27B0"; "#673AB7"; "#3F51B5"; "#2196F3"; "#03A9F4";
   "#00BCD4"; "#009688"; "#4CAF50"; "#8BC34A"; "#CDDC39"; "#FFEB3B"; "#FFC107";
   "#FF9800"; "#FF5722"]%string.

(** The notehead colour at a place of the measure list: measure row [m],
    staff [s], staff entry [e], voice entry [v], note [k]. *)
Definition colorAt (measureList : Osmd.MeasureList) (m s e v k : Z)
  : option (option string) :=
  match entryAt measureList (Num m) with
  | None => None
  | Some staves =>
      match entryAt staves (Num s) with
      | None => None
      | Some graphicalMeasure =>
          match entryAt (Osmd.staffEntries graphicalMeasure) (Num e) with
          | None => None
          | Some staffEntry =>
              match entryAt (Osmd.graphicalVoiceEntries staffEntry) (Num v) with
              | None => None
              | Some voiceEntry =>
                  option_map Osmd.noteheadColor (entryAt (Osmd.notes voiceEntry) (Num k))
              end
          end
      end
  end.

(** A rendered measure with one staff entry of two voices, each of one note,
    and a second staff entry of one voice. *)
Definition renderedMeasure : Osmd.MeasureList :=
  [Some
     [Some
        (Osmd.mkMeasure
           [Some (Osmd.mkStaffEntry
                    [Some (Osmd.mkVoiceEntry [Some (Osmd.mkNote None)]);
                     Some (Osmd.mkVoiceEntry [Some (Osmd.mkNote None)])]);
            Some (Osmd.mkStaffEntry
                    [Some (Osmd.mkVoiceEntry [Some (Osmd.mkNote None)])])])]].

(** The voice entries of the staff entry at measure row [m], staff [s],
    staff entry [e]. *)
Definition voiceEntriesAt (measureList : Osmd.MeasureList) (m s e : Z)
  : option (list (option Osmd.GraphicalVoiceEntry)) :=
  match entryAt measureList (Num m) with
  | None => None
  | Some staves =>
      match entryAt staves (Num s) with
      | None => None
      | Some graphicalMeasure =>
          option_map Osmd.graphicalVoiceEntries
            (entryAt (Osmd.staffEntries graphicalMeasure) (Num e))
      end
  end.

(** The notes C, D, E, F, C, D, E, G, none with a voice element. *)
Definition scoreVoicelessNear : Ref :=
  onePart [noteOf [pitchOf "C" None]; noteOf [pitchOf "D" None]; noteOf [pitchOf "E" None];
           noteOf [pitchOf "F" None]; noteOf [pitchOf "C" None]; noteOf [pitchOf "D" None];
           noteOf [pitchOf "E" None]; noteOf [pitchOf "G" None]].

(** ** findNotes

    The snapshot of [src/index.js] that searches with [findNotes]: its notes
    have no staff or voice, [getNote] keeps no table, and an occurrence is a
    list of note occurrences that name the part and the measure. *)

Module FindNotes.
Record Note : Type := mkNote {
  step : option string;
  octave : option JsNumber;
  alter : option JsNumber
}.

Record NoteOccurrence : Type := mkOccurrence {
  part : option string;
  measure : JsNumber;
  note : Note
}.

Definition getNote (noteElement : Ref) : Completion Note :=
  match getUniqueElement (getElementsByTagName noteElement "pitch") with
  | None => Threw TypeError
  | Some pitch =>
      Returned
        (mkNote
           (getUniqueString (getElementsByTagName pitch "step"))
           (getUniqueInteger (getElementsByTagName pitch "octave"))
           (getUniqueInteger (getElementsByTagName pitch "alter")))
  end.

Definition noteIsEqual (note1 note2 : Note) : bool :=
  strEq (step note1) (step note2) && strictEq (alter note1) (alter note2).

(** The callback of [pattern.reduce], applied from [patternIndex] on;
    [pattern] is what is left of the pattern. *)
Fixpoint reduce (partElement noteElement : Ref) (notes : list Ref) (noteIndex : nat)
    (pattern : list Note) (patternIndex : nat) (accumulator : list NoteOccurrence)
  : Completion (list NoteOccurrence) :=
  match pattern with
  | [] => Returned accumulator
  | patternNote :: pattern' =>
      let continue :=
        reduce partElement noteElement notes noteIndex pattern' (S patternIndex) in
      match nth_error notes (noteIndex + patternIndex) with
      | None => continue accumulator
      | Some noteRef =>
          match getNote noteRef with
          | Threw e => Threw e
          | Returned note =>
              if noteIsEqual note patternNote
              then
                match parentElement noteElement with
                | None => Threw TypeError
                | Some parent =>
                    continue
                      (accumulator
                       ++ [mkOccurrence (getAttribute partElement "id")
                             (parseIntAttribute parent "number") note])
                end
              else continue accumulator
          end
      end
  end.

(** A loop that a throw interrupts. *)
Fixpoint each {A S : Type} (body : A -> S -> Completion S) (xs : list A) (s : S)
  : Completion S :=
  match xs with
  | [] => Returned s
  | x :: xs' =>
      match body x s with
      | Returned s' => each body xs' s'
      | Threw e => Threw e
      end
  end.

(** The elements of an array with their indices, as [forEach] passes them. *)
Definition withIndex {A : Type} (l : list A) : list (A * nat) :=
  combine l (seq 0 (List.length l)).

(** The callback of the [forEach] over the non-rest notes of a part. *)
Definition window (partElement : Ref) (notes : list Ref) (pattern : list Note)
    (entry : Ref * nat) (occurrences : list (list NoteOccurrence))
  : Completion (list (list NoteOccurrence)) :=
  match reduce partElement (fst entry) notes (snd entry) pattern 0 [] with
  | Threw e => Threw e
  | Returned patternOccurrence =>
      if (List.length patternOccurrence =? List.length pattern)%nat
      then Returned (occurrences ++ [patternOccurrence])
      else Returned occurrences
  end.

(** The body of [for (const part of parts)]. *)
Definition searchPart (pattern : list Note) (partElement : Ref)
    (occurrences : list (list NoteOccurrence)) : Completion (list (list NoteOccurrence)) :=
  let notes := getElementsByTagName partElement "note" in
  each (window partElement notes pattern)
    (withIndex
       (filter (fun noteElement =>
                  (List.length (getElementsByTagName noteElement "rest") =? 0)%nat)
          notes))
    occurrences.

Definition findNotes (xml : Ref) (pattern : list Note) : Completion (list (list NoteOccurrence)) :=
  each (searchPart pattern) (getElementsByTagName xml "part") [].

(** How [reduce] can extend an occurrence: each pattern entry passes without
    a note or takes one that is equal to it. *)
Inductive Matched : list Note -> list NoteOccurrence -> Prop :=
| Matched_nil : Matched [] []
| Matched_skip : forall p ps os, Matched ps os -> Matched (p :: ps) os
| Matched_take : forall p ps o os,
    noteIsEqual (note o) p = true -> Matched ps os -> Matched (p :: ps) (o :: os).

(** The note element has exactly one [pitch]. *)
Definition pitched (r : Ref) : Prop :=
  exists pitch, getElementsByTagName r "pitch" = [pitch].

Definition pat (step : string) (alter : option Z) : Note :=
  mkNote (Some step) None (option_map Num alter).
End FindNotes.

(** A rest of voice 1, a C of voice 2, then A and B of voice 1, in one
    measure; the B as [findPattern] reports it for the pattern A, B. *)
Definition scoreVoices : Ref :=
  onePart [restOf [text "voice" "1"]; voiced "C" None "2";
           voiced "A" None "1"; voiced "B" None "1"].



(** The A of [scoreVoices], its third note element, and the document
    element of [scoreVoices]. *)
Definition thirdNote : Ref :=
  Eval vm_compute in
    match nth_error (getElementsByTagName scoreVoices "note") 2 with
    | Some r => r
    | None => scoreVoices
    end.

Definition documentElement : Ref :=
  Eval vm_compute in
    match nth_error (getElementsByTagName scoreVoices "score-partwise") 0 with
    | Some r => r
    | None => scoreVoices
    end.

(** ** Notions the proofs are organised with *)

(** The update of [staffVoicesNumbers] that [getNote] makes before it
    sorts: the voice of the note is pushed under the key of its staff, or a
    new array is stored there. *)
Definition registered (noteElement : Ref) (staffVoicesNumbers : Table) : Table :=
  let staff := getUniqueInteger (getElementsByTagName noteElement "staff") in
  let voice := getUniqueInteger (getElementsByTagName noteElement "voice") in
  match arrGet staffVoicesNumbers (minus1 staff) with
  | Some staffVoiceNumbers =>
      if (0 <? Z.of_nat (List.length staffVoiceNumbers))
         && (indexOf strictEq voice staffVoiceNumbers =? -1)
      then arrSet staffVoicesNumbers (minus1 staff) (staffVoiceNumbers ++ [voice])
      else staffVoicesNumbers
  | None => arrSet staffVoicesNumbers (minus1 staff) [voice]
  end.

(** The key under which [getNote] files the voices of the staff of a note,
    and the voice it files. *)
Definition staffKey (noteElement : Ref) : JsNumber :=
  minus1 (getUniqueInteger (getElementsByTagName noteElement "staff")).

Definition voiceOf (noteElement : Ref) : option JsNumber :=
  getUniqueInteger (getElementsByTagName noteElement "voice").

Definition isIndexKey (k : JsNumber) : bool :=
  match k with
  | Num z => isArrayIndex z
  | NaN => false
  end.


(** The children walk of [descendants], from child index [i] on. *)
Fixpoint walkFrom (self : Ref) (i : nat) (ks : list Element) : list Ref :=
  match ks with
  | [] => []
  | k :: ks' =>
      let r := MkRef (i :: path self) k (asParentElement self) in
      r :: descendants r k ++ walkFrom self (S i) ks'
  end.

(** Every value stored in an array, under an index or not. *)
Definition arrAll {A : Type} (P : A -> Prop) (a : JsArray A) : Prop :=
  Forall P (filled (slots a)) /\ Forall P (map snd (props a)).

(** [occ] is what some window of the lanes [lanes] pushes, into the exact
    array ([exact = true]) or the approximate one, when [staffCount] is [c]. *)
Definition Emitted (exact : bool) (pattern : list Note.t) (c : Z)
    (lanes : list (list Ref)) (occ : PatternOccurrence.t) : Prop :=
  (exists lane i t t',
      In lane lanes
      /\ align c lane i pattern 0 [] t = (Returned (PatternOccurrence.notes occ), t'))
  /\ PatternOccurrence.matchingCount occ
     = matchingCountOf pattern (PatternOccurrence.notes occ)
  /\ if exact
     then patternLength pattern - PatternOccurrence.matchingCount occ = 0
     else patternLength pattern - PatternOccurrence.matchingCount occ <> 0
          /\ ratioAbove (PatternOccurrence.matchingCount occ) pattern = true.

(** [s'] is [s] with occurrences appended, each satisfying [QE] or [QA]. *)
Definition Grows (QE QA : PatternOccurrence.t -> Prop) (s s' : Scan.t) : Prop :=
  Scan.staffCount s' = Scan.staffCount s
  /\ exists ne na,
      Scan.exactPatternOccurrences s' = Scan.exactPatternOccurrences s ++ ne
      /\ Scan.approximatePatternOccurrences s' = Scan.approximatePatternOccurrences s ++ na
      /\ Forall QE ne /\ Forall QA na.

(** Where an accumulated note comes from: a non-rest element of the lane,
    read by [getNote] and wrapped by [noteOccurrence]. *)
Definition Sourced (c : Z) (lane : list Ref) (n : NoteOccurrence.t) : Prop :=
  exists r nt t1 t2,
    In r lane /\ isNotRest r = true
    /\ getNote r t1 = (Returned nt, t2)
    /\ noteOccurrence c r nt = Returned n.

(** Induction on elements, the induction hypothesis given for every child. *)
Section ElementInduction.
Variable P : Element -> Prop.
Hypothesis step : forall t a h kids, Forall P kids -> P (Elem t a h kids).

Fixpoint Element_nested_ind (e : Element) : P e :=
  match e with
  | Elem t a h kids =>
      step t a h kids
        ((fix all (ks : list Element) : Forall P ks :=
            match ks with
            | [] => Forall_nil P
            | k :: ks' => Forall_cons k (Element_nested_ind k) (all ks')
            end) kids)
  end.
End ElementInduction.

(** A descendant knows its parent, and is among its parent's descendants. *)
Definition Parented (r : Ref) : Prop :=
  exists parent, parentElement r = Some parent /\ In r (descendants parent (node parent)).

(** The two notes of [scoreVoiceOrder]. *)
Definition voiceTwoNote : Ref :=
  Eval vm_compute in
    match nth_error (getElementsByTagName scoreVoiceOrder "note") 0 with
    | Some r => r
    | None => scoreVoiceOrder
    end.

Definition voiceOneNote : Ref :=
  Eval vm_compute in
    match nth_error (getElementsByTagName scoreVoiceOrder "note") 1 with
    | Some r => r
    | None => scoreVoiceOrder
    end.

(** Numbers ascend along a list of voices. *)
Definition ascends (u v : option JsNumber) : Prop :=
  forall a b, u = Some (Num a) -> v = Some (Num b) -> a <= b.

(** The pattern [processXML] searches: B flat, A, C, B. *)
Definition processPattern : list Note.t :=
  [pat "B" (Some (-1)); pat "A" None; pat "C" None; pat "B" None].

(** The occurrences of a result array carry the numbers 1, 2, ... in order. *)
Definition numbered (occurrences : list PatternOccurrence.t) : Prop :=
  map PatternOccurrence.occurenceNumber occurrences
  = map Z.of_nat (seq 1 (List.length occurrences)).

(** The two counters of a scan agree with the two arrays. *)
Definition Counted (s : Scan.t) : Prop :=
  Scan.exactPatternOccurrenceCount s
  = Z.of_nat (List.length (Scan.exactPatternOccurrences s))
  /\ numbered (Scan.exactPatternOccurrences s)
  /\ Scan.approximatePatternOccurrenceCount s
     = Z.of_nat (List.length (Scan.approximatePatternOccurrences s))
  /\ numbered (Scan.approximatePatternOccurrences s).

(** Every voice filed in [t] is filed, under the same key, in [t']. *)
Definition TableGrows (t t' : Table) : Prop :=
  forall k l v, arrGet t k = Some l -> In v l ->
    exists l', arrGet t' k = Some l' /\ In v l'.

(** A computation that only adds to the table, whatever its completion. *)
Definition Keeps {A : Type} (m : M A) : Prop := forall t, TableGrows t (snd (m t)).

(** The first part of [scoreTwoParts], which declares two staves. *)
Definition twoStavesPart : Ref :=
  Eval vm_compute in
    match nth_error (getElementsByTagName scoreTwoParts "part") 0 with
    | Some r => r
    | None => scoreTwoParts
    end.

(** B flat, A, C, B, the pattern of [processXML], as notes of a score. *)
Definition scoreBach : Ref :=
  onePart [voiced "B" (Some (-1)) "1"; voiced "A" None "1"; voiced "C" None "1";
           voiced "B" None "1"].

Definition foundBach : Found.t := Eval vm_compute in runOf scoreBach processPattern.

(** B flat, A, C, B as a pattern of [findNotes], and what it finds in
    [scoreBach]. *)
Definition notesPatternBach : list FindNotes.Note :=
  [FindNotes.pat "B" (Some (-1)); FindNotes.pat "A" None; FindNotes.pat "C" None;
   FindNotes.pat "B" None].

Definition notesBach : list (list FindNotes.NoteOccurrence) :=
  Eval vm_compute in
    match FindNotes.findNotes scoreBach notesPatternBach with
    | Returned occurrences => occurrences
    | Threw _ => []
    end.

(** * Lemmas on the embedding *)

(** ** The monad and [forEach] *)

Lemma bind_returned {A B : Type} (m : M A) (f : A -> M B) t b t' :
  bind m f t = (Returned b, t') ->
  exists a t1, m t = (Returned a, t1) /\ f a t1 = (Returned b, t').
Proof.
  unfold bind. destruct (m t) as [[a | e] t1]; intros H.
  - exists a, t1. split; [reflexivity | exact H].
  - discriminate H.
Qed.

Lemma forEach_rel {A S : Type} (R : S -> S -> Prop) (body : A -> S -> M S) :
  (forall s, R s s) ->
  (forall a b c, R a b -> R b c -> R a c) ->
  forall xs,
    (forall x s t s' t', In x xs -> body x s t = (Returned s', t') -> R s s') ->
    forall s t s' t', forEach body xs s t = (Returned s', t') -> R s s'.
Proof.
  intros Hrefl Htrans xs. induction xs as [| x xs IH]; intros Hbody s t s' t' H.
  - simpl in H. unfold ret in H. inversion H; subst. apply Hrefl.
  - simpl in H. apply bind_returned in H. destruct H as (s1 & t1 & H1 & H2).
    apply Htrans with s1.
    + eapply Hbody; [left; reflexivity | exact H1].
    + eapply IH; [| exact H2]. intros y u v u' v' Hy. apply Hbody. right. exact Hy.
Qed.

Lemma forEach_returns {A S : Type} (body : A -> S -> M S) xs :
  (forall x s t, In x xs -> exists s' t', body x s t = (Returned s', t')) ->
  forall s t, exists s' t', forEach body xs s t = (Returned s', t').
Proof.
  induction xs as [| x xs IH]; intros Hbody s t.
  - exists s, t. reflexivity.
  - destruct (Hbody x s t (or_introl eq_refl)) as (s1 & t1 & H1).
    destruct (IH (fun y u v Hy => Hbody y u v (or_intror Hy)) s1 t1) as (s2 & t2 & H2).
    exists s2, t2. simpl. unfold bind. rewrite H1. exact H2.
Qed.

Lemma Grows_refl QE QA s : Grows QE QA s s.
Proof.
  split; [reflexivity |]. exists [], []. rewrite !app_nil_r. repeat split; constructor.
Qed.

Lemma Grows_trans QE QA a b c : Grows QE QA a b -> Grows QE QA b c -> Grows QE QA a c.
Proof.
  intros (Hc1 & ne1 & na1 & He1 & Ha1 & Fe1 & Fa1) (Hc2 & ne2 & na2 & He2 & Ha2 & Fe2 & Fa2).
  split; [congruence |]. exists (ne1 ++ ne2), (na1 ++ na2).
  rewrite He2, He1, Ha2, Ha1, !app_assoc.
  repeat split; apply Forall_app; split; assumption.
Qed.

Lemma Grows_weaken (QE QA QE' QA' : PatternOccurrence.t -> Prop) s s' :
  (forall o, QE o -> QE' o) -> (forall o, QA o -> QA' o) ->
  Grows QE QA s s' -> Grows QE' QA' s s'.
Proof.
  intros HE HA (Hc & ne & na & He & Ha & Fe & Fa).
  split; [exact Hc |]. exists ne, na. repeat split; try assumption.
  - eapply Forall_impl; [exact HE | exact Fe].
  - eapply Forall_impl; [exact HA | exact Fa].
Qed.

Lemma Emitted_lanes exact pattern c lanes lanes' occ :
  incl lanes lanes' -> Emitted exact pattern c lanes occ -> Emitted exact pattern c lanes' occ.
Proof.
  intros Hincl ((lane & i & t & t' & Hin & Hal) & Hrest).
  split; [| exact Hrest]. exists lane, i, t, t'. split; [apply Hincl; exact Hin | exact Hal].
Qed.

(** ** From a window to the whole scan *)

Lemma classify_grows pattern c lane i t t' po s :
  Scan.staffCount s = c ->
  align c lane i pattern 0 [] t = (Returned po, t') ->
  Grows (Emitted true pattern c [lane]) (Emitted false pattern c [lane]) s (classify pattern po s).
Proof.
  intros Hc Hal. unfold classify.
  set (mc := matchingCountOf pattern po).
  destruct (patternLength pattern - mc =? 0) eqn:Hex.
  - split; [reflexivity |]. simpl.
    exists [PatternOccurrence.mk po mc (Scan.exactPatternOccurrenceCount s + 1)], [].
    rewrite app_nil_r. repeat split; try constructor; try constructor.
    + exists lane, i, t, t'. split; [left; reflexivity | exact Hal].
    + simpl. split; [reflexivity | apply Z.eqb_eq; exact Hex].
  - destruct (ratioAbove mc pattern) eqn:Hr.
    + split; [reflexivity |]. simpl.
      exists [], [PatternOccurrence.mk po mc (Scan.approximatePatternOccurrenceCount s + 1)].
      rewrite app_nil_r. repeat split; try constructor; try constructor.
      * exists lane, i, t, t'. split; [left; reflexivity | exact Hal].
      * simpl. split; [reflexivity |]. split; [apply Z.eqb_neq; exact Hex | exact Hr].
    + apply Grows_refl.
Qed.

Lemma window_grows pattern lane i s t s' t' :
  window pattern lane i s t = (Returned s', t') ->
  Grows (Emitted true pattern (Scan.staffCount s) [lane])
        (Emitted false pattern (Scan.staffCount s) [lane]) s s'.
Proof.
  unfold window. intros H. apply bind_returned in H. destruct H as (po & t1 & Hal & Hret).
  unfold ret in Hret. inversion Hret; subst.
  eapply classify_grows; [reflexivity | exact Hal].
Qed.

Lemma scanLane_grows pattern lane s t s' t' :
  scanLane pattern lane s t = (Returned s', t') ->
  Grows (Emitted true pattern (Scan.staffCount s) [lane])
        (Emitted false pattern (Scan.staffCount s) [lane]) s s'.
Proof.
  unfold scanLane. intros H.
  pose (R := fun a b : Scan.t =>
    Grows (Emitted true pattern (Scan.staffCount a) [lane])
          (Emitted false pattern (Scan.staffCount a) [lane]) a b).
  change (R s s').
  eapply (forEach_rel R); [| | | exact H].
  - intros a. apply Grows_refl.
  - intros a b c Hab Hbc. unfold R in *.
    assert (Hc : Scan.staffCount b = Scan.staffCount a) by apply Hab.
    rewrite Hc in Hbc. eapply Grows_trans; eassumption.
  - intros x a u a' u' _ Hw. apply window_grows in Hw. exact Hw.
Qed.

Lemma scanLanes_grows pattern lanes s t s' t' :
  forEach (scanLane pattern) lanes s t = (Returned s', t') ->
  Grows (Emitted true pattern (Scan.staffCount s) lanes)
        (Emitted false pattern (Scan.staffCount s) lanes) s s'.
Proof.
  intros H.
  pose (R := fun a b : Scan.t =>
    Grows (Emitted true pattern (Scan.staffCount a) lanes)
          (Emitted false pattern (Scan.staffCount a) lanes) a b).
  change (R s s').
  eapply (forEach_rel R); [| | | exact H].
  - intros a. apply Grows_refl.
  - intros a b c Hab Hbc. unfold R in *.
    assert (Hc : Scan.staffCount b = Scan.staffCount a) by apply Hab.
    rewrite Hc in Hbc. eapply Grows_trans; eassumption.
  - intros lane a u a' u' Hin Hw. apply scanLane_grows in Hw. unfold R.
    eapply Grows_weaken; [| | exact Hw]; intros o; apply Emitted_lanes;
      intros l [<- | []]; exact Hin.
Qed.

Lemma scanStaves_grows pattern staves s t s' t' :
  forEach (scanStaff pattern) staves s t = (Returned s', t') ->
  Grows (Emitted true pattern (Scan.staffCount s) (flat_map arrValues staves))
        (Emitted false pattern (Scan.staffCount s) (flat_map arrValues staves)) s s'.
Proof.
  intros H.
  pose (R := fun a b : Scan.t =>
    Grows (Emitted true pattern (Scan.staffCount a) (flat_map arrValues staves))
          (Emitted false pattern (Scan.staffCount a) (flat_map arrValues staves)) a b).
  change (R s s').
  eapply (forEach_rel R); [| | | exact H].
  - intros a. apply Grows_refl.
  - intros a b c Hab Hbc. unfold R in *.
    assert (Hc : Scan.staffCount b = Scan.staffCount a) by apply Hab.
    rewrite Hc in Hbc. eapply Grows_trans; eassumption.
  - intros staff a u a' u' Hin Hw. unfold scanStaff in Hw.
    apply scanLanes_grows in Hw. unfold R.
    eapply Grows_weaken; [| | exact Hw]; intros o; apply Emitted_lanes;
      intros l Hl; apply in_flat_map; exists staff; split; assumption.
Qed.

(** What scanning one part appends. *)
Lemma scanPart_grows pattern partElement s t s' t' :
  scanPart pattern partElement s t = (Returned s', t') ->
  Scan.staffCount s' = Scan.staffCount s + 1
  /\ exists ne na,
      Scan.exactPatternOccurrences s' = Scan.exactPatternOccurrences s ++ ne
      /\ Scan.approximatePatternOccurrences s' = Scan.approximatePatternOccurrences s ++ na
      /\ Forall (Emitted true pattern (Scan.staffCount s + 1) (scannedLanes partElement)) ne
      /\ Forall (Emitted false pattern (Scan.staffCount s + 1) (scannedLanes partElement)) na.
Proof.
  unfold scanPart. intros H. apply scanStaves_grows in H.
  destruct H as (Hc & ne & na & He & Ha & Fe & Fa). simpl in *.
  split; [exact Hc |]. exists ne, na. repeat split; assumption.
Qed.

(** What scanning a list of parts appends: every new occurrence comes from
    the part at some index [p], scanned with [staffCount] advanced [p + 1]
    times. *)
Lemma scanParts_grows pattern parts :
  forall s t s' t',
    forEach (scanPart pattern) parts s t = (Returned s', t') ->
    exists ne na,
      Scan.exactPatternOccurrences s' = Scan.exactPatternOccurrences s ++ ne
      /\ Scan.approximatePatternOccurrences s' = Scan.approximatePatternOccurrences s ++ na
      /\ (forall occ, In occ ne -> exists p partElement,
             nth_error parts p = Some partElement
             /\ Emitted true pattern (Scan.staffCount s + Z.of_nat p + 1)
                  (scannedLanes partElement) occ)
      /\ (forall occ, In occ na -> exists p partElement,
             nth_error parts p = Some partElement
             /\ Emitted false pattern (Scan.staffCount s + Z.of_nat p + 1)
                  (scannedLanes partElement) occ).
Proof.
  induction parts as [| part parts IH]; intros s t s' t' H.
  - simpl in H. unfold ret in H. inversion H; subst.
    exists [], []. rewrite !app_nil_r. repeat split; intros occ [].
  - simpl in H. apply bind_returned in H. destruct H as (s1 & t1 & H1 & H2).
    apply scanPart_grows in H1. destruct H1 as (Hc & ne1 & na1 & He1 & Ha1 & Fe1 & Fa1).
    apply IH in H2. destruct H2 as (ne2 & na2 & He2 & Ha2 & Fe2 & Fa2).
    exists (ne1 ++ ne2), (na1 ++ na2). rewrite He2, He1, Ha2, Ha1, !app_assoc.
    repeat split.
    + intros occ Hin. apply in_app_or in Hin. destruct Hin as [Hin | Hin].
      * exists 0%nat, part. split; [reflexivity |].
        rewrite Forall_forall in Fe1. specialize (Fe1 occ Hin).
        replace (Scan.staffCount s + Z.of_nat 0 + 1) with (Scan.staffCount s + 1) by lia.
        exact Fe1.
      * destruct (Fe2 occ Hin) as (p & pe & Hp & Hem). exists (S p), pe.
        split; [exact Hp |].
        replace (Scan.staffCount s + Z.of_nat (S p) + 1)
          with (Scan.staffCount s1 + Z.of_nat p + 1) by lia.
        exact Hem.
    + intros occ Hin. apply in_app_or in Hin. destruct Hin as [Hin | Hin].
      * exists 0%nat, part. split; [reflexivity |].
        rewrite Forall_forall in Fa1. specialize (Fa1 occ Hin).
        replace (Scan.staffCount s + Z.of_nat 0 + 1) with (Scan.staffCount s + 1) by lia.
        exact Fa1.
      * destruct (Fa2 occ Hin) as (p & pe & Hp & Hem). exists (S p), pe.
        split; [exact Hp |].
        replace (Scan.staffCount s + Z.of_nat (S p) + 1)
          with (Scan.staffCount s1 + Z.of_nat p + 1) by lia.
        exact Hem.
Qed.

(** Every occurrence [findPattern] returns was pushed by a window of a
    lane of some part. *)
Lemma findPattern_emitted xml pattern t found t' :
  findPattern xml pattern t = (Returned found, t') ->
  (forall occ, In occ (Found.exactPatternOccurrences found) ->
     exists p partElement,
       nth_error (getElementsByTagName xml "part") p = Some partElement
       /\ Emitted true pattern (Z.of_nat p + 1) (scannedLanes partElement) occ)
  /\ (forall occ, In occ (Found.approximatePatternOccurrences found) ->
     exists p partElement,
       nth_error (getElementsByTagName xml "part") p = Some partElement
       /\ Emitted false pattern (Z.of_nat p + 1) (scannedLanes partElement) occ).
Proof.
  unfold findPattern. intros H. apply bind_returned in H.
  destruct H as (s & t1 & Hscan & Hret). unfold ret in Hret. inversion Hret; subst. simpl.
  apply scanParts_grows in Hscan. destruct Hscan as (ne & na & He & Ha & Fe & Fa).
  simpl in He, Ha. rewrite He, Ha. split; assumption.
Qed.

(** ** The window loop *)

Lemma lastElement_snoc {A : Type} (l : list A) (x : A) : lastElement (l ++ [x]) = Some x.
Proof.
  induction l as [| y l IH]; [reflexivity |].
  simpl. rewrite IH. destruct (l ++ [x]) eqn:E; [| reflexivity].
  destruct l; discriminate E.
Qed.

Lemma align_spec c lane i :
  forall pattern j acc t acc' t',
    align c lane i pattern j acc t = (Returned acc', t') ->
    exists new,
      acc' = acc ++ new
      /\ Aligned (option_map NoteOccurrence.note (lastElement acc)) pattern new
      /\ Forall (Sourced c lane) new.
Proof.
  induction pattern as [| p pattern IH]; intros j acc t acc' t' H.
  - simpl in H. unfold ret in H. inversion H; subst.
    exists []. rewrite app_nil_r. repeat split; constructor.
  - simpl in H.
    assert (Hskip : forall u,
      align c lane i pattern (S j) acc u = (Returned acc', t') ->
      exists new,
        acc' = acc ++ new
        /\ Aligned (option_map NoteOccurrence.note (lastElement acc)) (p :: pattern) new
        /\ Forall (Sourced c lane) new).
    { intros u Hu. apply IH in Hu. destruct Hu as (new & He & Hal & Hs).
      exists new. repeat split; [exact He | apply Aligned_skip; exact Hal | exact Hs]. }
    destruct (nth_error lane (i + j)) as [r |] eqn:Hnth; [| apply (Hskip t); exact H].
    destruct (isNotRest r) eqn:Hrest; simpl in H; [| apply (Hskip t); exact H].
    apply bind_returned in H. destruct H as (nt & t1 & Hget & H).
    destruct (accepts nt p (option_map NoteOccurrence.note (lastElement acc))) eqn:Hacc;
      [| apply (Hskip t1); exact H].
    apply bind_returned in H. destruct H as (occ & t2 & Hocc & H).
    unfold lift in Hocc. inversion Hocc; subst t2. clear Hocc. rename H1 into Hocc.
    apply IH in H. destruct H as (new & He & Hal & Hs).
    rewrite lastElement_snoc in Hal. simpl in Hal.
    assert (Hnote : NoteOccurrence.note occ = nt).
    { unfold noteOccurrence in Hocc. destruct (parentElement r); [| discriminate].
      destruct (getElementIndex r "note" "voice" (Note.voice nt)); [| discriminate].
      inversion Hocc. reflexivity. }
    exists (occ :: new). repeat split.
    + rewrite He, <- app_assoc. reflexivity.
    + apply Aligned_take; [rewrite Hnote; exact Hacc | exact Hal].
    + constructor; [| exact Hs].
      exists r, nt, t, t1. repeat split; try assumption.
      eapply nth_error_In; exact Hnth.
Qed.

Lemma Aligned_length prev ps ns :
  Aligned prev ps ns -> (List.length ns <= List.length ps)%nat.
Proof. induction 1; simpl; lia. Qed.

Lemma noteIsEqual_key a b :
  noteIsEqual (Some a) (Some b) = true -> pitchKey a = pitchKey b.
Proof.
  unfold noteIsEqual, pitchKey. intros H. apply andb_true_iff in H. destruct H as [Hs Ha].
  f_equal.
  - destruct (Note.step a), (Note.step b); simpl in Hs; try discriminate; [| reflexivity].
    apply String.eqb_eq in Hs. congruence.
  - destruct (Note.alter a) as [[| x] |], (Note.alter b) as [[| y] |];
      simpl in Ha; try discriminate; [| reflexivity].
    apply Z.eqb_eq in Ha. congruence.
Qed.

(** A pitch that is equal to some pitch is equal to every pitch with its
    own step and alter: its alter is not [NaN]. *)
Lemma noteIsEqual_of_key a b c :
  noteIsEqual (Some a) (Some c) = true -> pitchKey a = pitchKey b ->
  noteIsEqual (Some a) (Some b) = true.
Proof.
  unfold noteIsEqual, pitchKey. intros H K. inversion K as [[Ks Ka]].
  apply andb_true_iff in H. destruct H as [_ Ha]. rewrite Ka in Ha. rewrite Ks, Ka.
  apply andb_true_iff. split.
  - destruct (Note.step b); simpl; [apply String.eqb_refl | reflexivity].
  - destruct (Note.alter b) as [[| y] |]; simpl; [| apply Z.eqb_refl | reflexivity].
    destruct (Note.alter c) as [[| z] |]; discriminate Ha.
Qed.

(** With as many notes as pattern entries and no pitch taken twice, every
    note was accepted for the pitch of its own pattern entry. *)
Lemma Aligned_positional prev ps ns :
  Aligned prev ps ns ->
  List.length ns = List.length ps ->
  (forall q, prev = Some q ->
     ~ In (pitchKey q) (map (fun n => pitchKey (NoteOccurrence.note n)) ns)) ->
  NoDup (map (fun n => pitchKey (NoteOccurrence.note n)) ns) ->
  Forall2 (fun n p => noteIsEqual (Some (NoteOccurrence.note n)) (Some p) = true) ns ps.
Proof.
  induction 1 as [prev | prev p ps ns Hal IH | prev p ps n ns Hacc Hal IH];
    intros Hlen Hprev Hnd.
  - constructor.
  - apply Aligned_length in Hal. simpl in Hlen. lia.
  - simpl in Hlen, Hnd. inversion Hnd as [| k ks Hnotin Hnd']; subst.
    constructor.
    + unfold accepts in Hacc. apply orb_true_iff in Hacc. destruct Hacc as [H1 | H2].
      * apply andb_true_iff in H1. apply H1.
      * exfalso. destruct prev as [q |]; [| discriminate H2].
        apply (Hprev q eq_refl). simpl. left. apply noteIsEqual_key. exact H2.
    + apply IH; [lia | | exact Hnd'].
      intros q Hq. inversion Hq; subst. exact Hnotin.
Qed.

(** ** The count *)

Lemma arrayIncludesCount_bounds {A B : Type} (array : list A) (target : list B) cb :
  0 <= arrayIncludesCount array target cb <= Z.of_nat (List.length target).
Proof.
  induction target as [| v target IH]; cbn [arrayIncludesCount List.length]; [lia |].
  destruct (existsb (fun s => cb v s) array); lia.
Qed.

Lemma arrayIncludesCount_full {A B : Type} (array : list A) (target : list B) cb :
  arrayIncludesCount array target cb = Z.of_nat (List.length target) ->
  forall v, In v target -> exists s, In s array /\ cb v s = true.
Proof.
  induction target as [| w target IH]; intros H v Hv; [destruct Hv |].
  cbn [arrayIncludesCount List.length] in H.
  destruct (existsb (fun s => cb w s) array) eqn:E.
  - destruct Hv as [<- | Hv].
    + apply existsb_exists in E. exact E.
    + apply IH; [| exact Hv]. lia.
  - lia.
Qed.

Lemma arrayIncludesCount_all {A B : Type} (array : list A) (target : list B) cb :
  (forall v, In v target -> exists s, In s array /\ cb v s = true) ->
  arrayIncludesCount array target cb = Z.of_nat (List.length target).
Proof.
  induction target as [| w target IH]; intros H; [reflexivity |].
  cbn [arrayIncludesCount List.length].
  assert (E : existsb (fun s => cb w s) array = true)
    by (apply existsb_exists; apply H; left; reflexivity).
  rewrite E, IH; [lia |]. intros v Hv. apply H. right. exact Hv.
Qed.

(** A covered pattern without equal pitches has distinct keys. *)
Lemma pairwiseDistinct_keys pattern :
  pairwiseDistinct pattern ->
  (forall p, In p pattern -> exists n : Note.t, pitchEq p n = true) ->
  NoDup (map pitchKey pattern).
Proof.
  unfold pairwiseDistinct. induction 1 as [| a l Ha Hl IH]; intros Hcov.
  - constructor.
  - simpl. constructor.
    + intros Hin. apply in_map_iff in Hin. destruct Hin as (b & Hk & Hb).
      rewrite Forall_forall in Ha. specialize (Ha b Hb).
      destruct (Hcov a (or_introl eq_refl)) as (n & Hn).
      unfold pitchEq in Hn.
      rewrite (noteIsEqual_of_key a b n Hn (eq_sym Hk)) in Ha. discriminate Ha.
    + apply IH. intros p Hp. apply Hcov. right. exact Hp.
Qed.

(** ** The document tree *)

Lemma descendants_walk self e : descendants self e = walkFrom self 0 (children e).
Proof.
  destruct e as [t a h kids]. simpl. generalize 0%nat.
  induction kids as [| k kids IH]; intros i; simpl; [reflexivity |].
  rewrite IH. reflexivity.
Qed.

Lemma walkFrom_app self pre ks i :
  walkFrom self i (pre ++ ks)
  = walkFrom self i pre ++ walkFrom self (i + List.length pre) ks.
Proof.
  revert i. induction pre as [| k pre IH]; intros i; simpl.
  - rewrite Nat.add_0_r. reflexivity.
  - rewrite IH, <- app_assoc. f_equal. f_equal. f_equal. f_equal. lia.
Qed.

Lemma asParentElement_element self : path self <> [] -> asParentElement self = Some self.
Proof. unfold asParentElement. destruct (path self); [contradiction | reflexivity]. Qed.

(** Below an element every node has a parent element. *)
Lemma walkFrom_parented ks :
  Forall (fun k => forall self, node self = k -> path self <> [] ->
                   forall r, In r (descendants self k) -> Parented r) ks ->
  forall self pre, children (node self) = pre ++ ks -> path self <> [] ->
  forall r, In r (walkFrom self (List.length pre) ks) -> Parented r.
Proof.
  induction 1 as [| k ks Hk Hks IH]; intros self pre Hch Hself r Hin; [destruct Hin |].
  simpl in Hin. destruct Hin as [Hr | Hin].
  - subst r. exists self. split; [apply asParentElement_element; exact Hself |].
    rewrite descendants_walk, Hch, walkFrom_app. apply in_or_app. right. simpl. left.
    reflexivity.
  - apply in_app_or in Hin. destruct Hin as [Hin | Hin].
    + eapply Hk; [| | exact Hin]; [reflexivity | discriminate].
    + apply (IH self (pre ++ [k])).
      * rewrite <- app_assoc. exact Hch.
      * exact Hself.
      * rewrite length_app. simpl. rewrite Nat.add_1_r. exact Hin.
Qed.

Lemma descendants_parented e :
  forall self, node self = e -> path self <> [] ->
  forall r, In r (descendants self e) -> Parented r.
Proof.
  induction e as [t a h kids IH] using Element_nested_ind. intros self Hnode Hself r Hin.
  rewrite descendants_walk in Hin. simpl in Hin.
  apply (walkFrom_parented kids IH self []);
    [rewrite Hnode; reflexivity | exact Hself | exact Hin].
Qed.

(** Below the [Document] the children have no parent element, and every
    other node has one. *)
Lemma walkFrom_parents self ks :
  path self = [] ->
  forall i r, In r (walkFrom self i ks) -> parentElement r = None \/ Parented r.
Proof.
  intros Hself. induction ks as [| k ks IH]; intros i r Hin; [destruct Hin |].
  simpl in Hin. destruct Hin as [Hr | Hin].
  - left. subst r. unfold asParentElement. simpl. rewrite Hself. reflexivity.
  - apply in_app_or in Hin. destruct Hin as [Hin | Hin].
    + right. eapply descendants_parented; [| | exact Hin]; [reflexivity | discriminate].
    + exact (IH (S i) r Hin).
Qed.

Lemma descendants_parents self r :
  In r (descendants self (node self)) -> parentElement r = None \/ Parented r.
Proof.
  intros Hin. destruct (path self) as [| j l] eqn:Hp.
  - rewrite descendants_walk in Hin. exact (walkFrom_parents self _ Hp _ r Hin).
  - right. eapply descendants_parented; [| | exact Hin]; [reflexivity | congruence].
Qed.

Lemma getElementsByTagName_parent x name r parent :
  In r (getElementsByTagName x name) ->
  parentElement r = Some parent ->
  In r (getElementsByTagName parent name).
Proof.
  unfold getElementsByTagName. intros Hin Hparent. apply filter_In in Hin.
  destruct Hin as [Hin Htag].
  destruct (descendants_parents x r Hin) as [Hnone | (parent' & Hp & Hd)]; [congruence |].
  rewrite Hparent in Hp. inversion Hp; subst parent'.
  apply filter_In. split; assumption.
Qed.

Lemma getElementsByTagName_parented x name r :
  path x <> [] ->
  In r (getElementsByTagName x name) ->
  exists parent, parentElement r = Some parent /\ In r (getElementsByTagName parent name).
Proof.
  unfold getElementsByTagName. intros Hx Hin. apply filter_In in Hin.
  destruct Hin as [Hin Htag].
  destruct (descendants_parented (node x) x eq_refl Hx r Hin) as (parent & Hp & Hd).
  exists parent. split; [exact Hp |]. apply filter_In. split; assumption.
Qed.


(** The path of a descendant extends the path of its ancestor. *)
Lemma walkFrom_paths ks :
  Forall (fun k => forall self r, In r (descendants self k) ->
                   exists l, l <> [] /\ path r = l ++ path self) ks ->
  forall self i r, In r (walkFrom self i ks) ->
  exists l j, path r = l ++ j :: path self /\ (i <= j)%nat.
Proof.
  induction 1 as [| k ks Hk Hks IH]; intros self i r Hin; [destruct Hin |].
  simpl in Hin. destruct Hin as [Hr | Hin].
  - subst r. exists [], i. simpl. split; [reflexivity | lia].
  - apply in_app_or in Hin. destruct Hin as [Hin | Hin].
    + destruct (Hk _ _ Hin) as (l & Hne & Hl). simpl in Hl.
      exists l, i. split; [exact Hl | lia].
    + destruct (IH self (S i) r Hin) as (l & j & Hl & Hj).
      exists l, j. split; [exact Hl | lia].
Qed.

Lemma descendants_paths e :
  forall self r, In r (descendants self e) -> exists l, l <> [] /\ path r = l ++ path self.
Proof.
  induction e as [t a h kids IH] using Element_nested_ind. intros self r Hin.
  rewrite descendants_walk in Hin. simpl in Hin.
  destruct (walkFrom_paths kids IH self 0%nat r Hin) as (l & j & Hl & _).
  exists (l ++ [j]). split.
  - intros E. apply app_eq_nil in E. destruct E as [_ E]. discriminate E.
  - rewrite Hl, <- app_assoc. reflexivity.
Qed.

(** What [getElementsByTagName] returns are elements: none is the
    [Document]. *)
Lemma getElementsByTagName_element x name r :
  In r (getElementsByTagName x name) -> path r <> [].
Proof.
  unfold getElementsByTagName. intros Hin. apply filter_In in Hin. destruct Hin as [Hin _].
  destruct (descendants_paths _ _ _ Hin) as (l & Hne & Hl). rewrite Hl.
  intros E. apply app_eq_nil in E. destruct E as [E _]. contradiction.
Qed.

Lemma path_tail_neq (l : list nat) (i j : nat) (P l' : list nat) :
  i <> j -> l ++ i :: P <> l' ++ j :: P.
Proof.
  intros Hij E.
  replace (l ++ i :: P) with ((l ++ [i]) ++ P) in E by (rewrite <- app_assoc; reflexivity).
  replace (l' ++ j :: P) with ((l' ++ [j]) ++ P) in E by (rewrite <- app_assoc; reflexivity).
  apply app_inv_tail in E. apply app_inj_tail in E. destruct E as [_ E]. contradiction.
Qed.

(** No two descendants share a path. *)
Lemma walkFrom_NoDup ks :
  Forall (fun k => forall self, NoDup (map path (descendants self k))) ks ->
  forall self i, NoDup (map path (walkFrom self i ks)).
Proof.
  induction 1 as [| k ks Hk Hks IH]; intros self i; simpl; [constructor |].
  assert (Hall : Forall (fun k => forall self r, In r (descendants self k) ->
                   exists l, l <> [] /\ path r = l ++ path self) ks).
  { apply Forall_forall. intros x _. apply descendants_paths. }
  constructor.
  - rewrite map_app. intros Hin. apply in_app_or in Hin. destruct Hin as [Hin | Hin];
      apply in_map_iff in Hin; destruct Hin as (r & Hp & Hr).
    + destruct (descendants_paths _ _ _ Hr) as (l & Hne & Hl). simpl in Hl.
      rewrite Hl in Hp.
      change (l ++ i :: path self = [] ++ i :: path self) in Hp.
      apply app_inv_tail in Hp. contradiction.
    + destruct (walkFrom_paths ks Hall self (S i) r Hr) as (l & j & Hl & Hj).
      rewrite Hl in Hp. change (l ++ j :: path self = [] ++ i :: path self) in Hp.
      revert Hp. apply path_tail_neq. lia.
  - rewrite map_app. apply NoDup_app; [apply Hk | apply IH |].
    intros p Hp1 Hp2.
    apply in_map_iff in Hp1. destruct Hp1 as (r1 & E1 & Hr1).
    apply in_map_iff in Hp2. destruct Hp2 as (r2 & E2 & Hr2).
    destruct (descendants_paths _ _ _ Hr1) as (l1 & _ & Hl1). simpl in Hl1.
    destruct (walkFrom_paths ks Hall self (S i) r2 Hr2) as (l2 & j & Hl2 & Hj).
    rewrite <- E2, Hl2, Hl1 in E1. revert E1. apply path_tail_neq. lia.
Qed.

Lemma descendants_NoDup e : forall self, NoDup (map path (descendants self e)).
Proof.
  induction e as [t a h kids IH] using Element_nested_ind. intros self.
  rewrite descendants_walk. simpl. apply walkFrom_NoDup. exact IH.
Qed.

Lemma NoDup_map_filter {A B : Type} (f : A -> B) (g : A -> bool) (l : list A) :
  NoDup (map f l) -> NoDup (map f (filter g l)).
Proof.
  induction l as [| x l IH]; simpl; intros H; [constructor |].
  inversion H as [| y ys Hnotin Hnd]; subst.
  destruct (g x); simpl; [constructor |]; auto.
  intros Hin. apply Hnotin. apply in_map_iff in Hin. destruct Hin as (z & Hz & Hin).
  apply in_map_iff. exists z. split; [exact Hz |]. apply filter_In in Hin. apply Hin.
Qed.

Lemma getElementsByTagName_NoDup x name : NoDup (map path (getElementsByTagName x name)).
Proof. unfold getElementsByTagName. apply NoDup_map_filter. apply descendants_NoDup. Qed.

(** ** Positions among siblings *)

Lemma sameElement_true a b : sameElement a b = true <-> path a = path b.
Proof.
  unfold sameElement. destruct (list_eq_dec Nat.eq_dec (path a) (path b)); split;
    intros H; try assumption; try reflexivity; try discriminate; contradiction.
Qed.

Lemma sameElement_false a b : sameElement a b = false <-> path a <> path b.
Proof.
  unfold sameElement. destruct (list_eq_dec Nat.eq_dec (path a) (path b)); split;
    intros H; try assumption; try reflexivity; try discriminate; contradiction.
Qed.

Lemma indexOfFrom_absent r l i :
  (forall x, In x l -> path x <> path r) ->
  indexOfFrom (fun sibling e => sameElement sibling e) r l i = -1.
Proof.
  revert i. induction l as [| x l IH]; intros i H; simpl; [reflexivity |].
  assert (E : sameElement x r = false)
    by (apply sameElement_false; apply H; left; reflexivity).
  rewrite E. apply IH. intros y Hy. apply H. right. exact Hy.
Qed.

(** In a list of distinct elements, the index of [r] among the elements
    that pass [f] is the number of those that come before [r], and [-1]
    when [r] itself does not pass. *)
Lemma indexOfFrom_filter f r l :
  NoDup (map path l) -> In r l ->
  forall i,
    indexOfFrom (fun sibling e => sameElement sibling e) r (filter f l) i
    = if f r then i + Z.of_nat (List.length (filter f (before r l))) else -1.
Proof.
  induction l as [| x l IH]; intros Hnd Hin i; [destruct Hin |].
  simpl in Hnd. inversion Hnd as [| p ps Hnotin Hnd']; subst.
  simpl before. destruct (sameElement x r) eqn:E.
  - apply sameElement_true in E.
    assert (Hx : x = r).
    { destruct Hin as [Hx | Hin]; [exact Hx |]. exfalso. apply Hnotin.
      rewrite E. apply in_map. exact Hin. }
    subst x. simpl filter. destruct (f r) eqn:Hf.
    + simpl. assert (Hrr : sameElement r r = true) by (apply sameElement_true; reflexivity).
      rewrite Hrr. lia.
    + apply indexOfFrom_absent. intros y Hy Hp. apply Hnotin. rewrite <- Hp.
      apply in_map. apply filter_In in Hy. apply Hy.
  - assert (Hin' : In r l).
    { destruct Hin as [Hx | Hin]; [| exact Hin]. subst x.
      apply sameElement_false in E. contradiction. }
    simpl filter. destruct (f x) eqn:Hfx.
    + simpl indexOfFrom. rewrite E. rewrite (IH Hnd' Hin' (i + 1)).
      destruct (f r); [| reflexivity]. cbn [List.length]. lia.
    + apply (IH Hnd' Hin' i).
Qed.

Lemma getElementIndex_spec r parent name filterTagName v :
  parentElement r = Some parent ->
  In r (getElementsByTagName parent name) ->
  getElementIndex r name filterTagName v
  = Returned
      (if siblingMatches filterTagName v r
       then Z.of_nat
              (List.length
                 (filter (siblingMatches filterTagName v)
                    (before r (getElementsByTagName parent name))))
       else -1).
Proof.
  intros Hp Hin. unfold getElementIndex, indexOf. rewrite Hp. f_equal.
  rewrite (indexOfFrom_filter _ r _ (getElementsByTagName_NoDup parent name) Hin 0).
  destruct (siblingMatches filterTagName v r); [lia | reflexivity].
Qed.

(** ** Arrays *)

Lemma keyEq_refl k : keyEq k k = true.
Proof. destruct k; simpl; [reflexivity | apply Z.eqb_refl]. Qed.

Lemma slotGet_slotSet {A : Type} n (v : A) l : slotGet n (slotSet n v l) = Some v.
Proof.
  unfold slotGet. revert l. induction n as [| n IH]; intros [| x l]; simpl;
    try reflexivity; apply IH.
Qed.

Lemma propGet_propSet {A : Type} k (v : A) l : propGet k (propSet k v l) = Some v.
Proof.
  induction l as [| [k' v'] l IH]; simpl.
  - rewrite keyEq_refl. reflexivity.
  - destruct (keyEq k k') eqn:E; simpl; [rewrite keyEq_refl; reflexivity |].
    rewrite E. exact IH.
Qed.

Lemma arrGet_arrSet {A : Type} (a : JsArray A) k v : arrGet (arrSet a k v) k = Some v.
Proof.
  unfold arrGet, arrSet. destruct k as [| z]; simpl; [apply propGet_propSet |].
  destruct (isArrayIndex z); simpl; [apply slotGet_slotSet | apply propGet_propSet].
Qed.

Lemma slotGet_In {A : Type} n (l : list (option A)) v : slotGet n l = Some v -> In v (filled l).
Proof.
  unfold slotGet. revert n. induction l as [| x l IH]; intros [| n]; simpl; try discriminate.
  - destruct x; [| discriminate]. intros H. inversion H. left. reflexivity.
  - intros H. destruct x; [right |]; eapply IH; exact H.
Qed.

Lemma propGet_In {A : Type} k (l : list (JsNumber * A)) v :
  propGet k l = Some v -> In v (map snd l).
Proof.
  induction l as [| [k' v'] l IH]; simpl; [discriminate |].
  destruct (keyEq k k'); intros H; [inversion H; left; reflexivity | right; apply IH; exact H].
Qed.

Lemma arrAll_get {A : Type} (P : A -> Prop) a k v :
  arrAll P a -> arrGet a k = Some v -> P v.
Proof.
  intros [Hs Hp] H. rewrite Forall_forall in Hs, Hp. unfold arrGet in H.
  destruct k as [| z]; [apply Hp; eapply propGet_In; exact H |].
  destruct (isArrayIndex z); [apply Hs; eapply slotGet_In | apply Hp; eapply propGet_In];
    exact H.
Qed.

Lemma filled_slotSet {A : Type} (P : A -> Prop) n v l :
  Forall P (filled l) -> P v -> Forall P (filled (slotSet n v l)).
Proof.
  revert l. induction n as [| n IH]; intros [| x l] Hl Hv; simpl.
  - constructor; [exact Hv | constructor].
  - destruct x; simpl in Hl; [inversion Hl; subst |]; constructor; assumption.
  - apply IH; [constructor | exact Hv].
  - destruct x; simpl in Hl.
    + inversion Hl; subst. constructor; [assumption |]. apply IH; assumption.
    + apply IH; assumption.
Qed.

Lemma props_propSet {A : Type} (P : A -> Prop) k v l :
  Forall P (map snd l) -> P v -> Forall P (map snd (propSet k v l)).
Proof.
  induction l as [| [k' v'] l IH]; intros Hl Hv; simpl.
  - constructor; [exact Hv | constructor].
  - simpl in Hl. inversion Hl; subst. destruct (keyEq k k'); simpl; constructor; auto.
Qed.

Lemma arrAll_set {A : Type} (P : A -> Prop) a k v :
  arrAll P a -> P v -> arrAll P (arrSet a k v).
Proof.
  intros [Hs Hp] Hv. unfold arrSet, arrAll.
  destruct k as [| z]; simpl; [split; [exact Hs | apply props_propSet; assumption] |].
  destruct (isArrayIndex z); simpl; split; try assumption;
    [apply filled_slotSet | apply props_propSet]; assumption.
Qed.

Lemma arrAll_empty {A : Type} (P : A -> Prop) : arrAll P emptyArray.
Proof. split; constructor. Qed.

Lemma arrAll_values {A : Type} (P : A -> Prop) a v : arrAll P a -> In v (arrValues a) -> P v.
Proof. intros [Hs _] Hin. rewrite Forall_forall in Hs. apply Hs. exact Hin. Qed.

(** ** The lanes of a part *)

Lemma arrangeNote_keeps (P : Ref -> Prop) staveNotes noteElement :
  P noteElement ->
  arrAll (arrAll (Forall P)) staveNotes ->
  arrAll (arrAll (Forall P)) (arrangeNote staveNotes noteElement).
Proof.
  intros Hin Hinv. unfold arrangeNote.
  set (staff := getUniqueInteger (getElementsByTagName noteElement "staff")).
  set (voice := getUniqueInteger (getElementsByTagName noteElement "voice")).
  destruct (arrGet staveNotes (minus1 staff)) as [staffNotes |] eqn:Hstaff.
  - pose proof (arrAll_get _ _ _ _ Hinv Hstaff) as Hsn.
    destruct (arrGet staffNotes (minus1 voice)) as [lane |] eqn:Hvoice; [| exact Hinv].
    pose proof (arrAll_get _ _ _ _ Hsn Hvoice) as Hlane.
    apply arrAll_set; [exact Hinv |]. apply arrAll_set; [exact Hsn |].
    apply Forall_app. split; [exact Hlane |]. constructor; [exact Hin | constructor].
  - apply arrAll_set; [exact Hinv |]. apply arrAll_set; [apply arrAll_empty |].
    constructor; [exact Hin | constructor].
Qed.

Lemma arrangeNotes_keep (P : Ref -> Prop) l :
  forall staveNotes,
    Forall P l ->
    arrAll (arrAll (Forall P)) staveNotes ->
    arrAll (arrAll (Forall P)) (fold_left arrangeNote l staveNotes).
Proof.
  induction l as [| x l IH]; intros sn Hl Hsn; simpl; [exact Hsn |].
  inversion Hl; subst. apply IH; [assumption |].
  apply arrangeNote_keeps; assumption.
Qed.

Lemma arrange_notes partStaffCount (notes : list Ref) :
  arrAll (arrAll (Forall (fun r => In r notes))) (arrange partStaffCount notes).
Proof.
  unfold arrange. destruct (1 <? partStaffCount).
  - apply arrangeNotes_keep; [| apply arrAll_empty].
    apply Forall_forall. intros x Hx. apply filter_In in Hx. apply Hx.
  - apply arrAll_set; [apply arrAll_empty |]. apply arrAll_set; [apply arrAll_empty |].
    apply Forall_forall. intros x Hx. exact Hx.
Qed.

(** In a part that declares more than one staff the lanes hold no rest, so
    the entry [i + j] of a lane is its [(i + j)]-th non-rest note. *)
Lemma several_staves_lanes_have_no_rests partElement lane :
  1 < orOne (getUniqueInteger (getElementsByTagName partElement "staves")) ->
  In lane (scannedLanes partElement) ->
  filter isNotRest lane = lane.
Proof.
  unfold scannedLanes, lanesOf, arrange. intros Hstaves Hlane.
  apply Z.ltb_lt in Hstaves. rewrite Hstaves in Hlane.
  apply in_flat_map in Hlane. destruct Hlane as (staffVoices & Hsv & Hlane).
  assert (Hinv : arrAll (arrAll (Forall (fun r => isNotRest r = true)))
            (fold_left arrangeNote
               (filter isNotRest (getElementsByTagName partElement "note")) emptyArray)).
  { apply arrangeNotes_keep; [| apply arrAll_empty].
    apply Forall_forall. intros x Hx. apply filter_In in Hx. apply Hx. }
  pose proof (arrAll_values _ _ _ Hinv Hsv) as Hstaff.
  pose proof (arrAll_values _ _ _ Hstaff Hlane) as Hl.
  clear - Hl. induction Hl as [| r l Hr Hl IH]; simpl; [reflexivity |].
  rewrite Hr, IH. reflexivity.
Qed.

(** Every element of a scanned lane is a note of the part. *)
Lemma scannedLanes_notes partElement lane r :
  In lane (scannedLanes partElement) -> In r lane ->
  In r (getElementsByTagName partElement "note").
Proof.
  unfold scannedLanes, lanesOf. intros Hlane Hr.
  apply in_flat_map in Hlane. destruct Hlane as (staffVoices & Hsv & Hlane).
  pose proof (arrange_notes
    (orOne (getUniqueInteger (getElementsByTagName partElement "staves")))
    (getElementsByTagName partElement "note")) as Hinv.
  pose proof (arrAll_values _ _ _ Hinv Hsv) as Hstaff.
  pose proof (arrAll_values _ _ _ Hstaff Hlane) as Hl.
  rewrite Forall_forall in Hl. apply Hl. exact Hr.
Qed.

(** ** getNote and noteOccurrence *)


Lemma arrGet_sortTable t k v :
  arrGet t k = Some v -> exists v', arrGet (sortTable t) k = Some v'.
Proof.
  assert (Hslot : forall n l w, slotGet n l = Some w ->
            slotGet n (map (option_map sortVoices) l) = Some (sortVoices w)).
  { unfold slotGet. intros n l w Hw. rewrite nth_error_map.
    destruct (nth_error l n) as [[u |] |]; try discriminate. inversion Hw. reflexivity. }
  unfold arrGet, sortTable. destruct k as [| z]; simpl.
  - intros H. exists v. exact H.
  - destruct (isArrayIndex z); intros H.
    + exists (sortVoices v). apply Hslot. exact H.
    + exists v. exact H.
Qed.

Lemma getNote_returns r t pitch :
  getElementsByTagName r "pitch" = [pitch] ->
  exists nt t', getNote r t = (Returned nt, t').
Proof.
  intros Hp. unfold getNote. rewrite Hp. simpl getUniqueElement.
  set (staff := getUniqueInteger (getElementsByTagName r "staff")).
  set (voice := getUniqueInteger (getElementsByTagName r "voice")).
  match goal with
  | |- context [sortTable ?x] => set (t1 := x)
  end.
  assert (H1 : exists v, arrGet t1 (minus1 staff) = Some v).
  { subst t1. destruct (arrGet t (minus1 staff)) as [svn |] eqn:E.
    - destruct ((0 <? Z.of_nat (List.length svn)) && (indexOf strictEq voice svn =? -1)).
      + eexists. apply arrGet_arrSet.
      + exists svn. exact E.
    - eexists. apply arrGet_arrSet. }
  destruct H1 as (v & Hv). destruct (arrGet_sortTable _ _ _ Hv) as (v' & Hv').
  rewrite Hv'. eexists. eexists. reflexivity.
Qed.

Lemma toDouble_safe z : Z.abs z <= 2 ^ 53 -> toDouble z = z.
Proof.
  intros H. unfold toDouble. apply Z.leb_le in H. rewrite H. reflexivity.
Qed.

Lemma noteOccurrence_fields c r nt n :
  noteOccurrence c r nt = Returned n ->
  NoteOccurrence.note n = nt
  /\ NoteOccurrence.staff n = doubleSub (doubleAdd c (Note.staff nt)) 1
  /\ exists parent index,
       parentElement r = Some parent
       /\ getElementIndex r "note" "voice" (Note.voice nt) = Returned index
       /\ NoteOccurrence.measure n = parseIntAttribute parent "number"
       /\ NoteOccurrence.measureNoteNumber n = index + 1.
Proof.
  unfold noteOccurrence. intros H.
  destruct (parentElement r) as [parent |] eqn:Hp; [| discriminate H].
  destruct (getElementIndex r "note" "voice" (Note.voice nt)) as [index | e] eqn:Hi;
    [| discriminate H].
  inversion H. simpl. repeat split. exists parent, index. repeat split.
Qed.

Lemma noteOccurrence_returns c r nt parent :
  parentElement r = Some parent -> exists n, noteOccurrence c r nt = Returned n.
Proof.
  intros Hp. unfold noteOccurrence, getElementIndex. rewrite Hp. eexists. reflexivity.
Qed.

(** ** Normal completion *)

Lemma align_returns c lane i :
  (forall r, In r lane -> isNotRest r = true ->
     exists pitch parent,
       getElementsByTagName r "pitch" = [pitch] /\ parentElement r = Some parent) ->
  forall pattern j acc t, exists acc' t', align c lane i pattern j acc t = (Returned acc', t').
Proof.
  intros Hlane. induction pattern as [| p pattern IH]; intros j acc t.
  - exists acc, t. reflexivity.
  - simpl. destruct (nth_error lane (i + j)) as [r |] eqn:Hnth; [| apply IH].
    destruct (isNotRest r) eqn:Hrest; simpl; [| apply IH].
    destruct (Hlane r (nth_error_In _ _ Hnth) Hrest) as (pitch & parent & Hp & Hpar).
    destruct (getNote_returns r t pitch Hp) as (nt & t1 & Hget).
    unfold bind at 1. rewrite Hget.
    destruct (accepts nt p (option_map NoteOccurrence.note (lastElement acc))); [| apply IH].
    destruct (noteOccurrence_returns c r nt parent Hpar) as (n & Hn).
    unfold bind, lift. rewrite Hn. apply IH.
Qed.

Lemma scanPart_returns pattern xml partElement :
  pitchedNotes xml ->
  In partElement (getElementsByTagName xml "part") ->
  forall s t, exists s' t', scanPart pattern partElement s t = (Returned s', t').
Proof.
  intros Hpitched Hpart s t. unfold scanPart.
  apply forEach_returns. intros staffVoices s1 t1 Hsv. unfold scanStaff.
  apply forEach_returns. intros lane s2 t2 Hlane. unfold scanLane.
  apply forEach_returns. intros i s3 t3 _. unfold window.
  assert (Hin : In lane (scannedLanes partElement)).
  { unfold scannedLanes. apply in_flat_map. exists staffVoices. split; assumption. }
  destruct (align_returns (Scan.staffCount s3) lane i) with (pattern := pattern)
    (j := 0%nat) (acc := @nil NoteOccurrence.t) (t := t3) as (po & t4 & Hal).
  { intros r Hr Hrest.
    pose proof (scannedLanes_notes partElement lane r Hin Hr) as Hnote.
    destruct (Hpitched partElement r Hpart Hnote Hrest) as (pitch & Hpitch).
    destruct (getElementsByTagName_parented _ _ _
                (getElementsByTagName_element _ _ _ Hpart) Hnote)
      as (parent & Hparent & _).
    exists pitch, parent. split; assumption. }
  unfold bind. rewrite Hal. eexists. eexists. reflexivity.
Qed.

Lemma findPattern_returns xml pattern t :
  pitchedNotes xml -> exists found t', findPattern xml pattern t = (Returned found, t').
Proof.
  intros Hpitched. unfold findPattern.
  destruct (forEach_returns (scanPart pattern) (getElementsByTagName xml "part"))
    with (s := scanStart) (t := t) as (s & t' & Hs).
  { intros partElement s0 t0 Hin. eapply scanPart_returns; eassumption. }
  unfold bind. rewrite Hs. eexists. eexists. reflexivity.
Qed.

(** With an empty pattern no note is read: the scan returns and leaves
    [staffVoicesNumbers] as it was. *)
Lemma forEach_pure {A S : Type} (body : A -> S -> M S) xs :
  (forall x s t, In x xs -> exists s', body x s t = (Returned s', t)) ->
  forall s t, exists s', forEach body xs s t = (Returned s', t).
Proof.
  induction xs as [| x xs IH]; intros Hbody s t.
  - exists s. reflexivity.
  - destruct (Hbody x s t (or_introl eq_refl)) as (s1 & H1).
    destruct (IH (fun y u v Hy => Hbody y u v (or_intror Hy)) s1 t) as (s2 & H2).
    exists s2. simpl. unfold bind. rewrite H1. exact H2.
Qed.

Lemma findPattern_empty_returns xml t :
  exists found, findPattern xml [] t = (Returned found, t).
Proof.
  unfold findPattern.
  destruct (forEach_pure (scanPart []) (getElementsByTagName xml "part"))
    with (s := scanStart) (t := t) as (s & Hs).
  { intros partElement s0 t0 _. unfold scanPart.
    apply forEach_pure. intros staffVoices s1 t1 _. unfold scanStaff.
    apply forEach_pure. intros lane s2 t2 _. unfold scanLane.
    apply forEach_pure. intros i s3 t3 _. unfold window. simpl.
    eexists. reflexivity. }
  unfold bind. rewrite Hs. eexists. reflexivity.
Qed.

(** ** The staff counter *)

Lemma scanParts_staffCount pattern parts :
  forall s t s' t',
    forEach (scanPart pattern) parts s t = (Returned s', t') ->
    Scan.staffCount s' = Scan.staffCount s + Z.of_nat (List.length parts).
Proof.
  induction parts as [| part parts IH]; intros s t s' t' H.
  - simpl in H. unfold ret in H. inversion H; subst. simpl. lia.
  - simpl in H. apply bind_returned in H. destruct H as (s1 & t1 & H1 & H2).
    apply scanPart_grows in H1. destruct H1 as (Hc & _).
    apply IH in H2. rewrite H2, Hc. cbn [List.length]. lia.
Qed.

Lemma skipn_length_app {A : Type} (l l' : list A) : skipn (List.length l) (l ++ l') = l'.
Proof. induction l as [| x l IH]; simpl; [reflexivity | exact IH]. Qed.

(** The note objects of an emitted occurrence come from the lanes. *)
Lemma Emitted_sourced exact pattern c lanes occ n :
  Emitted exact pattern c lanes occ ->
  In n (PatternOccurrence.notes occ) ->
  exists lane, In lane lanes /\ Sourced c lane n.
Proof.
  intros ((lane & i & t & t' & Hlane & Hal) & _) Hn.
  apply align_spec in Hal. destruct Hal as (new & He & _ & Hs).
  simpl in He. subst new. rewrite Forall_forall in Hs.
  exists lane. split; [exact Hlane | apply Hs; exact Hn].
Qed.

Lemma notesOfPart_sourced xml pattern t p n :
  In n (notesOfPart xml pattern t p) ->
  exists partElement lane,
    nth_error (getElementsByTagName xml "part") p = Some partElement
    /\ In lane (scannedLanes partElement)
    /\ Sourced (Z.of_nat p + 1) lane n.
Proof.
  unfold notesOfPart. intros Hn.
  destruct (forEach (scanPart pattern) (firstn p (getElementsByTagName xml "part"))
              scanStart t) as [[s | e] t1] eqn:Hpre; [| destruct Hn].
  destruct (nth_error (getElementsByTagName xml "part") p) as [partElement |] eqn:Hnth;
    [| destruct Hn].
  destruct (scanPart pattern partElement s t1) as [[s' | e] t2] eqn:Hpart; [| destruct Hn].
  apply scanParts_staffCount in Hpre. simpl in Hpre.
  assert (Hlen : List.length (firstn p (getElementsByTagName xml "part")) = p).
  { apply firstn_length_le. apply Nat.lt_le_incl. apply nth_error_Some. congruence. }
  rewrite Hlen in Hpre.
  apply scanPart_grows in Hpart. destruct Hpart as (_ & ne & na & He & Ha & Fe & Fa).
  rewrite He, Ha, !skipn_length_app in Hn. rewrite Hpre in Fe, Fa.
  apply in_flat_map in Hn. destruct Hn as (occ & Hocc & Hn).
  rewrite Forall_forall in Fe, Fa.
  exists partElement.
  apply in_app_or in Hocc. destruct Hocc as [Hocc | Hocc].
  - destruct (Emitted_sourced _ _ _ _ _ _ (Fe occ Hocc) Hn) as (lane & Hl & Hs).
    exists lane. repeat split; assumption.
  - destruct (Emitted_sourced _ _ _ _ _ _ (Fa occ Hocc) Hn) as (lane & Hl & Hs).
    exists lane. repeat split; assumption.
Qed.

(** * The properties of the matcher *)

(** ** Exact occurrences *)

Lemma Emitted_aligned exact pattern c lanes occ :
  Emitted exact pattern c lanes occ -> Aligned None pattern (PatternOccurrence.notes occ).
Proof.
  intros ((lane & i & t & t' & _ & Hal) & _).
  apply align_spec in Hal. destruct Hal as (new & He & Hal & _).
  simpl in He, Hal. subst new. exact Hal.
Qed.

Lemma matchingCountOf_full pattern po :
  matchingCountOf pattern po = patternLength pattern ->
  forall p, In p pattern ->
    exists n, In n po /\ noteIsEqual (Some p) (Some (NoteOccurrence.note n)) = true.
Proof.
  unfold matchingCountOf, patternLength. intros H p Hp.
  destruct (arrayIncludesCount_full _ _ _ H p Hp) as (s & Hs & Heq).
  apply in_map_iff in Hs. destruct Hs as (n & Hn & Hin).
  exists n. split; [exact Hin |]. rewrite Hn. exact Heq.
Qed.

(** C1, as amended.  Every exact occurrence has a matchingCount equal to the
    pattern length, holds at most as many notes as the pattern has entries,
    and every pattern entry is pitch-equal to one of its notes.  When no
    two pattern entries are pitch-equal, it holds exactly as many notes as
    the pattern has entries, the j-th pitch-equal to the j-th entry. *)
Theorem exact_occurrence_covers_pattern xml pattern t found t' occ :
  findPattern xml pattern t = (Returned found, t') ->
  In occ (Found.exactPatternOccurrences found) ->
  PatternOccurrence.matchingCount occ = patternLength pattern
  /\ (List.length (PatternOccurrence.notes occ) <= List.length pattern)%nat
  /\ (forall p, In p pattern ->
        exists n, In n (PatternOccurrence.notes occ)
                  /\ noteIsEqual (Some p) (Some (NoteOccurrence.note n)) = true)
  /\ (pairwiseDistinct pattern -> pitchEqualInOrder occ pattern).
Proof.
  intros Hrun Hocc.
  destruct (findPattern_emitted _ _ _ _ _ Hrun) as (Hexact & _).
  destruct (Hexact occ Hocc) as (p & partElement & _ & Hem).
  pose proof (Emitted_aligned _ _ _ _ _ Hem) as Hal.
  destruct Hem as (_ & Hmc & Hk). simpl in Hk.
  assert (Hfull : matchingCountOf pattern (PatternOccurrence.notes occ) = patternLength pattern)
    by (rewrite <- Hmc; lia).
  pose proof (matchingCountOf_full _ _ Hfull) as Hcov.
  pose proof (Aligned_length _ _ _ Hal) as Hlen.
  repeat split; [rewrite Hmc; exact Hfull | exact Hlen | exact Hcov |].
  intros Hdistinct. unfold pitchEqualInOrder.
  assert (Hkeys : NoDup (map pitchKey pattern)).
  { apply pairwiseDistinct_keys; [exact Hdistinct |].
    intros q Hq. destruct (Hcov q Hq) as (n & _ & Hn). exists (NoteOccurrence.note n).
    exact Hn. }
  assert (Hincl : incl (map pitchKey pattern)
            (map (fun n => pitchKey (NoteOccurrence.note n)) (PatternOccurrence.notes occ))).
  { intros k Hk'. apply in_map_iff in Hk'. destruct Hk' as (q & Hqk & Hq).
    destruct (Hcov q Hq) as (n & Hn & Heq). apply in_map_iff. exists n.
    split; [| exact Hn]. rewrite <- Hqk. symmetry. apply noteIsEqual_key. exact Heq. }
  pose proof (NoDup_incl_length Hkeys Hincl) as Hge. rewrite !length_map in Hge.
  apply (Aligned_positional None); [exact Hal | lia | intros q Hq; discriminate Hq |].
  apply (NoDup_incl_NoDup Hkeys); [rewrite !length_map; lia | exact Hincl].
Qed.

Lemma exact_occurrence_covers_pattern_witness :
  findPattern scoreScale patternCDEF emptyArray
  = (Returned foundScale, tableAfter scoreScale patternCDEF)
  /\ In (firstOf (Found.exactPatternOccurrences foundScale))
        (Found.exactPatternOccurrences foundScale)
  /\ pairwiseDistinct patternCDEF
  /\ PatternOccurrence.matchingCount (firstOf (Found.exactPatternOccurrences foundScale)) = 4
  /\ pitchEqualInOrder (firstOf (Found.exactPatternOccurrences foundScale)) patternCDEF.
Proof.
  assert (Hrun : findPattern scoreScale patternCDEF emptyArray
                 = (Returned foundScale, tableAfter scoreScale patternCDEF))
    by (vm_compute; reflexivity).
  assert (Hin : In (firstOf (Found.exactPatternOccurrences foundScale))
                  (Found.exactPatternOccurrences foundScale))
    by (left; reflexivity).
  assert (Hdistinct : pairwiseDistinct patternCDEF)
    by (unfold pairwiseDistinct, patternCDEF; repeat constructor).
  destruct (exact_occurrence_covers_pattern _ _ _ _ _ _ Hrun Hin) as (Hmc & _ & _ & Hord).
  exact (conj Hrun (conj Hin (conj Hdistinct (conj Hmc (Hord Hdistinct))))).
Defined.

(** C1, as stated, fails.  Against the pattern B flat, A, C, B flat the notes
    B flat, A, C, B natural give an exact occurrence of three notes: the one
    B flat covers both B flat entries.  Against the pattern A, B, A the notes
    A, B, B give an exact occurrence whose third note, accepted for
    repeating the second, is not pitch-equal to the third entry. *)
Lemma exact_occurrence_counterexample :
  (findPattern scoreLastNatural bachPattern emptyArray
   = (Returned foundLastNatural, tableAfter scoreLastNatural bachPattern)
   /\ In (firstOf (Found.exactPatternOccurrences foundLastNatural))
         (Found.exactPatternOccurrences foundLastNatural)
   /\ List.length bachPattern = 4%nat
   /\ List.length
        (PatternOccurrence.notes (firstOf (Found.exactPatternOccurrences foundLastNatural)))
      = 3%nat)
  /\ (findPattern scoreRepeat patternABA emptyArray
      = (Returned foundRepeat, tableAfter scoreRepeat patternABA)
      /\ In (firstOf (Found.exactPatternOccurrences foundRepeat))
            (Found.exactPatternOccurrences foundRepeat)
      /\ ~ pitchEqualInOrder (firstOf (Found.exactPatternOccurrences foundRepeat)) patternABA).
Proof.
  split.
  - split; [vm_compute; reflexivity |]. split; [left; reflexivity |].
    split; reflexivity.
  - split; [vm_compute; reflexivity |]. split; [left; reflexivity |].
    unfold pitchEqualInOrder. intros H.
    inversion H as [| n1 p1 ns1 ps1 _ H1]; subst.
    inversion H1 as [| n2 p2 ns2 ps2 _ H2]; subst.
    inversion H2 as [| n3 p3 ns3 ps3 H3 _]; subst.
    vm_compute in H3. discriminate H3.
Qed.

(** ** The matching count *)

Lemma coveredEntries_bounds {A B : Type} (array : list A) (target : list B) cb :
  arrayIncludesCount array target cb
  <= Z.of_nat (List.length (filter (fun v => existsb (fun s => cb v s) array) target))
  <= Z.of_nat (List.length target).
Proof.
  induction target as [| v target IH]; cbn [arrayIncludesCount filter List.length]; [lia |].
  pose proof (arrayIncludesCount_bounds array target cb) as Hb.
  destruct (existsb (fun s => cb v s) array); cbn [List.length]; lia.
Qed.

Lemma existsb_map {A B : Type} (f : B -> bool) (g : A -> B) (l : list A) :
  existsb f (map g l) = existsb (fun x => f (g x)) l.
Proof. induction l as [| x l IH]; simpl; [reflexivity | rewrite IH; reflexivity]. Qed.

(** The matchingCount an occurrence carries is the count of its own notes. *)
Lemma found_matchingCount xml pattern t found t' occ :
  findPattern xml pattern t = (Returned found, t') ->
  In occ (Found.exactPatternOccurrences found ++ Found.approximatePatternOccurrences found) ->
  PatternOccurrence.matchingCount occ = matchingCountOf pattern (PatternOccurrence.notes occ).
Proof.
  intros Hrun Hocc.
  destruct (findPattern_emitted _ _ _ _ _ Hrun) as (Hexact & Happrox).
  apply in_app_or in Hocc. destruct Hocc as [Hocc | Hocc].
  - destruct (Hexact occ Hocc) as (p & pe & _ & _ & Hmc & _). exact Hmc.
  - destruct (Happrox occ Hocc) as (p & pe & _ & _ & Hmc & _). exact Hmc.
Qed.

(** C2, as amended.  The matchingCount of an accumulated occurrence counts
    pattern entries, not notes: it is at most the number of pattern entries
    that are pitch-equal to some accumulated note, one note covering as many
    entries as it equals, and it is the pattern length exactly when every
    pattern entry is covered in that way. *)
Theorem matchingCount_counts_pattern_entries pattern patternOccurrence :
  0 <= matchingCountOf pattern patternOccurrence
    <= coveredEntries pattern patternOccurrence
  /\ coveredEntries pattern patternOccurrence <= patternLength pattern
  /\ (matchingCountOf pattern patternOccurrence = patternLength pattern
      <-> Forall (fun p => exists n, In n patternOccurrence
                            /\ pitchEq p (NoteOccurrence.note n) = true) pattern).
Proof.
  unfold matchingCountOf, coveredEntries, patternLength.
  pose proof (arrayIncludesCount_bounds (map NoteOccurrence.note patternOccurrence)
                pattern pitchEq) as Hb.
  pose proof (coveredEntries_bounds (map NoteOccurrence.note patternOccurrence)
                pattern pitchEq) as Hc.
  assert (Hfilter :
    filter (fun v => existsb (fun s => pitchEq v s) (map NoteOccurrence.note patternOccurrence))
      pattern
    = filter (fun v => existsb (fun n => pitchEq v (NoteOccurrence.note n)) patternOccurrence)
        pattern).
  { apply filter_ext. intros v. apply existsb_map. }
  rewrite Hfilter in Hc.
  repeat split; try lia.
  - intros H. apply Forall_forall. intros p Hp.
    destruct (arrayIncludesCount_full _ _ _ H p Hp) as (s & Hs & Heq).
    apply in_map_iff in Hs. destruct Hs as (n & Hn & Hin).
    exists n. split; [exact Hin | rewrite Hn; exact Heq].
  - intros H. apply arrayIncludesCount_all. intros p Hp.
    rewrite Forall_forall in H. destruct (H p Hp) as (n & Hn & Heq).
    exists (NoteOccurrence.note n). split; [apply in_map; exact Hn | exact Heq].
Qed.

(** C2, as stated, fails.  For the exact occurrence found in B flat, A, C,
    B natural against B flat, A, C, B flat the matchingCount is 4 while the
    one-to-one coverage count of its three notes is 3. *)
Lemma matchingCount_counterexample :
  findPattern scoreLastNatural bachPattern emptyArray
  = (Returned foundLastNatural, tableAfter scoreLastNatural bachPattern)
  /\ PatternOccurrence.matchingCount (firstOf (Found.exactPatternOccurrences foundLastNatural))
     = 4
  /\ matchingCountOf bachPattern
       (PatternOccurrence.notes (firstOf (Found.exactPatternOccurrences foundLastNatural)))
     = 4
  /\ greedyCoverageCount
       (map NoteOccurrence.note
          (PatternOccurrence.notes (firstOf (Found.exactPatternOccurrences foundLastNatural))))
       bachPattern
     = 3.
Proof. repeat split; vm_compute; reflexivity. Qed.

(** ** Approximate occurrences *)

Lemma ratioAbove_spec matchingCount pattern :
  ratioAbove matchingCount pattern = true ->
  (0.6 < inject_Z matchingCount / inject_Z (patternLength pattern))%Q.
Proof.
  unfold ratioAbove. intros H. apply negb_true_iff in H. apply Qnot_le_lt. intros Hle.
  apply Qle_bool_iff in Hle. congruence.
Qed.

(** C3.  Every approximate occurrence has a matchingCount strictly between 0
    and the pattern length, and in ratio to the pattern length above 0.6. *)
Theorem approximate_occurrence_bounds xml pattern t found t' occ :
  findPattern xml pattern t = (Returned found, t') ->
  In occ (Found.approximatePatternOccurrences found) ->
  0 < PatternOccurrence.matchingCount occ < patternLength pattern
  /\ (0.6 < inject_Z (PatternOccurrence.matchingCount occ)
            / inject_Z (patternLength pattern))%Q.
Proof.
  intros Hrun Hocc.
  destruct (findPattern_emitted _ _ _ _ _ Hrun) as (_ & Happrox).
  destruct (Happrox occ Hocc) as (p & partElement & _ & Hem).
  destruct Hem as (_ & Hmc & Hne & Hratio).
  pose proof (arrayIncludesCount_bounds
                (map NoteOccurrence.note (PatternOccurrence.notes occ)) pattern pitchEq) as Hb.
  fold (matchingCountOf pattern (PatternOccurrence.notes occ)) in Hb. rewrite <- Hmc in Hb.
  fold (patternLength pattern) in Hb.
  pose proof (ratioAbove_spec _ _ Hratio) as Hq.
  split; [| exact Hq].
  split; [| lia].
  destruct (Z.eq_dec (PatternOccurrence.matchingCount occ) 0) as [E | E]; [| lia].
  exfalso. rewrite E in Hq. unfold Qdiv in Hq. rewrite Qmult_0_l in Hq.
  revert Hq. apply Qle_not_lt. discriminate.
Qed.

Lemma approximate_occurrence_bounds_witness :
  findPattern scoreNear patternCDEF emptyArray
  = (Returned foundNear, tableAfter scoreNear patternCDEF)
  /\ In (firstOf (Found.approximatePatternOccurrences foundNear))
        (Found.approximatePatternOccurrences foundNear)
  /\ 0 < PatternOccurrence.matchingCount (firstOf (Found.approximatePatternOccurrences foundNear))
       < patternLength patternCDEF
  /\ (0.6 < inject_Z (PatternOccurrence.matchingCount
                        (firstOf (Found.approximatePatternOccurrences foundNear)))
            / inject_Z (patternLength patternCDEF))%Q.
Proof.
  assert (Hrun : findPattern scoreNear patternCDEF emptyArray
                 = (Returned foundNear, tableAfter scoreNear patternCDEF))
    by (vm_compute; reflexivity).
  assert (Hin : In (firstOf (Found.approximatePatternOccurrences foundNear))
                  (Found.approximatePatternOccurrences foundNear))
    by (left; reflexivity).
  destruct (approximate_occurrence_bounds _ _ _ _ _ _ Hrun Hin) as (Hb & Hq).
  exact (conj Hrun (conj Hin (conj Hb Hq))).
Defined.

(** ** Rests and lanes *)

(** C4, on a part of one staff that begins with two rests.  The lane keeps
    the rests, the windows start at the entries 0 and 1 of the lane, which
    are the rests, and the pattern A, B that sounds after them is not found;
    without the rests it is. *)
Theorem rests_occupy_pattern_slots :
  map (map isNotRest) (flat_map scannedLanes (getElementsByTagName scoreRests "part"))
  = [[false; false; true; true]]
  /\ map windowStarts (flat_map scannedLanes (getElementsByTagName scoreRests "part"))
     = [[0; 1]%nat]
  /\ fst (findPattern scoreRests patternAB emptyArray) = Returned (Found.mk [] [])
  /\ List.length (Found.exactPatternOccurrences (runOf scoreNoRests patternAB)) = 1%nat.
Proof.
  split; [vm_compute; reflexivity |]. split; [vm_compute; reflexivity |].
  split; vm_compute; reflexivity.
Qed.

(** C5, on a part of two staves whose first staff has the voices 1 and 2.
    The part has two non-rest notes, its only lane holds one of them, and the
    B of the second voice is not found. *)
Theorem second_voice_of_a_staff_is_dropped :
  map (fun partElement =>
         List.length (filter isNotRest (getElementsByTagName partElement "note")))
    (getElementsByTagName scoreTwoVoices "part")
  = [2%nat]
  /\ map (fun partElement => map (@List.length Ref) (scannedLanes partElement))
       (getElementsByTagName scoreTwoVoices "part")
     = [[1%nat]]
  /\ fst (findPattern scoreTwoVoices patternB emptyArray) = Returned (Found.mk [] []).
Proof.
  split; [vm_compute; reflexivity |]. split; vm_compute; reflexivity.
Qed.

(** ** The voice table across calls *)

(** C6, on a staff where voice 2 sounds before voice 1.  The second of two
    calls in a row starts from the table the first call left and numbers
    the first note's voice 2 where the first call numbered it 1. *)
Theorem second_call_sees_first_calls_table :
  fst (findPatternTwice scoreVoiceOrder patternA emptyArray) = Returned twiceVoiceOrder
  /\ staffVoicesOf (fst twiceVoiceOrder) = [[1]; [1]]
  /\ staffVoicesOf (snd twiceVoiceOrder) = [[2]; [1]]
  /\ fst twiceVoiceOrder <> snd twiceVoiceOrder.
Proof.
  split; [vm_compute; reflexivity |]. split; [vm_compute; reflexivity |].
  split; [vm_compute; reflexivity |].
  intros E. apply (f_equal staffVoicesOf) in E. vm_compute in E. discriminate E.
Qed.

(** ** The empty pattern *)

(** C7, as amended.  With an empty pattern [findPattern] returns normally
    and leaves the voice table as it was; it reports no approximate
    occurrence, and every exact occurrence it reports has no notes and a
    matchingCount of 0. *)
Theorem empty_pattern_returns_empty_occurrences xml t :
  exists found,
    findPattern xml [] t = (Returned found, t)
    /\ Found.approximatePatternOccurrences found = []
    /\ Forall (fun occ => PatternOccurrence.notes occ = []
                          /\ PatternOccurrence.matchingCount occ = 0)
         (Found.exactPatternOccurrences found).
Proof.
  destruct (findPattern_empty_returns xml t) as (found & Hrun).
  exists found. split; [exact Hrun |].
  destruct (findPattern_emitted _ _ _ _ _ Hrun) as (Hexact & Happrox).
  assert (Hnotes : forall exact c lanes occ,
            Emitted exact [] c lanes occ ->
            PatternOccurrence.notes occ = [] /\ PatternOccurrence.matchingCount occ = 0).
  { intros exact c lanes occ ((lane & i & u & u' & _ & Hal) & Hmc & _).
    simpl in Hal. unfold ret in Hal. inversion Hal as [Hn].
    split; [reflexivity |]. rewrite Hmc. reflexivity. }
  split.
  - destruct (Found.approximatePatternOccurrences found) as [| occ rest]; [reflexivity |].
    exfalso. destruct (Happrox occ (or_introl eq_refl)) as (p & partElement & _ & Hem).
    destruct (Hnotes _ _ _ _ Hem) as (_ & Hzero).
    destruct Hem as (_ & _ & Hne & _). rewrite Hzero in Hne. apply Hne. reflexivity.
  - apply Forall_forall. intros occ Hocc.
    destruct (Hexact occ Hocc) as (p & partElement & _ & Hem).
    eapply Hnotes. exact Hem.
Qed.

(** C7, as stated, fails.  With an empty pattern the score B flat, A, C,
    B flat is scanned and four exact occurrences are returned, one for each
    window start. *)
Lemma empty_pattern_counterexample :
  fst (findPattern scoreExact [] emptyArray) = Returned (runOf scoreExact [])
  /\ List.length (Found.exactPatternOccurrences (runOf scoreExact [])) = 4%nat.
Proof. split; vm_compute; reflexivity. Qed.

(** ** Scores the matcher accepts *)

(** C8, as amended.  [findPattern] has no failure of its own for a part
    without notes or for a pitch without a step: it returns normally
    whenever every non-rest note of every part contains exactly one pitch
    element. *)
Theorem pitched_score_returns xml pattern t :
  pitchedNotes xml ->
  exists found t', findPattern xml pattern t = (Returned found, t').
Proof. apply findPattern_returns. Qed.

Lemma pitched_score_returns_witness :
  pitchedNotes scoreNoStep
  /\ exists found t', findPattern scoreNoStep patternA emptyArray = (Returned found, t').
Proof.
  assert (H : pitchedNotes scoreNoStep).
  { intros partElement noteElement Hpart Hnote _.
    vm_compute in Hpart. destruct Hpart as [<- | []].
    vm_compute in Hnote. destruct Hnote as [<- | []].
    eexists. lazy. reflexivity. }
  exact (conj H (pitched_score_returns scoreNoStep patternA emptyArray H)).
Defined.

(** C8, as stated, fails.  A score whose part has no notes, and a score
    whose only pitch has no step, are both scanned to the end: the call
    returns, with no occurrences. *)
Lemma malformed_score_counterexample :
  (existsb (fun partElement =>
              (List.length (getElementsByTagName partElement "note") =? 0)%nat)
     (getElementsByTagName scoreEmptyPart "part") = true
   /\ fst (findPattern scoreEmptyPart patternA emptyArray) = Returned (Found.mk [] []))
  /\ (existsb (fun pitch => (List.length (getElementsByTagName pitch "step") =? 0)%nat)
        (getElementsByTagName scoreNoStep "pitch") = true
      /\ fst (findPattern scoreNoStep patternA emptyArray) = Returned (Found.mk [] [])).
Proof. split; split; vm_compute; reflexivity. Qed.

(** ** Positions in the measure *)





(** ** Staff coordinates *)

(** C10, as amended.  The staff stamped on a note found in the part at index
    p is p plus the note's own staff number, as long as the numbers stay
    within the integers that doubles hold exactly (p plus the magnitude of
    the staff number below 2^53).  Within a part two such notes get the same
    staff exactly when they are on the same staff of the part; across parts
    the staff of a note of the later part is greater whenever its own staff
    number is not smaller. *)
Theorem staff_counts_parts_before xml pattern t p q n1 n2 :
  In n1 (notesOfPart xml pattern t p) ->
  In n2 (notesOfPart xml pattern t q) ->
  Z.of_nat p + Z.abs (Note.staff (NoteOccurrence.note n1)) < 2 ^ 53 ->
  Z.of_nat q + Z.abs (Note.staff (NoteOccurrence.note n2)) < 2 ^ 53 ->
  NoteOccurrence.staff n1 = Z.of_nat p + Note.staff (NoteOccurrence.note n1)
  /\ (p = q ->
      (NoteOccurrence.staff n1 = NoteOccurrence.staff n2
       <-> Note.staff (NoteOccurrence.note n1) = Note.staff (NoteOccurrence.note n2)))
  /\ ((p < q)%nat ->
      Note.staff (NoteOccurrence.note n1) <= Note.staff (NoteOccurrence.note n2) ->
      NoteOccurrence.staff n1 < NoteOccurrence.staff n2).
Proof.
  intros H1 H2 B1 B2.
  assert (Hstaff : forall k n, In n (notesOfPart xml pattern t k) ->
            Z.of_nat k + Z.abs (Note.staff (NoteOccurrence.note n)) < 2 ^ 53 ->
            NoteOccurrence.staff n = Z.of_nat k + Note.staff (NoteOccurrence.note n)).
  { intros k n Hn Hb.
    destruct (notesOfPart_sourced _ _ _ _ _ Hn) as (pe & lane & _ & _ & Hsrc).
    destruct Hsrc as (r & nt & t1 & t2 & _ & _ & _ & Hocc).
    destruct (noteOccurrence_fields _ _ _ _ Hocc) as (Hnt & Hs & _).
    rewrite Hs, Hnt. rewrite Hnt in Hb. unfold doubleSub, doubleAdd.
    rewrite (toDouble_safe (Z.of_nat k + 1 + Note.staff nt)) by lia.
    rewrite toDouble_safe by lia. lia. }
  pose proof (Hstaff p n1 H1 B1) as E1. pose proof (Hstaff q n2 H2 B2) as E2.
  split; [exact E1 |]. split.
  - intros Hpq. subst q. rewrite E1, E2. split; intros H; lia.
  - intros Hpq Hle. rewrite E1, E2. lia.
Qed.

Lemma staff_counts_parts_before_witness :
  (In stampedOnFirstStaff (notesOfPart scoreStaves patternA emptyArray 0)
   /\ In stampedOnSecondStaff (notesOfPart scoreStaves patternA emptyArray 0)
   /\ In stampedInNextPart (notesOfPart scoreStaves patternA emptyArray 1))
  /\ map NoteOccurrence.staff [stampedOnFirstStaff; stampedOnSecondStaff; stampedInNextPart]
     = [1; 2; 2]
  /\ NoteOccurrence.staff stampedOnFirstStaff
     = Z.of_nat 0 + Note.staff (NoteOccurrence.note stampedOnFirstStaff)
  /\ (NoteOccurrence.staff stampedOnFirstStaff = NoteOccurrence.staff stampedOnSecondStaff
      <-> Note.staff (NoteOccurrence.note stampedOnFirstStaff)
          = Note.staff (NoteOccurrence.note stampedOnSecondStaff))
  /\ NoteOccurrence.staff stampedOnFirstStaff < NoteOccurrence.staff stampedInNextPart.
Proof.
  assert (H1 : In stampedOnFirstStaff (notesOfPart scoreStaves patternA emptyArray 0))
    by (vm_compute; left; reflexivity).
  assert (H2 : In stampedOnSecondStaff (notesOfPart scoreStaves patternA emptyArray 0))
    by (vm_compute; right; left; reflexivity).
  assert (H3 : In stampedInNextPart (notesOfPart scoreStaves patternA emptyArray 1))
    by (vm_compute; left; reflexivity).
  assert (B1 : Z.of_nat 0 + Z.abs (Note.staff (NoteOccurrence.note stampedOnFirstStaff))
               < 2 ^ 53) by (vm_compute; reflexivity).
  assert (B2 : Z.of_nat 0 + Z.abs (Note.staff (NoteOccurrence.note stampedOnSecondStaff))
               < 2 ^ 53) by (vm_compute; reflexivity).
  assert (B3 : Z.of_nat 1 + Z.abs (Note.staff (NoteOccurrence.note stampedInNextPart))
               < 2 ^ 53) by (vm_compute; reflexivity).
  destruct (staff_counts_parts_before _ _ _ _ _ _ _ H1 H2 B1 B2) as (Estaff & Hsame & _).
  destruct (staff_counts_parts_before _ _ _ _ _ _ _ H1 H3 B1 B3) as (_ & _ & Hless).
  assert (Hlt : (0 < 1)%nat) by lia.
  assert (Hle : Note.staff (NoteOccurrence.note stampedOnFirstStaff)
                <= Note.staff (NoteOccurrence.note stampedInNextPart))
    by (vm_compute; discriminate).
  exact (conj (conj H1 (conj H2 H3))
           (conj eq_refl (conj Estaff (conj (Hsame eq_refl) (Hless Hlt Hle))))).
Defined.

(** C10, as stated, fails.  The first part has two staves and a note on
    its second staff, stamped 0 + 2; the note of the second part is on its
    first staff, stamped 1 + 1: the later part's coordinate does not exceed
    the earlier part's. *)
Lemma staff_coordinate_counterexample :
  map NoteOccurrence.staff (notesOfPart scoreTwoParts patternA emptyArray 0) = [2]
  /\ map NoteOccurrence.staff (notesOfPart scoreTwoParts patternA emptyArray 1) = [2]
  /\ map (fun occ => map NoteOccurrence.staff (PatternOccurrence.notes occ))
       (Found.exactPatternOccurrences (runOf scoreTwoParts patternA))
     = [[2]; [2]].
Proof.
  split; [vm_compute; reflexivity |]. split; vm_compute; reflexivity.
Qed.

(** * Further properties of the helpers *)

(** ** noteIsEqual *)

Lemma strictEq_sym a b : strictEq a b = strictEq b a.
Proof.
  destruct a as [[| x] |], b as [[| y] |]; simpl; try reflexivity. apply Z.eqb_sym.
Qed.

Lemma strEq_sym a b : strEq a b = strEq b a.
Proof. destruct a, b; simpl; try reflexivity. apply String.eqb_sym. Qed.

Lemma noteIsEqual_sym a b : noteIsEqual (Some a) (Some b) = noteIsEqual (Some b) (Some a).
Proof. unfold noteIsEqual. rewrite strEq_sym, strictEq_sym. reflexivity. Qed.

Lemma noteIsEqual_trans a b c :
  noteIsEqual (Some a) (Some b) = true ->
  noteIsEqual (Some b) (Some c) = true ->
  noteIsEqual (Some a) (Some c) = true.
Proof.
  intros Hab Hbc. apply (noteIsEqual_of_key a c b Hab).
  rewrite (noteIsEqual_key _ _ Hab). apply noteIsEqual_key. exact Hbc.
Qed.

(** X1.  [noteIsEqual] is symmetric and transitive on notes, and a note is
    equal to itself exactly when its alter is not [NaN]; an [undefined]
    argument is equal to nothing. *)
Theorem noteIsEqual_partial_equivalence a b c :
  noteIsEqual (Some a) (Some b) = noteIsEqual (Some b) (Some a)
  /\ (noteIsEqual (Some a) (Some b) = true ->
      noteIsEqual (Some b) (Some c) = true ->
      noteIsEqual (Some a) (Some c) = true)
  /\ (noteIsEqual (Some a) (Some a) = true <-> Note.alter a <> Some NaN)
  /\ noteIsEqual (Some a) None = false
  /\ noteIsEqual None (Some a) = false.
Proof.
  split; [apply noteIsEqual_sym |]. split; [apply noteIsEqual_trans |].
  split; [| split; reflexivity].
  unfold noteIsEqual. split.
  - intros H E. rewrite E in H. rewrite andb_comm in H. discriminate H.
  - intros H. apply andb_true_iff. split.
    + destruct (Note.step a); simpl; [apply String.eqb_refl | reflexivity].
    + destruct (Note.alter a) as [[| x] |]; simpl;
        [contradiction H; reflexivity | apply Z.eqb_refl | reflexivity].
Qed.

Lemma noteIsEqual_partial_equivalence_witness :
  noteIsEqual (Some (pat "B" (Some (-1)))) (Some (pat "B" (Some (-1)))) = true
  /\ noteIsEqual (Some (pat "B" None)) (Some (pat "B" (Some (-1)))) = false.
Proof.
  destruct (noteIsEqual_partial_equivalence (pat "B" (Some (-1))) (pat "B" (Some (-1)))
              (pat "B" (Some (-1)))) as (_ & Htrans & _).
  split; [| reflexivity].
  apply Htrans; reflexivity.
Defined.

(** ** arrayIncludesCount *)

(** X2.  [arrayIncludesCount] returns the length of the longest prefix of
    the target whose elements all have a match in the array: the elements
    after the first one without a match are not counted, whether they have a
    match or not. *)
Theorem arrayIncludesCount_longest_prefix {A B : Type} (array : list A) (target : list B)
    (compareCallback : B -> A -> bool) :
  exists pre post,
    target = pre ++ post
    /\ arrayIncludesCount array target compareCallback = Z.of_nat (List.length pre)
    /\ Forall (fun v => exists s, In s array /\ compareCallback v s = true) pre
    /\ match post with
       | [] => True
       | v :: _ => Forall (fun s => compareCallback v s = false) array
       end.
Proof.
  induction target as [| v target IH].
  - exists [], []. simpl. repeat split; constructor.
  - cbn [arrayIncludesCount].
    destruct (existsb (fun s => compareCallback v s) array) eqn:E.
    + destruct IH as (pre & post & Ht & Hc & Hpre & Hpost).
      exists (v :: pre), post. split; [simpl; rewrite Ht; reflexivity |].
      split; [rewrite Hc; cbn [List.length]; lia |].
      split; [| exact Hpost].
      constructor; [| exact Hpre]. apply existsb_exists in E. exact E.
    + exists [], (v :: target). split; [reflexivity |]. split; [reflexivity |].
      split; [constructor |].
      apply Forall_forall. intros s Hs.
      destruct (compareCallback v s) eqn:Hcb; [| reflexivity].
      assert (existsb (fun s => compareCallback v s) array = true)
        by (apply existsb_exists; exists s; split; assumption).
      congruence.
Qed.

(** X3.  A larger array never lowers the count: if every element of
    [array] is in [array'], the count against [array'] is at least the count
    against [array]. *)
Theorem arrayIncludesCount_monotone {A B : Type} (array array' : list A) (target : list B)
    (compareCallback : B -> A -> bool) :
  incl array array' ->
  arrayIncludesCount array target compareCallback
  <= arrayIncludesCount array' target compareCallback.
Proof.
  intros Hincl. induction target as [| v target IH]; cbn [arrayIncludesCount]; [lia |].
  destruct (existsb (fun s => compareCallback v s) array) eqn:E.
  - assert (E' : existsb (fun s => compareCallback v s) array' = true).
    { apply existsb_exists in E. destruct E as (s & Hs & Hcb).
      apply existsb_exists. exists s. split; [apply Hincl; exact Hs | exact Hcb]. }
    rewrite E'. lia.
  - pose proof (arrayIncludesCount_bounds array' target compareCallback) as Hb.
    destruct (existsb (fun s => compareCallback v s) array'); lia.
Qed.

Lemma arrayIncludesCount_monotone_witness :
  incl [1; 2] [1; 2; 3]
  /\ arrayIncludesCount [1; 2] [1; 3; 2] Z.eqb <= arrayIncludesCount [1; 2; 3] [1; 3; 2] Z.eqb.
Proof.
  assert (H : incl [1; 2] [1; 2; 3]).
  { intros x Hx. simpl in Hx. simpl. tauto. }
  exact (conj H (arrayIncludesCount_monotone [1; 2] [1; 2; 3] [1; 3; 2] Z.eqb H)).
Defined.

(** ** getElementIndex and getNodeIndex *)

Lemma before_split r l :
  In r l -> NoDup (map path l) -> exists post, l = before r l ++ r :: post.
Proof.
  induction l as [| x l IH]; intros Hin Hnd; [destruct Hin |].
  simpl in Hnd. inversion Hnd as [| p ps Hnotin Hnd']; subst.
  simpl. destruct (sameElement x r) eqn:E.
  - apply sameElement_true in E.
    assert (Hx : x = r).
    { destruct Hin as [Hx | Hin]; [exact Hx |]. exfalso. apply Hnotin.
      rewrite E. apply in_map. exact Hin. }
    subst x. exists l. reflexivity.
  - assert (Hin' : In r l).
    { destruct Hin as [Hx | Hin]; [| exact Hin]. subst x.
      apply sameElement_false in E. contradiction. }
    destruct (IH Hin' Hnd') as (post & Hpost). exists post. simpl. rewrite <- Hpost.
    reflexivity.
Qed.

(** X4.  For an element found by [getElementsByTagName]: when it has no
    parent element, [getElementIndex] throws a [TypeError] (this is the
    document element, found from the document; what is found from an
    element has a parent element); otherwise [getElementIndex] returns a
    number from -1 up to, and not including, the number of siblings that
    pass the filter, and it returns -1 exactly when the element itself does
    not pass the filter (its first [filterTagName] element is missing or
    does not read as the filter value). *)
Theorem getElementIndex_range x name filterTagName filterValue r :
  In r (getElementsByTagName x name) ->
  (path x <> [] -> parentElement r <> None)
  /\ match parentElement r with
     | None => getElementIndex r name filterTagName filterValue = Threw TypeError
     | Some parent =>
         exists index,
           getElementIndex r name filterTagName filterValue = Returned index
           /\ -1 <= index
              < Z.of_nat
                  (List.length
                     (filter (siblingMatches filterTagName filterValue)
                        (getElementsByTagName parent name)))
           /\ (index = -1 <-> siblingMatches filterTagName filterValue r = false)
     end.
Proof.
  intros Hin. split.
  { intros Hx. destruct (getElementsByTagName_parented _ _ _ Hx Hin) as (parent & Hp & _).
    congruence. }
  destruct (parentElement r) as [parent |] eqn:Hparent;
    [| unfold getElementIndex; rewrite Hparent; reflexivity].
  pose proof (getElementsByTagName_parent _ _ _ _ Hin Hparent) as Hsib.
  eexists.
  split; [apply (getElementIndex_spec r parent name filterTagName filterValue Hparent Hsib) |].
  destruct (before_split r _ Hsib (getElementsByTagName_NoDup parent name)) as (post & Hpost).
  destruct (siblingMatches filterTagName filterValue r) eqn:Hself.
  - assert (Hlen : (List.length
                      (filter (siblingMatches filterTagName filterValue)
                         (before r (getElementsByTagName parent name)))
                    < List.length
                        (filter (siblingMatches filterTagName filterValue)
                           (getElementsByTagName parent name)))%nat).
    { rewrite Hpost at 2. rewrite filter_app, length_app. simpl. rewrite Hself.
      cbn [List.length]. lia. }
    split; [lia |]. split; intros H; [lia | discriminate H].
  - split; [lia |]. split; reflexivity.
Qed.

Lemma getElementIndex_range_witness :
  (In thirdNote (getElementsByTagName scoreVoices "note")
   /\ In documentElement (getElementsByTagName scoreVoices "score-partwise"))
  /\ (exists parent, parentElement thirdNote = Some parent)
  /\ getElementIndex thirdNote "note" "voice" 1 = Returned 1
  /\ getElementIndex thirdNote "note" "voice" 2 = Returned (-1)
  /\ getElementIndex documentElement "score-partwise" "voice" 1 = Threw TypeError.
Proof.
  assert (H : In thirdNote (getElementsByTagName scoreVoices "note"))
    by (vm_compute; right; right; left; reflexivity).
  assert (Hroot : In documentElement (getElementsByTagName scoreVoices "score-partwise"))
    by (vm_compute; left; reflexivity).
  split; [exact (conj H Hroot) |].
  pose proof (getElementIndex_range scoreVoices "note" "voice" 1 thirdNote H) as (_ & H1).
  pose proof (getElementIndex_range scoreVoices "note" "voice" 2 thirdNote H) as (_ & H2).
  pose proof (getElementIndex_range scoreVoices "score-partwise" "voice" 1 documentElement
                Hroot) as (_ & H3).
  destruct (parentElement thirdNote) as [parent |] eqn:Hp; [| discriminate Hp].
  destruct H1 as (index1 & E1 & _). destruct H2 as (index2 & E2 & _).
  split; [exists parent; reflexivity |].
  split; [rewrite E1; vm_compute in E1; symmetry; exact E1 |].
  split; [rewrite E2; vm_compute in E2; symmetry; exact E2 |].
  exact H3.
Defined.

Lemma indexOfFrom_found {A : Type} (eqb : A -> A -> bool) v l :
  forall i k,
    0 <= i -> indexOfFrom eqb v l i = k -> i <= k ->
    exists x, nth_error l (Z.to_nat (k - i)) = Some x /\ eqb x v = true.
Proof.
  induction l as [| y l IH]; intros i k Hi H Hk; simpl in H.
  - lia.
  - destruct (eqb y v) eqn:E.
    + subst k. replace (i - i) with 0 by lia. exists y. split; [reflexivity | exact E].
    + assert (Hlow : forall j, indexOfFrom eqb v l j = -1 \/ j <= indexOfFrom eqb v l j).
      { clear. induction l as [| z l IH]; intros j; simpl; [left; reflexivity |].
        destruct (eqb z v); [right; lia |]. destruct (IH (j + 1)) as [H | H]; [left | right]; lia. }
      destruct (Hlow (i + 1)) as [Hneg | Hge]; [rewrite Hneg in H; lia |].
      rewrite H in Hge.
      destruct (IH (i + 1) k ltac:(lia) H Hge) as (x & Hx & Heq).
      exists x. split; [| exact Heq].
      replace (Z.to_nat (k - i)) with (S (Z.to_nat (k - (i + 1)))) by lia. exact Hx.
Qed.

(** X5.  Two elements with the same parent that [getElementIndex] gives the
    same index, other than -1, are the same element: siblings that pass the
    filter are numbered without repetition. *)
Theorem getElementIndex_injective r1 r2 name filterTagName filterValue index :
  parentElement r1 = parentElement r2 ->
  getElementIndex r1 name filterTagName filterValue = Returned index ->
  getElementIndex r2 name filterTagName filterValue = Returned index ->
  0 <= index ->
  sameElement r1 r2 = true.
Proof.
  unfold getElementIndex, indexOf. intros Hp H1 H2 Hi. rewrite <- Hp in H2.
  destruct (parentElement r1) as [parent |]; [| discriminate H1].
  inversion H1 as [E1]. inversion H2 as [E2]. clear H1 H2.
  destruct (indexOfFrom_found _ _ _ 0 index (Z.le_refl 0) E1 Hi) as (x1 & Hx1 & Hs1).
  destruct (indexOfFrom_found _ _ _ 0 index (Z.le_refl 0) E2 Hi) as (x2 & Hx2 & Hs2).
  rewrite Hx1 in Hx2. inversion Hx2; subst x2.
  apply sameElement_true in Hs1, Hs2. apply sameElement_true. congruence.
Qed.

Lemma getElementIndex_injective_witness :
  match firstNote scoreExact with
  | Some r =>
      parentElement r = parentElement r
      /\ getElementIndex r "note" "voice" 1 = Returned 0
      /\ 0 <= 0
      /\ sameElement r r = true
  | None => False
  end.
Proof.
  destruct (firstNote scoreExact) as [r |] eqn:E; [| discriminate E].
  assert (H : getElementIndex r "note" "voice" 1 = Returned 0).
  { vm_compute in E. inversion E. vm_compute. reflexivity. }
  assert (H0 : 0 <= 0) by lia.
  exact (conj eq_refl (conj H (conj H0
           (getElementIndex_injective r r "note" "voice" 1 0 eq_refl H H H0)))).
Defined.

Lemma filter_all {A : Type} (l : list A) : filter (fun _ => true) l = l.
Proof. induction l as [| x l IH]; simpl; [reflexivity | rewrite IH; reflexivity]. Qed.

(** X6.  For an element with tag [tagName] found by [getElementsByTagName]:
    when it has no parent element (the document element), [getNodeIndex]
    throws a [TypeError]; otherwise [getNodeIndex] returns its 0-based rank
    among the [tagName] descendants of its parent, in document order: it is
    never -1 and is below their number. *)
Theorem getNodeIndex_rank x tagName r :
  In r (getElementsByTagName x tagName) ->
  (path x <> [] -> parentElement r <> None)
  /\ match parentElement r with
     | None => getNodeIndex r tagName = Threw TypeError
     | Some parent =>
         getNodeIndex r tagName
         = Returned (Z.of_nat (List.length (before r (getElementsByTagName parent tagName))))
         /\ (List.length (before r (getElementsByTagName parent tagName))
             < List.length (getElementsByTagName parent tagName))%nat
     end.
Proof.
  intros Hin. split.
  { intros Hx. destruct (getElementsByTagName_parented _ _ _ Hx Hin) as (parent & Hp & _).
    congruence. }
  destruct (parentElement r) as [parent |] eqn:Hparent;
    [| unfold getNodeIndex; rewrite Hparent; reflexivity].
  pose proof (getElementsByTagName_parent _ _ _ _ Hin Hparent) as Hsib.
  split.
  - unfold getNodeIndex, indexOf. rewrite Hparent. f_equal.
    pose proof (indexOfFrom_filter (fun _ => true) r _
                  (getElementsByTagName_NoDup parent tagName) Hsib 0) as H.
    rewrite !filter_all in H. rewrite H. lia.
  - destruct (before_split r _ Hsib (getElementsByTagName_NoDup parent tagName))
      as (post & Hpost).
    rewrite Hpost at 2. rewrite length_app. simpl. lia.
Qed.

Lemma getNodeIndex_rank_witness :
  (In thirdNote (getElementsByTagName scoreVoices "note")
   /\ In documentElement (getElementsByTagName scoreVoices "score-partwise"))
  /\ getNodeIndex thirdNote "note" = Returned 2
  /\ getNodeIndex documentElement "score-partwise" = Threw TypeError.
Proof.
  assert (H : In thirdNote (getElementsByTagName scoreVoices "note"))
    by (vm_compute; right; right; left; reflexivity).
  assert (Hroot : In documentElement (getElementsByTagName scoreVoices "score-partwise"))
    by (vm_compute; left; reflexivity).
  split; [exact (conj H Hroot) |].
  pose proof (getNodeIndex_rank scoreVoices "note" thirdNote H) as (_ & H1).
  pose proof (getNodeIndex_rank scoreVoices "score-partwise" documentElement Hroot)
    as (_ & H2).
  destruct (parentElement thirdNote) as [parent |] eqn:Hp; [| discriminate Hp].
  destruct H1 as (E1 & _).
  split; [| exact H2].
  rewrite E1. vm_compute in Hp. inversion Hp as [Hparent]. vm_compute. reflexivity.
Defined.

(** ** getNote and the voice table *)

Lemma keyEq_eq a b : keyEq a b = true <-> a = b.
Proof.
  destruct a as [| x], b as [| y]; simpl; split; intros H; try reflexivity;
    try discriminate.
  - apply Z.eqb_eq in H. congruence.
  - inversion H. apply Z.eqb_refl.
Qed.

Lemma slotGet_slotSet_other {A : Type} n n' (v : A) l :
  n <> n' -> slotGet n' (slotSet n v l) = slotGet n' l.
Proof.
  unfold slotGet. revert n' l. induction n as [| n IH]; intros [| n'] [| x l] Hne; simpl;
    try reflexivity; try contradiction.
  - destruct n'; reflexivity.
  - rewrite IH by congruence. destruct n'; reflexivity.
  - apply IH. congruence.
Qed.

Lemma propGet_propSet_other {A : Type} k k' (v : A) l :
  keyEq k k' = false -> propGet k' (propSet k v l) = propGet k' l.
Proof.
  intros Hne. assert (Hne' : keyEq k' k = false).
  { destruct (keyEq k' k) eqn:E; [| reflexivity]. apply keyEq_eq in E. subst.
    rewrite keyEq_refl in Hne. discriminate Hne. }
  induction l as [| [k1 v1] l IH]; simpl.
  - rewrite Hne'. reflexivity.
  - destruct (keyEq k k1) eqn:E; simpl.
    + apply keyEq_eq in E. subst k1. rewrite Hne'. reflexivity.
    + rewrite IH. reflexivity.
Qed.

Lemma arrGet_arrSet_other {A : Type} (a : JsArray A) k k' v :
  keyEq k k' = false -> arrGet (arrSet a k v) k' = arrGet a k'.
Proof.
  intros Hne. unfold arrGet, arrSet.
  destruct k as [| z], k' as [| z']; simpl in *; try discriminate.
  - destruct (isArrayIndex z'); [reflexivity | apply propGet_propSet_other; reflexivity].
  - destruct (isArrayIndex z); simpl; [reflexivity | apply propGet_propSet_other; reflexivity].
  - destruct (isArrayIndex z) eqn:Ez, (isArrayIndex z') eqn:Ez'; simpl; try reflexivity.
    + apply slotGet_slotSet_other. unfold isArrayIndex in Ez, Ez'.
      apply andb_true_iff in Ez, Ez'. apply Z.eqb_neq in Hne. lia.
    + apply propGet_propSet_other. exact Hne.
Qed.

Lemma arrGet_sortTable_eq t k :
  arrGet (sortTable t) k
  = option_map (fun l => if isIndexKey k then sortVoices l else l) (arrGet t k).
Proof.
  unfold arrGet, sortTable, isIndexKey. destruct k as [| z]; simpl.
  - destruct (propGet NaN (props t)); reflexivity.
  - destruct (isArrayIndex z).
    + unfold slotGet. rewrite nth_error_map.
      destruct (nth_error (slots t) (Z.to_nat z)) as [[u |] |]; reflexivity.
    + destruct (propGet (Num z) (props t)); reflexivity.
Qed.

Lemma insertSorted_In x y l : In y (insertSorted x l) <-> y = x \/ In y l.
Proof.
  induction l as [| z l IH]; simpl; [intuition |].
  destruct (sortsBefore x z); simpl; [intuition |]. rewrite IH. intuition.
Qed.

Lemma isort_In (xs : list JsNumber) :
  forall acc y,
    In y (fold_left (fun acc x => insertSorted x acc) xs acc) <-> In y xs \/ In y acc.
Proof.
  induction xs as [| x xs IH]; intros acc y; simpl; [intuition |].
  rewrite IH, insertSorted_In. intuition.
Qed.

Lemma filled_In {A : Type} (l : list (option A)) x : In x (filled l) <-> In (Some x) l.
Proof.
  induction l as [| [y |] l IH]; simpl; [intuition | |].
  - rewrite IH. split; intros [H | H]; auto; left; congruence.
  - rewrite IH. split; [auto | intros [H | H]; [discriminate | exact H]].
Qed.

Lemma sortVoices_In voices v : In v (sortVoices voices) <-> In v voices.
Proof.
  unfold sortVoices. rewrite in_app_iff, in_map_iff. split.
  - intros [(x & Hx & Hin) | Hin].
    + subst v. apply isort_In in Hin. destruct Hin as [Hin | []]. apply filled_In. exact Hin.
    + apply filter_In in Hin. apply Hin.
  - intros Hin. destruct v as [x |].
    + left. exists x. split; [reflexivity |]. apply isort_In. left. apply filled_In. exact Hin.
    + right. apply filter_In. split; [exact Hin | reflexivity].
Qed.

Lemma insertSorted_length x l : List.length (insertSorted x l) = S (List.length l).
Proof.
  induction l as [| z l IH]; simpl; [reflexivity |].
  destruct (sortsBefore x z); simpl; [reflexivity | rewrite IH; reflexivity].
Qed.

Lemma isort_length (xs : list JsNumber) :
  forall acc,
    List.length (fold_left (fun acc x => insertSorted x acc) xs acc)
    = (List.length xs + List.length acc)%nat.
Proof.
  induction xs as [| x xs IH]; intros acc; simpl; [reflexivity |].
  rewrite IH, insertSorted_length. lia.
Qed.

Lemma sortVoices_length voices : List.length (sortVoices voices) = List.length voices.
Proof.
  unfold sortVoices. rewrite length_app, length_map, isort_length. simpl.
  induction voices as [| [x |] l IH]; simpl; lia.
Qed.

Lemma getNote_table r t : snd (getNote r t) = sortTable (registered r t).
Proof.
  unfold getNote, registered.
  destruct (getUniqueElement (getElementsByTagName r "pitch")); [| reflexivity].
  match goal with
  | |- snd (match ?x with _ => _ end) = _ => destruct x
  end; reflexivity.
Qed.

Lemma indexOf_In v l i : indexOfFrom strictEq v l i <> -1 -> In v l.
Proof.
  revert i. induction l as [| x l IH]; intros i H; simpl in H; [contradiction H; reflexivity |].
  destruct (strictEq x v) eqn:E; [| right; eapply IH; exact H].
  left. destruct x as [[| a] |], v as [[| b] |]; simpl in E; try discriminate;
    [apply Z.eqb_eq in E; congruence | reflexivity].
Qed.

Lemma registered_keeps r t k l v :
  arrGet t k = Some l -> In v l ->
  exists l', arrGet (registered r t) k = Some l' /\ In v l'.
Proof.
  intros Hget Hin. unfold registered.
  set (staff := getUniqueInteger (getElementsByTagName r "staff")).
  set (voice := getUniqueInteger (getElementsByTagName r "voice")).
  destruct (keyEq (minus1 staff) k) eqn:Hk.
  - apply keyEq_eq in Hk. rewrite Hk, Hget.
    destruct ((0 <? Z.of_nat (List.length l)) && (indexOf strictEq voice l =? -1)).
    + exists (l ++ [voice]). split; [apply arrGet_arrSet | apply in_or_app; left; exact Hin].
    + exists l. split; assumption.
  - exists l. split; [| exact Hin].
    destruct (arrGet t (minus1 staff)) as [svn |].
    + destruct ((0 <? Z.of_nat (List.length svn)) && (indexOf strictEq voice svn =? -1));
        [rewrite arrGet_arrSet_other by exact Hk |]; exact Hget.
    + rewrite arrGet_arrSet_other by exact Hk. exact Hget.
Qed.

Lemma registered_voice r t :
  arrGet t (staffKey r) <> Some [] ->
  exists l, arrGet (registered r t) (staffKey r) = Some l /\ In (voiceOf r) l.
Proof.
  unfold registered, staffKey, voiceOf. intros Hne.
  set (staff := getUniqueInteger (getElementsByTagName r "staff")) in *.
  set (voice := getUniqueInteger (getElementsByTagName r "voice")).
  destruct (arrGet t (minus1 staff)) as [svn |] eqn:Hget.
  - destruct (0 <? Z.of_nat (List.length svn)) eqn:Hlen.
    + destruct (indexOf strictEq voice svn =? -1) eqn:Hidx; simpl.
      * exists (svn ++ [voice]). split; [apply arrGet_arrSet |].
        apply in_or_app. right. left. reflexivity.
      * exists svn. split; [exact Hget |]. apply Z.eqb_neq in Hidx.
        eapply indexOf_In. exact Hidx.
    + exfalso. apply Hne. destruct svn; [reflexivity |]. simpl in Hlen. discriminate Hlen.
  - exists [voice]. split; [apply arrGet_arrSet | left; reflexivity].
Qed.

(** X7.  [getNote] never takes a voice out of [staffVoicesNumbers]: a
    voice filed under any key before the call is filed under that key after
    it, whether the call returns or throws.  And unless the array under the
    key of the note's staff was empty, the note's own voice is filed there
    after the call. *)
Theorem getNote_registers_and_keeps r t :
  (forall k l v, arrGet t k = Some l -> In v l ->
     exists l', arrGet (snd (getNote r t)) k = Some l' /\ In v l')
  /\ (arrGet t (staffKey r) <> Some [] ->
      exists l, arrGet (snd (getNote r t)) (staffKey r) = Some l /\ In (voiceOf r) l).
Proof.
  rewrite getNote_table. split.
  - intros k l v Hget Hin.
    destruct (registered_keeps r t k l v Hget Hin) as (l1 & H1 & Hin1).
    rewrite arrGet_sortTable_eq, H1. simpl. eexists. split; [reflexivity |].
    destruct (isIndexKey k); [apply sortVoices_In |]; exact Hin1.
  - intros Hne. destruct (registered_voice r t Hne) as (l1 & H1 & Hin1).
    rewrite arrGet_sortTable_eq, H1. simpl. eexists. split; [reflexivity |].
    destruct (isIndexKey (staffKey r)); [apply sortVoices_In |]; exact Hin1.
Qed.

Lemma getNote_registers_and_keeps_witness :
  match firstNote scoreVoiceOrder with
  | Some r =>
      arrGet (emptyArray : Table) (staffKey r) <> Some []
      /\ exists l, arrGet (snd (getNote r emptyArray)) (staffKey r) = Some l
                   /\ In (voiceOf r) l
  | None => False
  end.
Proof.
  destruct (firstNote scoreVoiceOrder) as [r |] eqn:E; [| discriminate E].
  assert (H : arrGet (emptyArray : Table) (staffKey r) <> Some []).
  { unfold arrGet, emptyArray. destruct (staffKey r) as [| z]; simpl; [discriminate |].
    destruct (isArrayIndex z); [| simpl; discriminate]. unfold slotGet.
    destruct (Z.to_nat z); simpl; discriminate. }
  exact (conj H (proj2 (getNote_registers_and_keeps r emptyArray) H)).
Defined.

Lemma getNote_returned r t nt t' :
  getNote r t = (Returned nt, t') ->
  t' = sortTable (registered r t)
  /\ exists voices,
      arrGet t' (staffKey r) = Some voices
      /\ Note.staffVoice nt = indexOf strictEq (voiceOf r) voices + 1.
Proof.
  intros H. pose proof (getNote_table r t) as Ht. rewrite H in Ht. simpl in Ht.
  split; [exact Ht |]. unfold getNote in H.
  destruct (getUniqueElement (getElementsByTagName r "pitch")); [| discriminate H].
  match type of H with
  | match ?x with _ => _ end = _ => destruct x as [voices |] eqn:E; [| discriminate H]
  end.
  exists voices. split.
  - rewrite Ht. unfold staffKey, registered. exact E.
  - inversion H. reflexivity.
Qed.

Lemma indexOf_bounds v l :
  In v l -> strictEq v v = true ->
  forall i, i <= indexOfFrom strictEq v l i < i + Z.of_nat (List.length l).
Proof.
  induction l as [| x l IH]; intros Hin Hrefl i; [destruct Hin |].
  cbn [indexOfFrom List.length]. destruct (strictEq x v) eqn:E; [lia |].
  destruct Hin as [Hx | Hin]; [subst x; congruence |].
  specialize (IH Hin Hrefl (i + 1)). lia.
Qed.

Lemma indexOf_NaN l i : indexOfFrom strictEq (Some NaN) l i = -1.
Proof.
  revert i. induction l as [| x l IH]; intros i; simpl; [reflexivity |].
  destruct x as [[| a] |]; simpl; apply IH.
Qed.

(** X8.  The staffVoice of the note [getNote] returns is a 1-based position
    in the array filed under the key of the note's staff: unless that array
    was empty before the call, it lies between 1 and the length of the
    array after the call when the note's voice is not [NaN], and it is 0
    when the voice is [NaN]. *)
Theorem getNote_staffVoice_range r t nt t' :
  getNote r t = (Returned nt, t') ->
  arrGet t (staffKey r) <> Some [] ->
  exists voices,
    arrGet t' (staffKey r) = Some voices
    /\ (voiceOf r <> Some NaN ->
        1 <= Note.staffVoice nt <= Z.of_nat (List.length voices))
    /\ (voiceOf r = Some NaN -> Note.staffVoice nt = 0).
Proof.
  intros Hget Hne.
  destruct (getNote_returned _ _ _ _ Hget) as (Ht & voices & Hvoices & Hsv).
  exists voices. split; [exact Hvoices |].
  assert (Hin : In (voiceOf r) voices).
  { destruct (registered_voice r t Hne) as (l1 & H1 & Hin1).
    rewrite Ht, arrGet_sortTable_eq, H1 in Hvoices. simpl in Hvoices.
    inversion Hvoices as [Hv].
    destruct (isIndexKey (staffKey r)); [apply sortVoices_In |]; exact Hin1. }
  split.
  - intros Hnan. rewrite Hsv. unfold indexOf.
    assert (Hrefl : strictEq (voiceOf r) (voiceOf r) = true).
    { destruct (voiceOf r) as [[| a] |]; simpl;
        [contradiction Hnan; reflexivity | apply Z.eqb_refl | reflexivity]. }
    pose proof (indexOf_bounds _ _ Hin Hrefl 0). lia.
  - intros Hnan. rewrite Hsv, Hnan. unfold indexOf. rewrite indexOf_NaN. reflexivity.
Qed.

Lemma getNote_staffVoice_range_witness :
  exists nt t',
    getNote voiceTwoNote emptyArray = (Returned nt, t')
    /\ arrGet (emptyArray : Table) (staffKey voiceTwoNote) <> Some []
    /\ voiceOf voiceTwoNote <> Some NaN
    /\ exists voices,
        arrGet t' (staffKey voiceTwoNote) = Some voices
        /\ 1 <= Note.staffVoice nt <= Z.of_nat (List.length voices).
Proof.
  destruct (getNote voiceTwoNote emptyArray) as [[nt | e] t'] eqn:G;
    [| vm_compute in G; discriminate G].
  exists nt, t'.
  assert (Hne : arrGet (emptyArray : Table) (staffKey voiceTwoNote) <> Some [])
    by (vm_compute; discriminate).
  assert (Hv : voiceOf voiceTwoNote <> Some NaN) by (vm_compute; discriminate).
  destruct (getNote_staffVoice_range _ _ _ _ G Hne) as (voices & Hvoices & Hrange & _).
  split; [reflexivity |]. split; [exact Hne |]. split; [exact Hv |].
  exists voices. split; [exact Hvoices | exact (Hrange Hv)].
Defined.

(** The insertion sort of [sortVoices] leaves the numbers ascending. *)
Lemma insertSorted_sorted x l :
  StronglySorted (fun u v => ascends (Some u) (Some v)) l ->
  StronglySorted (fun u v => ascends (Some u) (Some v)) (insertSorted x l).
Proof.
  induction 1 as [| y l Hl IH Hy]; simpl; [repeat constructor |].
  destruct (sortsBefore x y) eqn:E.
  - constructor; [constructor; assumption |].
    destruct x as [| a], y as [| b]; simpl in E; try discriminate. apply Z.ltb_lt in E.
    constructor.
    + intros a' b' Ha Hb. inversion Ha; inversion Hb; subst. lia.
    + rewrite Forall_forall in Hy |- *. intros z Hz a' c Ha Hc.
      inversion Ha; subst a'. specialize (Hy z Hz b c eq_refl Hc). lia.
  - constructor; [exact IH |].
    apply Forall_forall. intros z Hz. apply insertSorted_In in Hz.
    destruct Hz as [Hz | Hz].
    + subst z. intros b a Hb Ha. inversion Hb; inversion Ha; subst.
      simpl in E. apply Z.ltb_ge in E. exact E.
    + rewrite Forall_forall in Hy. apply Hy. exact Hz.
Qed.

Lemma isort_sorted xs :
  forall acc,
    StronglySorted (fun u v => ascends (Some u) (Some v)) acc ->
    StronglySorted (fun u v => ascends (Some u) (Some v))
      (fold_left (fun acc x => insertSorted x acc) xs acc).
Proof.
  induction xs as [| x xs IH]; intros acc Hacc; simpl; [exact Hacc |].
  apply IH. apply insertSorted_sorted. exact Hacc.
Qed.

Lemma sortVoices_sorted voices : StronglySorted ascends (sortVoices voices).
Proof.
  unfold sortVoices.
  set (nums := fold_left (fun acc x => insertSorted x acc) (filled voices) []).
  assert (Hnums : StronglySorted (fun u v => ascends (Some u) (Some v)) nums)
    by (apply isort_sorted; constructor).
  set (undefineds := filter (fun v : option JsNumber =>
                               match v with None => true | Some _ => false end) voices).
  assert (Hund : Forall (fun v => v = None) undefineds).
  { apply Forall_forall. intros v Hv. apply filter_In in Hv. destruct Hv as [_ Hv].
    destruct v; [discriminate Hv | reflexivity]. }
  clearbody nums undefineds. induction Hnums as [| x l Hl IH Hx]; simpl.
  - induction Hund as [| v l Hv Hl IH]; constructor; [exact IH |].
    subst v. apply Forall_forall. intros w _ a b Ha. discriminate Ha.
  - constructor; [exact IH |]. apply Forall_app. split.
    + rewrite Forall_forall in Hx |- *. intros w Hw. apply in_map_iff in Hw.
      destruct Hw as (y & Hy & Hin). subst w. apply Hx. exact Hin.
    + rewrite Forall_forall in Hund |- *. intros w Hw a b _ Hb.
      rewrite (Hund w Hw) in Hb. discriminate Hb.
Qed.

Lemma strictEq_Num_false u a : strictEq u (Some (Num a)) = false -> u <> Some (Num a).
Proof. intros H E. subst u. simpl in H. rewrite Z.eqb_refl in H. discriminate H. Qed.

Lemma strictEq_Num_true u a : strictEq u (Some (Num a)) = true -> u = Some (Num a).
Proof.
  destruct u as [[| x] |]; simpl; try discriminate. intros H. apply Z.eqb_eq in H. congruence.
Qed.

Lemma sorted_indexOf l :
  StronglySorted ascends l ->
  forall a b i,
    In (Some (Num a)) l -> In (Some (Num b)) l -> a < b ->
    indexOfFrom strictEq (Some (Num a)) l i < indexOfFrom strictEq (Some (Num b)) l i.
Proof.
  induction 1 as [| u l Hl IH Hu]; intros a b i Ha Hb Hab; [destruct Ha |].
  cbn [indexOfFrom].
  destruct (strictEq u (Some (Num a))) eqn:Ea.
  - apply strictEq_Num_true in Ea. subst u.
    assert (Eb : strictEq (Some (Num a)) (Some (Num b)) = false)
      by (simpl; apply Z.eqb_neq; lia).
    rewrite Eb. destruct Hb as [Hb | Hb]; [inversion Hb; lia |].
    pose proof (indexOf_bounds (Some (Num b)) l Hb (Z.eqb_refl b) (i + 1)). lia.
  - apply strictEq_Num_false in Ea.
    destruct Ha as [Ha | Ha]; [contradiction |].
    destruct (strictEq u (Some (Num b))) eqn:Eb.
    + apply strictEq_Num_true in Eb. subst u. rewrite Forall_forall in Hu.
      specialize (Hu _ Ha b a eq_refl eq_refl). lia.
    + apply strictEq_Num_false in Eb.
      destruct Hb as [Hb | Hb]; [contradiction |].
      apply IH; assumption.
Qed.

(** X9.  After [getNote], in every array of voices filed under an array
    index and free of [NaN], lower voice numbers come first: of two voice
    numbers in it the smaller has the smaller [indexOf], so the smaller
    staffVoice. *)
Theorem getNote_orders_voices r t z voices a b :
  isArrayIndex z = true ->
  arrGet (snd (getNote r t)) (Num z) = Some voices ->
  ~ In (Some NaN) voices ->
  In (Some (Num a)) voices ->
  In (Some (Num b)) voices ->
  a < b ->
  indexOf strictEq (Some (Num a)) voices < indexOf strictEq (Some (Num b)) voices.
Proof.
  intros Hz Hget _ Ha Hb Hab. rewrite getNote_table, arrGet_sortTable_eq in Hget.
  cbn [isIndexKey] in Hget. rewrite Hz in Hget.
  destruct (arrGet (registered r t) (Num z)) as [l0 |]; cbn [option_map] in Hget;
    [| discriminate Hget].
  inversion Hget; subst voices.
  apply sorted_indexOf; [apply sortVoices_sorted | assumption ..].
Qed.

Lemma getNote_orders_voices_witness :
  isArrayIndex 0 = true
  /\ arrGet (snd (getNote voiceOneNote (snd (getNote voiceTwoNote emptyArray)))) (Num 0)
     = Some [Some (Num 1); Some (Num 2)]
  /\ indexOf strictEq (Some (Num 1)) [Some (Num 1); Some (Num 2)]
     < indexOf strictEq (Some (Num 2)) [Some (Num 1); Some (Num 2)].
Proof.
  assert (Hz : isArrayIndex 0 = true) by reflexivity.
  assert (Hget : arrGet (snd (getNote voiceOneNote (snd (getNote voiceTwoNote emptyArray))))
                   (Num 0) = Some [Some (Num 1); Some (Num 2)])
    by (vm_compute; reflexivity).
  assert (Hnan : ~ In (Some NaN) [Some (Num 1); Some (Num 2)]).
  { intros [H | [H | []]]; discriminate H. }
  assert (H1 : In (Some (Num 1)) [Some (Num 1); Some (Num 2)]) by (left; reflexivity).
  assert (H2 : In (Some (Num 2)) [Some (Num 1); Some (Num 2)])
    by (right; left; reflexivity).
  assert (Hlt : 1 < 2) by lia.
  exact (conj Hz (conj Hget
           (getNote_orders_voices _ _ 0 _ 1 2 Hz Hget Hnan H1 H2 Hlt))).
Defined.

(** X10.  [getNote] throws a [TypeError] exactly when the note element does
    not contain exactly one [pitch] element; otherwise it returns. *)
Theorem getNote_throws_without_unique_pitch r t :
  fst (getNote r t) = Threw TypeError
  <-> (forall pitch, getElementsByTagName r "pitch" <> [pitch]).
Proof.
  split.
  - intros H pitch Hp. destruct (getNote_returns r t pitch Hp) as (nt & t' & Hret).
    rewrite Hret in H. discriminate H.
  - intros H. unfold getNote.
    destruct (getElementsByTagName r "pitch") as [| p [| q l]]; simpl; try reflexivity.
    contradiction (H p). reflexivity.
Qed.

(** * Further properties of [findPattern] *)

(** ** Occurrence numbers *)

Lemma numbered_snoc occurrences occ :
  numbered occurrences ->
  PatternOccurrence.occurenceNumber occ = Z.of_nat (List.length occurrences) + 1 ->
  numbered (occurrences ++ [occ]).
Proof.
  unfold numbered. intros H Hocc.
  rewrite map_app, length_app, H. simpl List.length. rewrite Nat.add_1_r, seq_S, map_app.
  simpl. rewrite Hocc. f_equal. f_equal. lia.
Qed.

Lemma classify_counted pattern po s : Counted s -> Counted (classify pattern po s).
Proof.
  intros (He & Hne & Ha & Hna). unfold classify.
  destruct (patternLength pattern - matchingCountOf pattern po =? 0).
  - unfold Counted. simpl. rewrite length_app. simpl List.length.
    split; [lia |]. split; [| split; assumption].
    apply numbered_snoc; [exact Hne |]. simpl. lia.
  - destruct (ratioAbove (matchingCountOf pattern po) pattern).
    + unfold Counted. simpl. rewrite length_app. simpl List.length.
      split; [exact He |]. split; [exact Hne |]. split; [lia |].
      apply numbered_snoc; [exact Hna |]. simpl. lia.
    + repeat split; assumption.
Qed.

Lemma forEach_invariant {A S : Type} (Inv : S -> Prop) (body : A -> S -> M S) xs :
  (forall x s t s' t', body x s t = (Returned s', t') -> Inv s -> Inv s') ->
  forall s t s' t', forEach body xs s t = (Returned s', t') -> Inv s -> Inv s'.
Proof.
  intros Hbody s t s' t' H.
  apply (forEach_rel (fun a b => Inv a -> Inv b) body) with (xs := xs) (t := t) (t' := t');
    auto.
  intros x a u a' u' _. apply Hbody.
Qed.

Lemma scanPart_counted pattern partElement s t s' t' :
  scanPart pattern partElement s t = (Returned s', t') -> Counted s -> Counted s'.
Proof.
  unfold scanPart. intros H Hs.
  eapply (forEach_invariant Counted); [| exact H | exact Hs].
  intros staffVoices a u a' u' Hstaff. unfold scanStaff in Hstaff.
  eapply (forEach_invariant Counted); [| exact Hstaff].
  intros lane b v b' v' Hlane. unfold scanLane in Hlane.
  eapply (forEach_invariant Counted); [| exact Hlane].
  intros i c w c' w' Hw Hc. unfold window in Hw.
  apply bind_returned in Hw. destruct Hw as (po & w1 & _ & Hret).
  unfold ret in Hret. inversion Hret. apply classify_counted. exact Hc.
Qed.

(** X11.  The occurrences of each result array are numbered 1, 2, 3, ... in
    the order they were found: the occurenceNumber of the occurrence at
    index i is i + 1, for the exact and for the approximate array. *)
Theorem occurrences_numbered_in_order xml pattern t found t' :
  findPattern xml pattern t = (Returned found, t') ->
  map PatternOccurrence.occurenceNumber (Found.exactPatternOccurrences found)
  = map Z.of_nat (seq 1 (List.length (Found.exactPatternOccurrences found)))
  /\ map PatternOccurrence.occurenceNumber (Found.approximatePatternOccurrences found)
     = map Z.of_nat (seq 1 (List.length (Found.approximatePatternOccurrences found))).
Proof.
  unfold findPattern. intros H. apply bind_returned in H.
  destruct H as (s & t1 & Hscan & Hret). unfold ret in Hret. inversion Hret. simpl.
  assert (Hs : Counted s).
  { eapply (forEach_invariant Counted); [| exact Hscan |].
    - intros part a u a' u'. apply scanPart_counted.
    - repeat split. }
  destruct Hs as (_ & He & _ & Ha). split; assumption.
Qed.

Lemma occurrences_numbered_in_order_witness :
  findPattern scoreVoiceOrder patternA emptyArray
  = (Returned (runOf scoreVoiceOrder patternA), tableAfter scoreVoiceOrder patternA)
  /\ map PatternOccurrence.occurenceNumber
       (Found.exactPatternOccurrences (runOf scoreVoiceOrder patternA))
     = [1; 2].
Proof.
  assert (Hrun : findPattern scoreVoiceOrder patternA emptyArray
                 = (Returned (runOf scoreVoiceOrder patternA),
                    tableAfter scoreVoiceOrder patternA))
    by (vm_compute; reflexivity).
  split; [exact Hrun |].
  rewrite (proj1 (occurrences_numbered_in_order _ _ _ _ _ Hrun)).
  vm_compute. reflexivity.
Defined.

(** ** The notes of an occurrence *)

Lemma matchingCountOf_nil pattern : matchingCountOf pattern [] = 0.
Proof. unfold matchingCountOf. destruct pattern; reflexivity. Qed.

Lemma ratioAbove_nonzero matchingCount pattern :
  ratioAbove matchingCount pattern = true -> matchingCount <> 0.
Proof.
  intros H E. subst matchingCount. apply ratioAbove_spec in H.
  unfold Qdiv in H. rewrite Qmult_0_l in H. revert H. apply Qle_not_lt. discriminate.
Qed.

(** X12.  With a non-empty pattern every occurrence, exact or approximate,
    holds at least one note and at most as many notes as the pattern has
    entries. *)
Theorem occurrence_size_bounds xml pattern t found t' occ :
  findPattern xml pattern t = (Returned found, t') ->
  pattern <> [] ->
  In occ (Found.exactPatternOccurrences found ++ Found.approximatePatternOccurrences found) ->
  (1 <= List.length (PatternOccurrence.notes occ) <= List.length pattern)%nat.
Proof.
  intros Hrun Hne Hocc.
  destruct (findPattern_emitted _ _ _ _ _ Hrun) as (Hexact & Happrox).
  assert (Hk : 0 < patternLength pattern).
  { unfold patternLength. destruct pattern; [contradiction Hne; reflexivity |].
    cbn [List.length]. lia. }
  assert (Hsome : PatternOccurrence.matchingCount occ <> 0
                  /\ exists exact c lanes, Emitted exact pattern c lanes occ).
  { apply in_app_or in Hocc. destruct Hocc as [Hocc | Hocc].
    - destruct (Hexact occ Hocc) as (p & pe & _ & Hem). split; [| eauto].
      destruct Hem as (_ & _ & Hz). simpl in Hz. lia.
    - destruct (Happrox occ Hocc) as (p & pe & _ & Hem). split; [| eauto].
      destruct Hem as (_ & _ & _ & Hr). eapply ratioAbove_nonzero. exact Hr. }
  destruct Hsome as (Hmc & exact & c & lanes & Hem).
  pose proof (Aligned_length _ _ _ (Emitted_aligned _ _ _ _ _ Hem)) as Hlen.
  split; [| exact Hlen].
  destruct Hem as (_ & Hcount & _).
  destruct (PatternOccurrence.notes occ) as [| n ns]; [| cbn [List.length]; lia].
  rewrite matchingCountOf_nil in Hcount. contradiction.
Qed.

Lemma occurrence_size_bounds_witness :
  findPattern scoreNear patternCDEF emptyArray
  = (Returned foundNear, tableAfter scoreNear patternCDEF)
  /\ patternCDEF <> []
  /\ In (firstOf (Found.approximatePatternOccurrences foundNear))
        (Found.exactPatternOccurrences foundNear
         ++ Found.approximatePatternOccurrences foundNear)
  /\ (1 <= List.length
             (PatternOccurrence.notes (firstOf (Found.approximatePatternOccurrences foundNear)))
        <= List.length patternCDEF)%nat.
Proof.
  assert (Hrun : findPattern scoreNear patternCDEF emptyArray
                 = (Returned foundNear, tableAfter scoreNear patternCDEF))
    by (vm_compute; reflexivity).
  assert (Hne : patternCDEF <> []) by discriminate.
  assert (Hin : In (firstOf (Found.approximatePatternOccurrences foundNear))
                  (Found.exactPatternOccurrences foundNear
                   ++ Found.approximatePatternOccurrences foundNear))
    by (left; reflexivity).
  exact (conj Hrun (conj Hne (conj Hin
           (occurrence_size_bounds _ _ _ _ _ _ Hrun Hne Hin)))).
Defined.

Lemma Aligned_pitches prev ps ns :
  Aligned prev ps ns ->
  forall pattern,
    incl ps pattern ->
    (forall q, prev = Some q ->
       exists p, In p pattern /\ noteIsEqual (Some q) (Some p) = true) ->
    forall n, In n ns ->
      exists p, In p pattern /\ noteIsEqual (Some (NoteOccurrence.note n)) (Some p) = true.
Proof.
  induction 1 as [prev | prev p ps ns Hal IH | prev p ps n ns Hacc Hal IH];
    intros pattern Hincl Hprev m Hm.
  - destruct Hm.
  - apply (IH pattern); [intros x Hx; apply Hincl; right; exact Hx | exact Hprev | exact Hm].
  - assert (Hn : exists p', In p' pattern
                   /\ noteIsEqual (Some (NoteOccurrence.note n)) (Some p') = true).
    { unfold accepts in Hacc. apply orb_true_iff in Hacc. destruct Hacc as [H1 | H2].
      - apply andb_true_iff in H1. exists p. split; [apply Hincl; left; reflexivity | apply H1].
      - destruct prev as [q |]; [| discriminate H2].
        destruct (Hprev q eq_refl) as (p' & Hp' & Hq). exists p'. split; [exact Hp' |].
        eapply noteIsEqual_trans; eassumption. }
    destruct Hm as [Hm | Hm]; [subst m; exact Hn |].
    apply (IH pattern); [intros x Hx; apply Hincl; right; exact Hx | | exact Hm].
    intros q Hq. inversion Hq; subst q. exact Hn.
Qed.

(** X13.  [findPattern] reports no note whose pitch is foreign to the
    pattern: every note of every occurrence is pitch-equal to some pattern
    entry. *)
Theorem occurrence_notes_have_pattern_pitches xml pattern t found t' occ n :
  findPattern xml pattern t = (Returned found, t') ->
  In occ (Found.exactPatternOccurrences found ++ Found.approximatePatternOccurrences found) ->
  In n (PatternOccurrence.notes occ) ->
  exists p, In p pattern /\ noteIsEqual (Some (NoteOccurrence.note n)) (Some p) = true.
Proof.
  intros Hrun Hocc Hn.
  destruct (findPattern_emitted _ _ _ _ _ Hrun) as (Hexact & Happrox).
  assert (Hem : exists exact c lanes, Emitted exact pattern c lanes occ).
  { apply in_app_or in Hocc. destruct Hocc as [Hocc | Hocc].
    - destruct (Hexact occ Hocc) as (p & pe & _ & Hem). eauto.
    - destruct (Happrox occ Hocc) as (p & pe & _ & Hem). eauto. }
  destruct Hem as (exact & c & lanes & Hem).
  apply (Aligned_pitches None pattern (PatternOccurrence.notes occ)
           (Emitted_aligned _ _ _ _ _ Hem) pattern);
    [apply incl_refl | intros q Hq; discriminate Hq | exact Hn].
Qed.

Lemma occurrence_notes_have_pattern_pitches_witness :
  findPattern scoreRepeat patternABA emptyArray
  = (Returned foundRepeat, tableAfter scoreRepeat patternABA)
  /\ In (firstOf (Found.exactPatternOccurrences foundRepeat))
        (Found.exactPatternOccurrences foundRepeat
         ++ Found.approximatePatternOccurrences foundRepeat)
  /\ exists n,
      nth_error (PatternOccurrence.notes (firstOf (Found.exactPatternOccurrences foundRepeat))) 2
      = Some n
      /\ exists p, In p patternABA
                   /\ noteIsEqual (Some (NoteOccurrence.note n)) (Some p) = true.
Proof.
  assert (Hrun : findPattern scoreRepeat patternABA emptyArray
                 = (Returned foundRepeat, tableAfter scoreRepeat patternABA))
    by (vm_compute; reflexivity).
  assert (Hin : In (firstOf (Found.exactPatternOccurrences foundRepeat))
                  (Found.exactPatternOccurrences foundRepeat
                   ++ Found.approximatePatternOccurrences foundRepeat))
    by (left; reflexivity).
  split; [exact Hrun |]. split; [exact Hin |].
  eexists. split; [reflexivity |].
  apply (occurrence_notes_have_pattern_pitches _ _ _ _ _ _ _ Hrun Hin).
  right. right. left. reflexivity.
Defined.

(** ** Lanes of a part with several staves *)

(** X14.  In a part that declares more than one staff no scanned lane holds
    a rest: the entry at any index of a lane is the non-rest note of that
    rank, and a window starts at every entry of the lane. *)
Theorem several_staves_candidates_are_notes partElement lane :
  1 < orOne (getUniqueInteger (getElementsByTagName partElement "staves")) ->
  In lane (scannedLanes partElement) ->
  Forall (fun r => isNotRest r = true) lane
  /\ (forall i j, nth_error lane (i + j) = nth_error (filter isNotRest lane) (i + j))
  /\ windowStarts lane = seq 0 (List.length lane).
Proof.
  intros Hstaves Hlane.
  pose proof (several_staves_lanes_have_no_rests partElement lane Hstaves Hlane) as Hf.
  split; [| split].
  - rewrite <- Hf. apply Forall_forall. intros r Hr. apply filter_In in Hr. apply Hr.
  - intros i j. rewrite Hf. reflexivity.
  - unfold windowStarts. rewrite Hf. reflexivity.
Qed.

Lemma several_staves_candidates_are_notes_witness :
  1 < orOne (getUniqueInteger (getElementsByTagName twoStavesPart "staves"))
  /\ exists lane,
      In lane (scannedLanes twoStavesPart)
      /\ Forall (fun r => isNotRest r = true) lane
      /\ windowStarts lane = seq 0 (List.length lane).
Proof.
  assert (Hstaves : 1 < orOne (getUniqueInteger (getElementsByTagName twoStavesPart "staves")))
    by (vm_compute; reflexivity).
  split; [exact Hstaves |].
  exists (hd [] (scannedLanes twoStavesPart)).
  assert (Hin : In (hd [] (scannedLanes twoStavesPart)) (scannedLanes twoStavesPart))
    by (vm_compute; left; reflexivity).
  destruct (several_staves_candidates_are_notes _ _ Hstaves Hin) as (Hall & _ & Hw).
  split; [exact Hin |]. split; [exact Hall | exact Hw].
Defined.

(** ** The pattern of processXML *)

Lemma Emitted_in_order pattern c lanes occ :
  Emitted true pattern c lanes occ ->
  pairwiseDistinct pattern ->
  Forall2 (fun n p => noteIsEqual (Some (NoteOccurrence.note n)) (Some p) = true)
    (PatternOccurrence.notes occ) pattern.
Proof.
  intros Hem Hdistinct.
  pose proof (Emitted_aligned _ _ _ _ _ Hem) as Hal.
  destruct Hem as (_ & Hmc & Hk). simpl in Hk.
  assert (Hfull : matchingCountOf pattern (PatternOccurrence.notes occ) = patternLength pattern)
    by (rewrite <- Hmc; lia).
  pose proof (matchingCountOf_full _ _ Hfull) as Hcov.
  pose proof (Aligned_length _ _ _ Hal) as Hlen.
  assert (Hkeys : NoDup (map pitchKey pattern)).
  { apply pairwiseDistinct_keys; [exact Hdistinct |].
    intros q Hq. destruct (Hcov q Hq) as (n & _ & Hn). exists (NoteOccurrence.note n).
    exact Hn. }
  assert (Hincl : incl (map pitchKey pattern)
            (map (fun n => pitchKey (NoteOccurrence.note n)) (PatternOccurrence.notes occ))).
  { intros k Hk'. apply in_map_iff in Hk'. destruct Hk' as (q & Hqk & Hq).
    destruct (Hcov q Hq) as (n & Hn & Heq). apply in_map_iff. exists n.
    split; [| exact Hn]. rewrite <- Hqk. symmetry. apply noteIsEqual_key. exact Heq. }
  pose proof (NoDup_incl_length Hkeys Hincl) as Hge. rewrite !length_map in Hge.
  apply (Aligned_positional None); [exact Hal | lia | intros q Hq; discriminate Hq |].
  apply (NoDup_incl_NoDup Hkeys); [rewrite !length_map; lia | exact Hincl].
Qed.

(** X15.  For the pattern that [processXML] searches, B flat, A, C, B, whose
    pitches are all different, every exact occurrence holds exactly four
    notes with the steps and alters B flat, A, C, B in this order. *)
Theorem processXML_exact_occurrences_are_BACH xml t found t' occ :
  findPattern xml processPattern t = (Returned found, t') ->
  In occ (Found.exactPatternOccurrences found) ->
  map (fun n => pitchKey (NoteOccurrence.note n)) (PatternOccurrence.notes occ)
  = [(Some "B"%string, Some (Num (-1))); (Some "A"%string, None);
     (Some "C"%string, None); (Some "B"%string, None)].
Proof.
  intros Hrun Hocc.
  destruct (findPattern_emitted _ _ _ _ _ Hrun) as (Hexact & _).
  destruct (Hexact occ Hocc) as (p & partElement & _ & Hem).
  assert (Hdistinct : pairwiseDistinct processPattern)
    by (unfold pairwiseDistinct, processPattern; repeat constructor).
  pose proof (Emitted_in_order _ _ _ _ Hem Hdistinct) as H.
  change [(Some "B"%string, Some (Num (-1))); (Some "A"%string, None);
          (Some "C"%string, None); (Some "B"%string, None)]
    with (map pitchKey processPattern).
  generalize dependent processPattern. intros pattern _ _ _ _ H.
  induction H as [| n q ns qs Hnq Hrest IH]; simpl; [reflexivity |].
  rewrite IH. f_equal. apply noteIsEqual_key. exact Hnq.
Qed.

Lemma processXML_exact_occurrences_are_BACH_witness :
  findPattern scoreBach processPattern emptyArray
  = (Returned foundBach, tableAfter scoreBach processPattern)
  /\ In (firstOf (Found.exactPatternOccurrences foundBach))
        (Found.exactPatternOccurrences foundBach)
  /\ map (fun n => pitchKey (NoteOccurrence.note n))
       (PatternOccurrence.notes (firstOf (Found.exactPatternOccurrences foundBach)))
     = [(Some "B"%string, Some (Num (-1))); (Some "A"%string, None);
        (Some "C"%string, None); (Some "B"%string, None)].
Proof.
  assert (Hrun : findPattern scoreBach processPattern emptyArray
                 = (Returned foundBach, tableAfter scoreBach processPattern))
    by (vm_compute; reflexivity).
  assert (Hin : In (firstOf (Found.exactPatternOccurrences foundBach))
                  (Found.exactPatternOccurrences foundBach))
    by (left; reflexivity).
  exact (conj Hrun (conj Hin (processXML_exact_occurrences_are_BACH _ _ _ _ _ Hrun Hin))).
Defined.

(** ** The voice table across a call *)

Lemma TableGrows_refl t : TableGrows t t.
Proof. intros k l v Hget Hin. exists l. split; assumption. Qed.

Lemma TableGrows_trans t1 t2 t3 : TableGrows t1 t2 -> TableGrows t2 t3 -> TableGrows t1 t3.
Proof.
  intros H12 H23 k l v Hget Hin.
  destruct (H12 k l v Hget Hin) as (l2 & Hget2 & Hin2). exact (H23 k l2 v Hget2 Hin2).
Qed.

Lemma Keeps_ret {A : Type} (a : A) : Keeps (ret a).
Proof. intros t. apply TableGrows_refl. Qed.

Lemma Keeps_lift {A : Type} (c : Completion A) : Keeps (lift c).
Proof. intros t. apply TableGrows_refl. Qed.

Lemma Keeps_bind {A B : Type} (m : M A) (f : A -> M B) :
  Keeps m -> (forall a, Keeps (f a)) -> Keeps (bind m f).
Proof.
  intros Hm Hf t. unfold bind. specialize (Hm t).
  destruct (m t) as [[a | e] t1]; simpl in Hm; [| exact Hm].
  eapply TableGrows_trans; [exact Hm | apply Hf].
Qed.

Lemma Keeps_forEach {A S : Type} (body : A -> S -> M S) xs :
  (forall x s, Keeps (body x s)) -> forall s, Keeps (forEach body xs s).
Proof.
  intros Hbody. induction xs as [| x xs IH]; intros s; simpl; [apply Keeps_ret |].
  apply Keeps_bind; [apply Hbody | exact IH].
Qed.

Lemma Keeps_getNote r : Keeps (getNote r).
Proof.
  intros t k l v Hget Hin. rewrite getNote_table.
  destruct (registered_keeps r t k l v Hget Hin) as (l1 & H1 & Hin1).
  rewrite arrGet_sortTable_eq, H1. simpl. eexists. split; [reflexivity |].
  destruct (isIndexKey k); [apply sortVoices_In |]; exact Hin1.
Qed.

Lemma Keeps_align c lane i pattern :
  forall j acc, Keeps (align c lane i pattern j acc).
Proof.
  induction pattern as [| p pattern IH]; intros j acc; simpl; [apply Keeps_ret |].
  destruct (nth_error lane (i + j)) as [r |]; [| apply IH].
  destruct (isNotRest r); simpl; [| apply IH].
  apply Keeps_bind; [apply Keeps_getNote |]. intros nt.
  destruct (accepts nt p (option_map NoteOccurrence.note (lastElement acc))); [| apply IH].
  apply Keeps_bind; [apply Keeps_lift |]. intros occ. apply IH.
Qed.

(** X16.  [findPattern] never takes a voice out of [staffVoicesNumbers]:
    whatever the score and the pattern, and whether the call returns or
    throws, a voice filed under a key before the call is filed under that
    key after it. *)
Theorem findPattern_keeps_registered_voices xml pattern t k voices v :
  arrGet t k = Some voices ->
  In v voices ->
  exists voices', arrGet (snd (findPattern xml pattern t)) k = Some voices' /\ In v voices'.
Proof.
  revert k voices v. change (TableGrows t (snd (findPattern xml pattern t))).
  revert t. change (Keeps (findPattern xml pattern)).
  unfold findPattern. apply Keeps_bind; [| intros s; apply Keeps_ret].
  apply Keeps_forEach. intros partElement s. unfold scanPart.
  apply Keeps_forEach. intros staffVoices s1. unfold scanStaff.
  apply Keeps_forEach. intros lane s2. unfold scanLane.
  apply Keeps_forEach. intros i s3. unfold window.
  apply Keeps_bind; [apply Keeps_align | intros po; apply Keeps_ret].
Qed.

Lemma findPattern_keeps_registered_voices_witness :
  arrGet (tableAfter scoreVoiceOrder patternA) (Num 0) = Some [Some (Num 1); Some (Num 2)]
  /\ In (Some (Num 2)) [Some (Num 1); Some (Num 2)]
  /\ exists voices',
      arrGet (snd (findPattern scoreExact bachPattern (tableAfter scoreVoiceOrder patternA)))
        (Num 0) = Some voices'
      /\ In (Some (Num 2)) voices'.
Proof.
  assert (Hget : arrGet (tableAfter scoreVoiceOrder patternA) (Num 0)
                 = Some [Some (Num 1); Some (Num 2)])
    by (vm_compute; reflexivity).
  assert (Hin : In (Some (Num 2)) [Some (Num 1); Some (Num 2)])
    by (right; left; reflexivity).
  exact (conj Hget (conj Hin
           (findPattern_keeps_registered_voices scoreExact bachPattern _ _ _ _ Hget Hin))).
Defined.

(** * Properties of the colouring *)

(** ** The colour of an occurrence *)

Lemma numbered_nth occurrences i occ :
  numbered occurrences ->
  nth_error occurrences i = Some occ ->
  PatternOccurrence.occurenceNumber occ = Z.of_nat i + 1.
Proof.
  unfold numbered. intros H Hi.
  assert (Hlt : (i < List.length occurrences)%nat)
    by (apply nth_error_Some; congruence).
  pose proof (map_nth_error PatternOccurrence.occurenceNumber i occurrences Hi) as Hm.
  rewrite H in Hm.
  rewrite (map_nth_error Z.of_nat i (seq 1 (List.length occurrences)) (d := S i)) in Hm.
  - inversion Hm. lia.
  - rewrite nth_error_nth' with (d := O); [| rewrite length_seq; exact Hlt].
    rewrite seq_nth by exact Hlt. reflexivity.
Qed.

Lemma findPattern_numbered xml pattern t found t' :
  findPattern xml pattern t = (Returned found, t') ->
  numbered (Found.exactPatternOccurrences found)
  /\ numbered (Found.approximatePatternOccurrences found).
Proof.
  unfold findPattern. intros H. apply bind_returned in H.
  destruct H as (s & t1 & Hscan & Hret). unfold ret in Hret. inversion Hret. simpl.
  assert (Hs : Counted s).
  { eapply (forEach_invariant Counted); [| exact Hscan |].
    - intros part a u a' u'. apply scanPart_counted.
    - repeat split. }
  destruct Hs as (_ & He & _ & Ha). split; assumption.
Qed.

Lemma pickColor_cycles colorsList i :
  colorsList <> [] ->
  pickColor colorsList (Z.of_nat i + 1)
  = nth_error colorsList (i mod List.length colorsList).
Proof.
  intros Hne. unfold pickColor.
  assert (Hlen : (0 < List.length colorsList)%nat)
    by (destruct colorsList; [contradiction Hne; reflexivity | simpl; lia]).
  assert (E : (Z.of_nat (List.length colorsList) =? 0) = false)
    by (apply Z.eqb_neq; lia).
  rewrite E. replace (Z.of_nat i + 1 - 1) with (Z.of_nat i) by lia.
  rewrite Z.rem_mod_nonneg by lia.
  rewrite <- Nat2Z.inj_mod.
  assert (E' : (Z.of_nat (i mod List.length colorsList) <? 0) = false)
    by (apply Z.ltb_ge; lia).
  rewrite E', Nat2Z.id. reflexivity.
Qed.

(** X17.  The colour [colorOsmdPatternOccurrences] picks for the occurrences
    that [findPattern] returns cycles through the list of colours: with a
    non-empty list, the occurrence at index i of a result array gets the
    colour at index i modulo the length of the list. *)
Theorem colours_cycle_through_the_list xml pattern t found t' colorsList i occ :
  findPattern xml pattern t = (Returned found, t') ->
  colorsList <> [] ->
  nth_error (Found.exactPatternOccurrences found) i = Some occ
  \/ nth_error (Found.approximatePatternOccurrences found) i = Some occ ->
  pickColor colorsList (PatternOccurrence.occurenceNumber occ)
  = nth_error colorsList (i mod List.length colorsList).
Proof.
  intros Hrun Hne Hocc.
  destruct (findPattern_numbered _ _ _ _ _ Hrun) as (He & Ha).
  assert (Hn : PatternOccurrence.occurenceNumber occ = Z.of_nat i + 1).
  { destruct Hocc as [Hocc | Hocc];
      [exact (numbered_nth _ _ _ He Hocc) | exact (numbered_nth _ _ _ Ha Hocc)]. }
  rewrite Hn. apply pickColor_cycles. exact Hne.
Qed.

Lemma colours_cycle_through_the_list_witness :
  findPattern scoreVoiceOrder patternA emptyArray
  = (Returned (runOf scoreVoiceOrder patternA), tableAfter scoreVoiceOrder patternA)
  /\ colors <> []
  /\ pickColor colors
       (PatternOccurrence.occurenceNumber
          (nth 1 (Found.exactPatternOccurrences (runOf scoreVoiceOrder patternA))
             (PatternOccurrence.mk [] 0 0)))
     = Some "#E91E63"%string.
Proof.
  assert (Hrun : findPattern scoreVoiceOrder patternA emptyArray
                 = (Returned (runOf scoreVoiceOrder patternA),
                    tableAfter scoreVoiceOrder patternA))
    by (vm_compute; reflexivity).
  assert (Hne : colors <> []) by discriminate.
  split; [exact Hrun |]. split; [exact Hne |].
  rewrite (colours_cycle_through_the_list _ _ _ _ _ colors 1 _ Hrun Hne).
  - reflexivity.
  - left. vm_compute. reflexivity.
Defined.

(** ** Notes reported at position 0 *)

Lemma entryAt_negative {A : Type} (a : list (option A)) z : z < 0 -> entryAt a (Num z) = None.
Proof. intros H. unfold entryAt. apply Z.ltb_lt in H. rewrite H. reflexivity. Qed.

Lemma colorOsmdNote_position_zero measure staff noteNumber staffVoice color measureList :
  noteNumber <= 0 ->
  colorOsmdNote measure staff noteNumber staffVoice color measureList = Threw TypeError.
Proof.
  intros H. unfold colorOsmdNote.
  destruct (entryAt measureList (pred1 measure)) as [staves |]; [| reflexivity].
  destruct (entryAt staves (Num (staff - 1))) as [gm |]; [| reflexivity].
  rewrite entryAt_negative by lia. reflexivity.
Qed.

Lemma colorEach_throws {A : Type} (P : A -> Prop)
    (body : A -> Osmd.MeasureList -> Completion Osmd.MeasureList) xs :
  (forall x measureList, P x -> body x measureList = Threw TypeError) ->
  Exists P xs ->
  forall measureList, colorEach body xs measureList = Threw TypeError.
Proof.
  intros Hbody Hex. induction Hex as [x xs Hx | x xs Hxs IH]; intros ml; simpl.
  - rewrite (Hbody x ml Hx). reflexivity.
  - destruct (body x ml) as [ml' | e]; [apply IH | destruct e; reflexivity].
Qed.

(** X18.  [colorOsmdPatternOccurrences] throws a [TypeError], and colours
    nothing after it, as soon as the occurrences hold a note whose
    measureNoteNumber is 0 or less: [colorOsmdNote] reads the staff entry at
    index measureNoteNumber - 1 outside its [try], whatever the rendered
    score holds. *)
Theorem colouring_throws_at_position_zero patternOccurrences colorsList measureList :
  Exists (fun occ =>
            Exists (fun n => NoteOccurrence.measureNoteNumber n <= 0)
              (PatternOccurrence.notes occ))
    patternOccurrences ->
  colorOsmdPatternOccurrences patternOccurrences colorsList measureList = Threw TypeError.
Proof.
  intros H. unfold colorOsmdPatternOccurrences.
  eapply colorEach_throws; [| exact H].
  intros occ ml Hocc.
  eapply colorEach_throws; [| exact Hocc].
  intros n ml' Hn. apply colorOsmdNote_position_zero. exact Hn.
Qed.

Lemma colouring_throws_at_position_zero_witness :
  Exists (fun occ =>
            Exists (fun n => NoteOccurrence.measureNoteNumber n <= 0)
              (PatternOccurrence.notes occ))
    [PatternOccurrence.mk
       [NoteOccurrence.mk 1 (Num 1) 0 (Note.mk (Some "A"%string) None None 1 1 1)] 1 1]
  /\ colorOsmdPatternOccurrences
       [PatternOccurrence.mk
          [NoteOccurrence.mk 1 (Num 1) 0 (Note.mk (Some "A"%string) None None 1 1 1)] 1 1]
       colors renderedMeasure
     = Threw TypeError.
Proof.
  assert (H : Exists (fun occ =>
                        Exists (fun n => NoteOccurrence.measureNoteNumber n <= 0)
                          (PatternOccurrence.notes occ))
                [PatternOccurrence.mk
                   [NoteOccurrence.mk 1 (Num 1) 0
                      (Note.mk (Some "A"%string) None None 1 1 1)] 1 1]).
  { constructor. constructor. simpl. lia. }
  exact (conj H (colouring_throws_at_position_zero _ colors renderedMeasure H)).
Defined.

(** ** The notehead that is coloured *)

Lemma nth_error_replaceAt {A : Type} (a : list (option A)) n x v :
  nth_error a n = Some x ->
  forall n', nth_error (replaceAt a n v) n'
             = if Nat.eqb n' n then Some (Some v) else nth_error a n'.
Proof.
  revert n. induction a as [| y a IH]; intros [| n] Hn [| n']; simpl in *;
    try discriminate; try reflexivity.
  apply IH. exact Hn.
Qed.

Lemma entryAt_replaceAt {A : Type} (a : list (option A)) z0 old v :
  entryAt a (Num z0) = Some old ->
  forall z, entryAt (replaceAt a (Z.to_nat z0) v) (Num z)
            = if z =? z0 then Some v else entryAt a (Num z).
Proof.
  unfold entryAt. intros H z.
  destruct (z0 <? 0) eqn:E0; [discriminate H |]. apply Z.ltb_ge in E0.
  destruct (nth_error a (Z.to_nat z0)) as [x |] eqn:Hn; [| discriminate H].
  destruct (z <? 0) eqn:Ez.
  - apply Z.ltb_lt in Ez. destruct (z =? z0) eqn:E; [apply Z.eqb_eq in E; lia | reflexivity].
  - apply Z.ltb_ge in Ez. rewrite (nth_error_replaceAt a _ x v Hn).
    destruct (z =? z0) eqn:E.
    + apply Z.eqb_eq in E. subst z. rewrite Nat.eqb_refl. reflexivity.
    + apply Z.eqb_neq in E.
      assert (En : Nat.eqb (Z.to_nat z) (Z.to_nat z0) = false) by (apply Nat.eqb_neq; lia).
      rewrite En. reflexivity.
Qed.

Lemma settleFrom_spec entries n :
  0 <= settleFrom entries n <= Z.of_nat n
  /\ (forall v, settleFrom entries n < v <= Z.of_nat n -> entryAt entries (Num v) = None)
  /\ (0 < settleFrom entries n ->
      exists voiceEntry, entryAt entries (Num (settleFrom entries n)) = Some voiceEntry).
Proof.
  induction n as [| n IH].
  - simpl. split; [lia |]. split; [intros v Hv; lia | intros H; lia].
  - cbn [settleFrom].
    destruct (entryAt entries (Num (Z.of_nat (S n)))) as [ve |] eqn:E.
    + split; [lia |]. split; [intros v Hv; lia |]. intros _. exists ve. exact E.
    + destruct IH as (Hb & Hnone & Hsome). split; [lia |]. split; [| exact Hsome].
      intros v Hv. destruct (Z.eq_dec v (Z.of_nat (S n))) as [-> | Hne]; [exact E |].
      apply Hnone. lia.
Qed.

(** X19.  When [colorOsmdNote] returns, it has coloured at most one
    notehead: the first note of one voice entry of the staff entry it was
    sent to.  That voice entry is the one at index staffVoice - 1 when
    there is one, and otherwise the existing one of greatest index below it
    (index 0 when none exists); every other notehead keeps its colour. *)
Theorem colorOsmdNote_colours_one_notehead measure staff noteNumber staffVoice color
    measureList measureList' :
  colorOsmdNote measure staff noteNumber staffVoice color measureList = Returned measureList' ->
  exists m entries target,
    measure = Num (m + 1)
    /\ voiceEntriesAt measureList m (staff - 1) (noteNumber - 1) = Some entries
    /\ target = settle entries (staffVoice - 1)
    /\ (staffVoice - 1 <= 0 -> target = staffVoice - 1)
    /\ (0 < staffVoice - 1 ->
        0 <= target <= staffVoice - 1
        /\ (forall v, target < v <= staffVoice - 1 -> entryAt entries (Num v) = None)
        /\ (0 < target -> exists voiceEntry, entryAt entries (Num target) = Some voiceEntry))
    /\ forall m' s e v k,
         colorAt measureList' m' s e v k
         = if (m' =? m) && (s =? staff - 1) && (e =? noteNumber - 1)
              && (v =? target) && (k =? 0)
           then option_map (fun _ => Some color) (colorAt measureList m' s e v k)
           else colorAt measureList m' s e v k.
Proof.
  unfold colorOsmdNote. intros H.
  destruct measure as [| mz]; [discriminate H |]. simpl pred1 in H.
  destruct (entryAt measureList (Num (mz - 1))) as [staves |] eqn:Hm; [| discriminate H].
  destruct (entryAt staves (Num (staff - 1))) as [gm |] eqn:Hs; [| discriminate H].
  destruct (entryAt (Osmd.staffEntries gm) (Num (noteNumber - 1))) as [se |] eqn:He;
    [| discriminate H].
  set (entries := Osmd.graphicalVoiceEntries se) in *.
  set (target := settle entries (staffVoice - 1)) in *.
  exists (mz - 1), entries, target.
  split; [f_equal; lia |].
  split; [unfold voiceEntriesAt; rewrite Hm, Hs, He; reflexivity |].
  split; [reflexivity |].
  split.
  { intros Hle. subst target. unfold settle. apply Z.leb_le in Hle. rewrite Hle. reflexivity. }
  split.
  { intros Hpos. subst target. unfold settle.
    assert (E : (staffVoice - 1 <=? 0) = false) by (apply Z.leb_gt; exact Hpos).
    rewrite E.
    destruct (settleFrom_spec entries (Z.to_nat (staffVoice - 1))) as (Hb & Hnone & Hsome).
    rewrite Z2Nat.id in Hb, Hnone by lia.
    split; [exact Hb |]. split; assumption. }
  intros m' s e v k.
  assert (Hsame : forall ve,
            entryAt entries (Num target) = Some ve ->
            entryAt (Osmd.notes ve) (Num 0) = None ->
            colorAt measureList m' s e v k
            = (if (m' =? mz - 1) && (s =? staff - 1) && (e =? noteNumber - 1)
                  && (v =? target) && (k =? 0)
               then option_map (fun _ => Some color) (colorAt measureList m' s e v k)
               else colorAt measureList m' s e v k)).
  { intros ve Hve Hnote.
    destruct ((m' =? mz - 1) && (s =? staff - 1) && (e =? noteNumber - 1)
              && (v =? target) && (k =? 0)) eqn:E; [| reflexivity].
    repeat (apply andb_true_iff in E; destruct E as [E ?]).
    repeat match goal with
           | H : (_ =? _) = true |- _ => apply Z.eqb_eq in H
           end.
    subst m' s e v k. unfold colorAt. rewrite Hm, Hs, He.
    fold entries. rewrite Hve, Hnote. reflexivity. }
  destruct (entryAt entries (Num target)) as [ve |] eqn:Hve.
  2: { inversion H; subst measureList'.
       destruct ((m' =? mz - 1) && (s =? staff - 1) && (e =? noteNumber - 1)
                 && (v =? target) && (k =? 0)) eqn:E; [| reflexivity].
       repeat (apply andb_true_iff in E; destruct E as [E ?]).
       repeat match goal with
              | H : (_ =? _) = true |- _ => apply Z.eqb_eq in H
              end.
       subst m' s e v k. unfold colorAt. rewrite Hm, Hs, He.
       fold entries. rewrite Hve. reflexivity. }
  destruct (entryAt (Osmd.notes ve) (Num 0)) as [gn |] eqn:Hn.
  2: { inversion H; subst measureList'. apply (Hsame ve eq_refl Hn). }
  inversion H; subst measureList'. clear H Hsame.
  unfold colorAt.
  rewrite (entryAt_replaceAt measureList (mz - 1) staves _ Hm m').
  destruct (m' =? mz - 1) eqn:Em; [| reflexivity]. apply Z.eqb_eq in Em. subst m'.
  rewrite Hm.
  rewrite (entryAt_replaceAt staves (staff - 1) gm _ Hs s).
  destruct (s =? staff - 1) eqn:Es; [| reflexivity]. apply Z.eqb_eq in Es. subst s.
  rewrite Hs. cbn [Osmd.staffEntries].
  rewrite (entryAt_replaceAt (Osmd.staffEntries gm) (noteNumber - 1) se _ He e).
  destruct (e =? noteNumber - 1) eqn:Ee; [| reflexivity]. apply Z.eqb_eq in Ee. subst e.
  rewrite He. cbn [Osmd.graphicalVoiceEntries]. fold entries.
  rewrite (entryAt_replaceAt entries target ve _ Hve v).
  destruct (v =? target) eqn:Ev; [| reflexivity]. apply Z.eqb_eq in Ev. subst v.
  rewrite Hve. cbn [Osmd.notes].
  change (replaceAt (Osmd.notes ve) 0 (Osmd.mkNote (Some color)))
    with (replaceAt (Osmd.notes ve) (Z.to_nat 0) (Osmd.mkNote (Some color))).
  rewrite (entryAt_replaceAt (Osmd.notes ve) 0 gn _ Hn k).
  destruct (k =? 0) eqn:Ek; [| reflexivity]. apply Z.eqb_eq in Ek. subst k.
  rewrite Hn. reflexivity.
Qed.

Lemma colorOsmdNote_colours_one_notehead_witness :
  exists measureList',
    colorOsmdNote (Num 1) 1 1 5 "#F44336" renderedMeasure = Returned measureList'
    /\ exists m entries target,
        Num 1 = Num (m + 1)
        /\ voiceEntriesAt renderedMeasure m (1 - 1) (1 - 1) = Some entries
        /\ target = settle entries (5 - 1)
        /\ (5 - 1 <= 0 -> target = 5 - 1)
        /\ (0 < 5 - 1 ->
            0 <= target <= 5 - 1
            /\ (forall v, target < v <= 5 - 1 -> entryAt entries (Num v) = None)
            /\ (0 < target ->
                exists voiceEntry, entryAt entries (Num target) = Some voiceEntry))
        /\ forall m' s e v k,
             colorAt measureList' m' s e v k
             = if (m' =? m) && (s =? 1 - 1) && (e =? 1 - 1) && (v =? target) && (k =? 0)
               then option_map (fun _ => Some "#F44336"%string)
                      (colorAt renderedMeasure m' s e v k)
               else colorAt renderedMeasure m' s e v k.
Proof.
  destruct (colorOsmdNote (Num 1) 1 1 5 "#F44336" renderedMeasure) as [ml' | e] eqn:G;
    [| vm_compute in G; discriminate G].
  exists ml'. split; [reflexivity |].
  exact (colorOsmdNote_colours_one_notehead _ _ _ _ _ _ _ G).
Defined.

(** ** Scores without voice elements *)

Lemma siblingMatches_without_voice v r :
  getElementsByTagName r "voice" = [] -> siblingMatches "voice" v r = false.
Proof. unfold siblingMatches. intros H. rewrite H. reflexivity. Qed.

Lemma Sourced_without_voice c lane n partElement :
  (forall r, In r lane ->
     In r (getElementsByTagName partElement "note")
     /\ getElementsByTagName r "voice" = []) ->
  Sourced c lane n ->
  NoteOccurrence.measureNoteNumber n = 0.
Proof.
  intros Hlane (r & nt & t1 & t2 & Hr & _ & _ & Hocc).
  destruct (Hlane r Hr) as (Hnote & Hvoice).
  destruct (noteOccurrence_fields _ _ _ _ Hocc)
    as (_ & _ & measure & index & Hparent & Hindex & _ & Hnumber).
  pose proof (getElementsByTagName_parent _ _ _ _ Hnote Hparent) as Hsib.
  rewrite (getElementIndex_spec r measure "note" "voice" _ Hparent Hsib) in Hindex.
  rewrite (siblingMatches_without_voice _ r Hvoice) in Hindex.
  inversion Hindex as [Hi]. rewrite Hnumber, <- Hi. reflexivity.
Qed.

Lemma colouring_throws_at_zero_positions occurrences colorsList measureList :
  occurrences <> [] ->
  Forall (fun occ =>
            PatternOccurrence.notes occ <> []
            /\ Forall (fun n => NoteOccurrence.measureNoteNumber n = 0)
                 (PatternOccurrence.notes occ))
    occurrences ->
  colorOsmdPatternOccurrences occurrences colorsList measureList = Threw TypeError.
Proof.
  intros Hne Hall. unfold colorOsmdPatternOccurrences.
  apply (colorEach_throws
           (fun occ => Exists (fun n => NoteOccurrence.measureNoteNumber n <= 0)
                         (PatternOccurrence.notes occ))).
  - intros o ml Hex. eapply colorEach_throws; [| exact Hex].
    intros n ml' Hn. apply colorOsmdNote_position_zero. exact Hn.
  - destruct occurrences as [| occ rest]; [contradiction Hne; reflexivity |].
    inversion Hall as [| o os (Hnotes & Hzero) _]; subst. left.
    destruct (PatternOccurrence.notes occ) as [| n ns]; [contradiction Hnotes; reflexivity |].
    left. inversion Hzero; subst. lia.
Qed.

(** X20.  In a score none of whose notes has a voice element, every matched
    note, of an exact or of an approximate occurrence, is reported at
    measureNoteNumber 0; so, for a non-empty pattern, colouring either
    result array of such a score throws a [TypeError] when the array is not
    empty, whatever the colours and the rendered score. *)
Theorem voiceless_score_cannot_be_coloured xml pattern t found t' colorsList measureList :
  (forall partElement r,
     In partElement (getElementsByTagName xml "part") ->
     In r (getElementsByTagName partElement "note") ->
     getElementsByTagName r "voice" = []) ->
  findPattern xml pattern t = (Returned found, t') ->
  pattern <> [] ->
  Forall (fun occ =>
            Forall (fun n => NoteOccurrence.measureNoteNumber n = 0)
              (PatternOccurrence.notes occ))
    (Found.exactPatternOccurrences found ++ Found.approximatePatternOccurrences found)
  /\ (Found.exactPatternOccurrences found <> [] ->
      colorOsmdPatternOccurrences (Found.exactPatternOccurrences found) colorsList
        measureList
      = Threw TypeError)
  /\ (Found.approximatePatternOccurrences found <> [] ->
      colorOsmdPatternOccurrences (Found.approximatePatternOccurrences found) colorsList
        measureList
      = Threw TypeError).
Proof.
  intros Hvoiceless Hrun Hpattern.
  destruct (findPattern_emitted _ _ _ _ _ Hrun) as (Hexact & Happrox).
  assert (Hk : 0 < patternLength pattern).
  { unfold patternLength. destruct pattern; [contradiction Hpattern; reflexivity |].
    cbn [List.length]. lia. }
  assert (Hem : forall exact p partElement occ,
            nth_error (getElementsByTagName xml "part") p = Some partElement ->
            Emitted exact pattern (Z.of_nat p + 1) (scannedLanes partElement) occ ->
            PatternOccurrence.notes occ <> []
            /\ Forall (fun n => NoteOccurrence.measureNoteNumber n = 0)
                 (PatternOccurrence.notes occ)).
  { intros exact p partElement occ Hpart Hem. split.
    - destruct Hem as (_ & Hcount & Hclass). intros E. rewrite E in Hcount.
      rewrite matchingCountOf_nil in Hcount. rewrite Hcount in Hclass.
      destruct exact; [lia |]. destruct Hclass as (_ & Hr).
      exact (ratioAbove_nonzero _ _ Hr eq_refl).
    - apply Forall_forall. intros n Hn.
      destruct (Emitted_sourced _ _ _ _ _ _ Hem Hn) as (lane & Hlane & Hsrc).
      apply (Sourced_without_voice (Z.of_nat p + 1) lane n partElement); [| exact Hsrc].
      intros r Hr. pose proof (scannedLanes_notes _ _ _ Hlane Hr) as Hnote.
      split; [exact Hnote |].
      apply (Hvoiceless partElement r); [eapply nth_error_In; exact Hpart | exact Hnote]. }
  assert (He : Forall (fun occ =>
                         PatternOccurrence.notes occ <> []
                         /\ Forall (fun n => NoteOccurrence.measureNoteNumber n = 0)
                              (PatternOccurrence.notes occ))
                 (Found.exactPatternOccurrences found)).
  { apply Forall_forall. intros occ Hocc.
    destruct (Hexact occ Hocc) as (p & partElement & Hpart & Hocc').
    exact (Hem true p partElement occ Hpart Hocc'). }
  assert (Ha : Forall (fun occ =>
                         PatternOccurrence.notes occ <> []
                         /\ Forall (fun n => NoteOccurrence.measureNoteNumber n = 0)
                              (PatternOccurrence.notes occ))
                 (Found.approximatePatternOccurrences found)).
  { apply Forall_forall. intros occ Hocc.
    destruct (Happrox occ Hocc) as (p & partElement & Hpart & Hocc').
    exact (Hem false p partElement occ Hpart Hocc'). }
  split; [| split].
  - apply Forall_app. split; (eapply Forall_impl; [| eassumption]); intros occ (_ & H);
      exact H.
  - intros Hne. apply colouring_throws_at_zero_positions; assumption.
  - intros Hne. apply colouring_throws_at_zero_positions; assumption.
Qed.

Lemma voiceless_score_cannot_be_coloured_witness :
  findPattern scoreVoicelessNear patternCDEF emptyArray
  = (Returned (runOf scoreVoicelessNear patternCDEF), tableAfter scoreVoicelessNear patternCDEF)
  /\ patternCDEF <> []
  /\ (List.length (Found.exactPatternOccurrences (runOf scoreVoicelessNear patternCDEF)) = 1
      /\ List.length (Found.approximatePatternOccurrences (runOf scoreVoicelessNear patternCDEF))
         = 1)%nat
  /\ colorOsmdPatternOccurrences
       (Found.exactPatternOccurrences (runOf scoreVoicelessNear patternCDEF)) colors
       renderedMeasure
     = Threw TypeError
  /\ colorOsmdPatternOccurrences
       (Found.approximatePatternOccurrences (runOf scoreVoicelessNear patternCDEF)) colors
       renderedMeasure
     = Threw TypeError.
Proof.
  assert (Hvoiceless : forall partElement r,
            In partElement (getElementsByTagName scoreVoicelessNear "part") ->
            In r (getElementsByTagName partElement "note") ->
            getElementsByTagName r "voice" = []).
  { intros partElement r Hpart Hr.
    vm_compute in Hpart. destruct Hpart as [<- | []].
    vm_compute in Hr. repeat (destruct Hr as [<- | Hr]; [reflexivity |]). destruct Hr. }
  assert (Hrun : findPattern scoreVoicelessNear patternCDEF emptyArray
                 = (Returned (runOf scoreVoicelessNear patternCDEF),
                    tableAfter scoreVoicelessNear patternCDEF))
    by (vm_compute; reflexivity).
  assert (Hpattern : patternCDEF <> []) by discriminate.
  assert (Hlen : (List.length
                    (Found.exactPatternOccurrences (runOf scoreVoicelessNear patternCDEF)) = 1
                  /\ List.length
                       (Found.approximatePatternOccurrences
                          (runOf scoreVoicelessNear patternCDEF)) = 1)%nat)
    by (split; vm_compute; reflexivity).
  assert (He : Found.exactPatternOccurrences (runOf scoreVoicelessNear patternCDEF) <> [])
    by (vm_compute; discriminate).
  assert (Ha : Found.approximatePatternOccurrences (runOf scoreVoicelessNear patternCDEF) <> [])
    by (vm_compute; discriminate).
  destruct (voiceless_score_cannot_be_coloured _ _ _ _ _ colors renderedMeasure
              Hvoiceless Hrun Hpattern) as (_ & Hexact & Happrox).
  exact (conj Hrun (conj Hpattern (conj Hlen (conj (Hexact He) (Happrox Ha))))).
Defined.

(** * Properties of findNotes *)

Lemma Matched_length ps os :
  FindNotes.Matched ps os -> (List.length os <= List.length ps)%nat.
Proof. induction 1; simpl; lia. Qed.

Lemma Matched_full ps os :
  FindNotes.Matched ps os ->
  List.length os = List.length ps ->
  Forall2 (fun o p => FindNotes.noteIsEqual (FindNotes.note o) p = true) os ps.
Proof.
  induction 1 as [| p ps os Hm IH | p ps o os Heq Hm IH]; intros Hlen.
  - constructor.
  - apply Matched_length in Hm. simpl in Hlen. lia.
  - constructor; [exact Heq |]. apply IH. simpl in Hlen. lia.
Qed.

Lemma reduce_spec partElement noteElement notes noteIndex :
  forall pattern patternIndex accumulator result,
    FindNotes.reduce partElement noteElement notes noteIndex pattern patternIndex accumulator
    = Returned result ->
    exists new,
      result = accumulator ++ new
      /\ FindNotes.Matched pattern new
      /\ Forall (fun o =>
                   FindNotes.part o = getAttribute partElement "id"
                   /\ exists parent,
                        parentElement noteElement = Some parent
                        /\ FindNotes.measure o = parseIntAttribute parent "number")
           new.
Proof.
  induction pattern as [| p pattern IH]; intros j acc result H.
  - simpl in H. inversion H. exists []. rewrite app_nil_r. repeat split; constructor.
  - simpl in H.
    assert (Hskip :
      FindNotes.reduce partElement noteElement notes noteIndex pattern (S j) acc
      = Returned result ->
      exists new,
        result = acc ++ new
        /\ FindNotes.Matched (p :: pattern) new
        /\ Forall (fun o =>
                     FindNotes.part o = getAttribute partElement "id"
                     /\ exists parent,
                          parentElement noteElement = Some parent
                          /\ FindNotes.measure o = parseIntAttribute parent "number")
             new).
    { intros Hc. apply IH in Hc. destruct Hc as (new & He & Hm & Hf).
      exists new. split; [exact He |]. split; [constructor; exact Hm | exact Hf]. }
    destruct (nth_error notes (noteIndex + j)) as [r |]; [| apply Hskip; exact H].
    destruct (FindNotes.getNote r) as [nt | e]; [| discriminate H].
    destruct (FindNotes.noteIsEqual nt p) eqn:Heq; [| apply Hskip; exact H].
    destruct (parentElement noteElement) as [parent |] eqn:Hp; [| discriminate H].
    apply IH in H. destruct H as (new & He & Hm & Hf).
    eexists (_ :: new). split; [rewrite He, <- app_assoc; reflexivity |].
    split; [apply FindNotes.Matched_take; [exact Heq | exact Hm] |].
    constructor; [| exact Hf]. simpl. split; [reflexivity |].
    exists parent. split; reflexivity.
Qed.

Lemma each_invariant {A S : Type} (Inv : S -> Prop) (body : A -> S -> Completion S) xs :
  (forall x s s', body x s = Returned s' -> Inv s -> Inv s') ->
  forall s s', FindNotes.each body xs s = Returned s' -> Inv s -> Inv s'.
Proof.
  intros Hbody. induction xs as [| x xs IH]; intros s s' H Hs; simpl in H.
  - inversion H; subst. exact Hs.
  - destruct (body x s) as [s1 | e] eqn:E; [| discriminate H].
    apply (IH s1 s' H). eapply Hbody; eassumption.
Qed.

(** X21.  Every occurrence [findNotes] returns matches the pattern note for
    note: it holds as many note occurrences as the pattern has entries, the
    j-th equal in step and alter to the j-th entry, and all of them name the
    same part and the same measure. *)
Theorem findNotes_occurrences_match_in_order xml pattern occurrences occurrence :
  FindNotes.findNotes xml pattern = Returned occurrences ->
  In occurrence occurrences ->
  Forall2 (fun o p => FindNotes.noteIsEqual (FindNotes.note o) p = true) occurrence pattern
  /\ exists partId measure,
       Forall (fun o => FindNotes.part o = partId /\ FindNotes.measure o = measure)
         occurrence.
Proof.
  intros Hrun Hin.
  pose (Q := fun occ : list FindNotes.NoteOccurrence =>
    Forall2 (fun o p => FindNotes.noteIsEqual (FindNotes.note o) p = true) occ pattern
    /\ exists partId measure,
         Forall (fun o => FindNotes.part o = partId /\ FindNotes.measure o = measure) occ).
  assert (Hall : Forall Q occurrences).
  { unfold FindNotes.findNotes in Hrun.
    eapply (each_invariant (Forall Q)); [| exact Hrun | constructor].
    intros partElement s s' Hpart Hs. unfold FindNotes.searchPart in Hpart.
    eapply (each_invariant (Forall Q)); [| exact Hpart | exact Hs].
    intros [noteElement noteIndex] u u' Hw Hu. unfold FindNotes.window in Hw. simpl in Hw.
    destruct (FindNotes.reduce partElement noteElement
                (getElementsByTagName partElement "note") noteIndex pattern 0 [])
      as [po | e] eqn:Hred; [| discriminate Hw].
    destruct (List.length po =? List.length pattern)%nat eqn:Hlen;
      inversion Hw; subst; [| exact Hu].
    apply Forall_app. split; [exact Hu |]. constructor; [| constructor].
    apply reduce_spec in Hred. destruct Hred as (new & He & Hm & Hf). simpl in He. subst new.
    apply Nat.eqb_eq in Hlen. split; [apply Matched_full; assumption |].
    destruct (parentElement noteElement) as [parent |] eqn:Hp.
    - exists (getAttribute partElement "id"), (parseIntAttribute parent "number").
      eapply Forall_impl; [| exact Hf]. intros o (Hpo & parent' & Hp' & Hmo).
      inversion Hp'; subst. split; assumption.
    - exists None, NaN. eapply Forall_impl; [| exact Hf].
      intros o (_ & parent' & Hp' & _). discriminate Hp'. }
  rewrite Forall_forall in Hall. exact (Hall occurrence Hin).
Qed.

Lemma getNote_returns_iff r :
  (exists n, FindNotes.getNote r = Returned n) <-> FindNotes.pitched r.
Proof.
  unfold FindNotes.getNote, FindNotes.pitched, getUniqueElement.
  destruct (getElementsByTagName r "pitch") as [| p [| q l]]; split.
  - intros [n H]. discriminate H.
  - intros [p H]. discriminate H.
  - intros _. exists p. reflexivity.
  - intros _. eexists. reflexivity.
  - intros [n H]. discriminate H.
  - intros [p' H]. discriminate H.
Qed.

Lemma reduce_returns_iff partElement noteElement parent notes noteIndex :
  parentElement noteElement = Some parent ->
  forall pattern patternIndex accumulator,
    (exists result,
        FindNotes.reduce partElement noteElement notes noteIndex pattern patternIndex
          accumulator = Returned result)
    <-> (forall d r,
            (d < List.length pattern)%nat ->
            nth_error notes (noteIndex + (patternIndex + d)) = Some r ->
            FindNotes.pitched r).
Proof.
  intros Hp. induction pattern as [| p pattern IH]; intros j acc.
  - simpl. split; [intros _ d r Hd; lia | intros _; eexists; reflexivity].
  - assert (Hshift : forall acc',
      (exists result,
          FindNotes.reduce partElement noteElement notes noteIndex pattern (S j) acc'
          = Returned result)
      <-> (forall d r,
              (d < List.length pattern)%nat ->
              nth_error notes (noteIndex + (j + S d)) = Some r -> FindNotes.pitched r)).
    { intros acc'. rewrite IH. split; intros H d r Hd Hn; apply (H d r Hd);
        [replace (S j + d)%nat with (j + S d)%nat by lia
        | replace (j + S d)%nat with (S j + d)%nat by lia]; exact Hn. }
    cbn [FindNotes.reduce List.length].
    destruct (nth_error notes (noteIndex + j)) as [r0 |] eqn:Hn0.
    + destruct (FindNotes.getNote r0) as [nt | e] eqn:Hg.
      * assert (Hr0 : FindNotes.pitched r0) by (apply getNote_returns_iff; eauto).
        assert (Hcase : forall acc',
          (exists result,
              FindNotes.reduce partElement noteElement notes noteIndex pattern (S j) acc'
              = Returned result)
          <-> (forall d r,
                  (d < S (List.length pattern))%nat ->
                  nth_error notes (noteIndex + (j + d)) = Some r -> FindNotes.pitched r)).
        { intros acc'. rewrite Hshift. split; intros H d r Hd Hn.
          - destruct d as [| d].
            + rewrite Nat.add_0_r, Hn0 in Hn. inversion Hn; subst. exact Hr0.
            + apply (H d r); [lia | exact Hn].
          - apply (H (S d) r); [lia | exact Hn]. }
        destruct (FindNotes.noteIsEqual nt p); [rewrite Hp |]; apply Hcase.
      * split.
        -- intros [res H]. discriminate H.
        -- intros H. assert (Hr0 : FindNotes.pitched r0).
           { apply (H 0%nat r0); [lia | rewrite Nat.add_0_r; exact Hn0]. }
           apply getNote_returns_iff in Hr0. destruct Hr0 as [n Hn]. congruence.
    + rewrite Hshift. split; intros H d r Hd Hn.
      * destruct d as [| d].
        -- rewrite Nat.add_0_r, Hn0 in Hn. discriminate Hn.
        -- apply (H d r); [lia | exact Hn].
      * apply (H (S d) r); [lia | exact Hn].
Qed.

Lemma each_returns_iff {A S : Type} (Ok : A -> Prop) (body : A -> S -> Completion S) xs :
  (forall x, In x xs -> forall s, (exists s', body x s = Returned s') <-> Ok x) ->
  forall s, (exists s', FindNotes.each body xs s = Returned s') <-> Forall Ok xs.
Proof.
  induction xs as [| x xs IH]; intros Hbody s; simpl.
  - split; [constructor | eexists; reflexivity].
  - assert (IH' := IH (fun y Hy => Hbody y (or_intror Hy))).
    destruct (body x s) as [s1 | e] eqn:E.
    + rewrite IH'. split.
      * intros H. constructor; [| exact H]. apply (Hbody x (or_introl eq_refl) s). eauto.
      * intros H. inversion H; assumption.
    + split.
      * intros [s' H]. discriminate H.
      * intros H. inversion H as [| ? ? Hx _]. subst.
        apply (Hbody x (or_introl eq_refl) s) in Hx. destruct Hx as [s' Hx]. congruence.
Qed.

Lemma combine_seq_In {A : Type} (l : list A) :
  forall start x i,
    In (x, i) (combine l (seq start (List.length l)))
    <-> (start <= i)%nat /\ nth_error l (i - start) = Some x.
Proof.
  induction l as [| a l IH]; intros start x i; simpl.
  - split; [intros [] | intros [_ H]]. destruct (i - start)%nat; discriminate H.
  - rewrite IH. split.
    + intros [H | [Hle Hn]].
      * inversion H; subst. split; [lia |]. rewrite Nat.sub_diag. reflexivity.
      * split; [lia |]. replace (i - start)%nat with (S (i - S start)) by lia. exact Hn.
    + intros [Hle Hn]. destruct (Nat.eq_dec i start) as [-> | Hne].
      * rewrite Nat.sub_diag in Hn. simpl in Hn. inversion Hn. left. reflexivity.
      * right. split; [lia |].
        replace (i - start)%nat with (S (i - S start)) in Hn by lia. exact Hn.
Qed.

Lemma withIndex_In {A : Type} (l : list A) x i :
  In (x, i) (FindNotes.withIndex l) <-> nth_error l i = Some x.
Proof.
  unfold FindNotes.withIndex. rewrite combine_seq_In, Nat.sub_0_r.
  split; [intros [_ H]; exact H | intros H; split; [lia | exact H]].
Qed.

Lemma findNotes_occurrences_match_in_order_witness :
  Forall2 (fun o p => FindNotes.noteIsEqual (FindNotes.note o) p = true)
    (hd [] notesBach) notesPatternBach
  /\ exists partId measure,
       Forall (fun o => FindNotes.part o = partId /\ FindNotes.measure o = measure)
         (hd [] notesBach).
Proof.
  apply (findNotes_occurrences_match_in_order scoreBach notesPatternBach notesBach).
  - vm_compute. reflexivity.
  - left. reflexivity.
Defined.

(** X22.  [findNotes] returns exactly when every note element a window
    reaches has a single pitch: for each part, each position [i] below the
    number of its notes without a rest and each [d] below the pattern's
    length, the note at [i + d] among all notes of the part, if there is
    one.  Otherwise the call ends in a TypeError. *)
Theorem findNotes_returns_iff_reached_notes_are_pitched xml pattern :
  (exists occurrences, FindNotes.findNotes xml pattern = Returned occurrences)
  <-> (forall partElement i d r,
          In partElement (getElementsByTagName xml "part") ->
          (i < List.length
                 (filter (fun noteElement =>
                            (List.length (getElementsByTagName noteElement "rest") =? 0)%nat)
                    (getElementsByTagName partElement "note")))%nat ->
          (d < List.length pattern)%nat ->
          nth_error (getElementsByTagName partElement "note") (i + d) = Some r ->
          FindNotes.pitched r).
Proof.
  unfold FindNotes.findNotes.
  pose (reached := fun (partElement : Ref) (entry : Ref * nat) =>
    forall d r, (d < List.length pattern)%nat ->
      nth_error (getElementsByTagName partElement "note") (snd entry + d) = Some r ->
      FindNotes.pitched r).
  assert (Hwindow : forall partElement entry,
    In partElement (getElementsByTagName xml "part") ->
    In entry
      (FindNotes.withIndex
         (filter (fun noteElement =>
                    (List.length (getElementsByTagName noteElement "rest") =? 0)%nat)
            (getElementsByTagName partElement "note"))) ->
    forall s,
      (exists s',
          FindNotes.window partElement (getElementsByTagName partElement "note") pattern
            entry s = Returned s')
      <-> reached partElement entry).
  { intros partElement [noteElement i] Hpart Hin s. apply withIndex_In in Hin.
    apply nth_error_In, filter_In in Hin. destruct Hin as [Hin _].
    destruct (getElementsByTagName_parented _ _ _
                (getElementsByTagName_element _ _ _ Hpart) Hin) as (parent & Hp & _).
    unfold reached, FindNotes.window. cbn [fst snd].
    rewrite <- (reduce_returns_iff partElement noteElement parent _ i Hp pattern 0 []).
    destruct (FindNotes.reduce partElement noteElement
                (getElementsByTagName partElement "note") i pattern 0 []) as [po | e].
    - split; intros _; [eexists; reflexivity |].
      destruct (List.length po =? List.length pattern)%nat; eexists; reflexivity.
    - split; intros [s' H]; discriminate H. }
  rewrite (each_returns_iff
             (fun partElement =>
                Forall (reached partElement)
                  (FindNotes.withIndex
                     (filter (fun noteElement =>
                                (List.length (getElementsByTagName noteElement "rest")
                                 =? 0)%nat)
                        (getElementsByTagName partElement "note"))))).
  - rewrite Forall_forall. split.
    + intros H partElement i d r Hpart Hi Hd Hn.
      specialize (H partElement Hpart). rewrite Forall_forall in H.
      destruct (nth_error
                  (filter (fun noteElement =>
                             (List.length (getElementsByTagName noteElement "rest")
                              =? 0)%nat)
                     (getElementsByTagName partElement "note")) i) as [x |] eqn:Hx.
      * apply withIndex_In in Hx. exact (H (x, i) Hx d r Hd Hn).
      * apply nth_error_None in Hx. lia.
    + intros H partElement Hpart. rewrite Forall_forall. intros [x i] Hin d r Hd Hn.
      apply withIndex_In in Hin.
      apply (H partElement i d r Hpart); [| exact Hd | exact Hn].
      apply nth_error_Some. rewrite Hin. discriminate.
  - intros partElement Hpart s. unfold FindNotes.searchPart.
    apply each_returns_iff. intros entry Hin s'. apply Hwindow; assumption.
Qed.
